(** * miner-cli: address range expansion and the concurrent dispatcher

    A shallow embedding of four packages of the repository:

    - [internal/iprange] ([ParseIPRange], [parseCIDR], [parseRange],
      [ParseMultipleRanges], [ParsePort] and their helpers),
    - [internal/client] ([NewClient], [ExecuteCommand], [worker],
      [executeJob], [customCommand], [GetAvailableCommands],
      [GetCommandDescription]),
    - [internal/output] (what [TableFormatter] and [SummaryTableFormatter]
      compute before they print), and
    - [cmd] ([executeCommand] up to its call of the dispatcher).

    Bytes are integers in [0, 256) with the wrap-around written out, a
    [net.IP] is the list of its bytes, Go strings are [string]s (one [ascii]
    per byte), Go maps are [gmap]s.  Loops whose termination depends on the
    input take a [nat] of fuel and return [None] when it runs out.  The
    worker pool is a labelled step relation over the state of the channels
    and of the goroutines. *)

From Stdlib Require Import ZArith Lia Ascii String.
From stdpp Require Import base list gmap strings pretty.

Local Open Scope Z_scope.

(** ** Results and errors *)

(** A Go [(T, error)] pair in which exactly one side is meaningful. *)
Inductive res (A : Type) : Type :=
| Ok (a : A)
| Err (msg : string).
Arguments Ok {A} a.
Arguments Err {A} msg.

(** ** Strings: the functions of package [strings] the code calls *)

Module GoStrings.

Definition code (c : ascii) : Z := Z.of_N (N_of_ascii c).

Definition is_digit (c : ascii) : bool := (48 <=? code c) && (code c <=? 57).

Definition digit (c : ascii) : Z := code c - 48.

(** [strings.Contains(s, sep)] for a separator of one byte. *)
Fixpoint Contains (s : string) (sep : ascii) : bool :=
  match s with
  | EmptyString => false
  | String c t => if Ascii.eqb c sep then true else Contains t sep
  end.

(** [strings.Split(s, sep)] for a separator of one byte: [n] separators give
    [n + 1] parts, empty parts included. *)
Fixpoint Split (s : string) (sep : ascii) : list string :=
  match s with
  | EmptyString => [EmptyString]
  | String c t =>
      if Ascii.eqb c sep then EmptyString :: Split t sep
      else match Split t sep with
           | [] => [String c EmptyString]
           | h :: r => String c h :: r
           end
  end.

(** White space as [strings.TrimSpace] sees it on ASCII text: tab, line
    feed, vertical tab, form feed, carriage return and space. *)
Definition isSpace (c : ascii) : bool :=
  let n := code c in ((9 <=? n) && (n <=? 13)) || (n =? 32).

Fixpoint trimLeft (s : string) : string :=
  match s with
  | EmptyString => EmptyString
  | String c t => if isSpace c then trimLeft t else s
  end.

Fixpoint trimRight (s : string) : string :=
  match s with
  | EmptyString => EmptyString
  | String c t =>
      match trimRight t with
      | EmptyString => if isSpace c then EmptyString else String c EmptyString
      | t' => String c t'
      end
  end.

Definition TrimSpace (s : string) : string := trimRight (trimLeft s).

End GoStrings.

(** ** Numbers: [strconv.Atoi], with an [int] of 64 bits *)

Module Strconv.
Import GoStrings.

(** The two errors a [*NumError] wraps. *)
Inductive NumError :=
| ErrSyntax
| ErrRange.

Definition maxUint64 : Z := 2 ^ 64 - 1.

(** The loop of the fast path of [Atoi]: [None] at a byte that is not a
    digit. *)
Fixpoint atoiDigits (s : string) (n : Z) : option Z :=
  match s with
  | EmptyString => Some n
  | String ch t =>
      if is_digit ch then atoiDigits t (n * 10 + digit ch) else None
  end.

(** The loop of [ParseUint(s, 10, 64)]: a byte that is not a digit is a
    syntax error, a value above [maxUint64] a range error, whichever comes
    first. *)
Fixpoint parseUintLoop (s : string) (n : Z) : Z + NumError :=
  match s with
  | EmptyString => inl n
  | String c t =>
      if negb (is_digit c) then inr ErrSyntax
      else if maxUint64 / 10 + 1 <=? n then inr ErrRange
      else
        let n1 := n * 10 + digit c in
        if maxUint64 <? n1 then inr ErrRange else parseUintLoop t n1
  end.

Definition ParseUint (s : string) : Z + NumError :=
  match s with
  | EmptyString => inr ErrSyntax
  | _ => parseUintLoop s 0
  end.

(** [ParseInt(s, 10, 0)]. *)
Definition ParseInt (s : string) : Z + NumError :=
  match s with
  | EmptyString => inr ErrSyntax
  | String c t =>
      let neg := Ascii.eqb c "-" in
      let s' := if Ascii.eqb c "+" || neg then t else s in
      match ParseUint s' with
      | inr ErrSyntax => inr ErrSyntax
      | r =>
          let un := match r with inl un => un | inr _ => maxUint64 end in
          let cutoff := 2 ^ 63 in
          if negb neg && (cutoff <=? un) then inr ErrRange
          else if neg && (cutoff <? un) then inr ErrRange
          else inl (if neg then - un else un)
      end
  end.

(** [Atoi]: the fast path for texts of fewer than 19 bytes, [ParseInt] for
    the others. *)
Definition Atoi (s : string) : Z + NumError :=
  let sLen := String.length s in
  if (0 <? sLen)%nat && (sLen <? 19)%nat then
    match s with
    | EmptyString => inr ErrSyntax
    | String c t =>
        let signed := Ascii.eqb c "-" || Ascii.eqb c "+" in
        let s' := if signed then t else s in
        if signed && (String.length s' <? 1)%nat then inr ErrSyntax
        else
          match atoiDigits s' 0 with
          | None => inr ErrSyntax
          | Some n => inl (if Ascii.eqb c "-" then - n else n)
          end
    end
  else ParseInt s.

(** The text of the [*NumError] of [Atoi]; [Quote] is [strconv.Quote]. *)
Definition NumErrorText (Quote : string -> string) (num : string) (e : NumError)
    : string :=
  "strconv.Atoi: parsing " +:+ Quote num +:+ ": "
  +:+ match e with
      | ErrSyntax => "invalid syntax"
      | ErrRange => "value out of range"
      end.

End Strconv.

(** ** Package [net] of the Go standard library, as far as the code uses it *)

Module Net.
Import GoStrings.

(** [net.IP] and [net.IPMask] are byte slices. *)
Definition IP := list Z.
Definition IPMask := list Z.

Record IPNet := { net_IP : IP; net_Mask : IPMask }.

Definition IPv4len : nat := 4.
Definition IPv6len : nat := 16.

Definition v4InV6Prefix : list Z := [0; 0; 0; 0; 0; 0; 0; 0; 0; 0; 255; 255].

(** [net.IPv4(a, b, c, d)]: the 16-byte form of an IPv4 address. *)
Definition IPv4 (a b c d : Z) : IP := v4InV6Prefix ++ [a; b; c; d].

Definition bytesEqual (a b : list Z) : bool := bool_decide (a = b).

Definition isZeros (p : list Z) : bool := forallb (Z.eqb 0) p.

(** [ip.To4()]; [None] is the nil slice. *)
Definition To4 (ip : IP) : option IP :=
  if (length ip =? IPv4len)%nat then Some ip
  else if (length ip =? IPv6len)%nat
          && isZeros (take 10 ip)
          && bool_decide (ip !! 10%nat = Some 255)
          && bool_decide (ip !! 11%nat = Some 255)
       then Some (drop 12 ip)
       else None.

(** [ip.Equal(x)]: an IPv4 address equals its 16-byte form. *)
Definition Equal (ip x : IP) : bool :=
  if (length ip =? length x)%nat then bytesEqual ip x
  else if (length ip =? IPv4len)%nat && (length x =? IPv6len)%nat
       then bytesEqual (take 12 x) v4InV6Prefix && bytesEqual ip (drop 12 x)
  else if (length ip =? IPv6len)%nat && (length x =? IPv4len)%nat
       then bytesEqual (take 12 ip) v4InV6Prefix && bytesEqual (drop 12 ip) x
  else false.

Definition IPv4zero : IP := IPv4 0 0 0 0.
Definition IPv6unspecified : IP := replicate 16 0.

Definition IsUnspecified (ip : IP) : bool :=
  Equal ip IPv4zero || Equal ip IPv6unspecified.

Definition allFF (b : list Z) : bool := forallb (Z.eqb 255) b.

(** [ip.Mask(mask)]; [None] is the nil result on a length mismatch. *)
Definition Mask (ip : IP) (mask : IPMask) : option IP :=
  let mask :=
    if (length mask =? IPv6len)%nat && (length ip =? IPv4len)%nat
       && allFF (take 12 mask)
    then drop 12 mask else mask in
  let ip :=
    if (length mask =? IPv4len)%nat && (length ip =? IPv6len)%nat
       && bytesEqual (take 12 ip) v4InV6Prefix
    then drop 12 ip else ip in
  if (length ip =? length mask)%nat then Some (zip_with Z.land ip mask)
  else None.

(** [net.CIDRMask(ones, bits)], for [bits] 32 or 128 and
    [0 <= ones <= bits]. *)
Fixpoint cidrMaskBytes (l : nat) (n : Z) : IPMask :=
  match l with
  | O => []
  | S l' =>
      if 8 <=? n then 255 :: cidrMaskBytes l' (n - 8)
      else (255 - Z.shiftr 255 n) :: cidrMaskBytes l' 0
  end.

Definition CIDRMask (ones bits : Z) : IPMask :=
  cidrMaskBytes (Z.to_nat (bits / 8)) ones.

(** [simpleMaskLength]: the number of leading one bits of a mask made of
    ones followed by zeros, [-1] for any other mask. *)
Fixpoint leadingOnes (fuel : nat) (v n : Z) : Z * Z :=
  match fuel with
  | O => (v, n)
  | S f =>
      if Z.land v 128 =? 0 then (v, n)
      else leadingOnes f (Z.shiftl v 1 mod 256) (n + 1)
  end.

Fixpoint simpleMaskLength (mask : IPMask) (n : Z) : Z :=
  match mask with
  | [] => n
  | v :: rest =>
      if v =? 255 then simpleMaskLength rest (n + 8)
      else
        let '(v', n') := leadingOnes 8 v n in
        if negb (v' =? 0) then -1
        else if forallb (Z.eqb 0) rest then n' else -1
  end.

(** [mask.Size()]. *)
Definition Size (m : IPMask) : Z * Z :=
  let ones := simpleMaskLength m 0 in
  if ones =? -1 then (0, 0) else (ones, Z.of_nat (length m) * 8).

(** [networkNumberAndMask]. *)
Definition networkNumberAndMask (n : IPNet) : option (IP * IPMask) :=
  let oip :=
    match To4 (net_IP n) with
    | Some ip => Some ip
    | None => if (length (net_IP n) =? IPv6len)%nat then Some (net_IP n) else None
    end in
  match oip with
  | None => None
  | Some ip =>
      let m := net_Mask n in
      if (length m =? IPv4len)%nat then
        if (length ip =? IPv4len)%nat then Some (ip, m) else None
      else if (length m =? IPv6len)%nat then
        if (length ip =? IPv4len)%nat then Some (ip, drop 12 m) else Some (ip, m)
      else None
  end.

(** [n.Contains(ip)]. *)
Definition Contains (n : IPNet) (ip : IP) : bool :=
  match networkNumberAndMask n with
  | None => false
  | Some (nn, m) =>
      let ip := match To4 ip with Some x => x | None => ip end in
      if (length ip =? length nn)%nat then
        bool_decide (zip_with Z.land nn m = zip_with Z.land ip m)
      else false
  end.

(** *** Parsing the textual forms *)

(** [parseIPv4Fields]: four decimal fields separated by dots, each with at
    least one digit, no leading zero and a value of at most 255.  [first]
    says the scan is at the first byte, [prevdot] that the previous byte was
    a dot; [fields] are the fields stored so far. *)
Fixpoint parseIPv4Fields (s : string) (first prevdot : bool)
    (val : Z) (digLen : nat) (fields : list Z) : option (list Z) :=
  match s with
  | EmptyString =>
      if (length fields <? 3)%nat then None else Some (fields ++ [val])
  | String c t =>
      if is_digit c then
        if (digLen =? 1)%nat && (val =? 0) then None
        else
          let val' := val * 10 + digit c in
          if 255 <? val' then None
          else parseIPv4Fields t false false val' (S digLen) fields
      else if Ascii.eqb c "."%char then
        if first || bool_decide (t = EmptyString) || prevdot then None
        else if (length fields =? 3)%nat then None
        else parseIPv4Fields t false true 0 0%nat (fields ++ [val])
      else None
  end.

Definition parseIPv4 (s : string) : option (list Z) :=
  parseIPv4Fields s true false 0 0%nat [].

Definition hexval (c : ascii) : option Z :=
  let n := code c in
  if (48 <=? n) && (n <=? 57) then Some (n - 48)
  else if (97 <=? n) && (n <=? 102) then Some (n - 97 + 10)
  else if (65 <=? n) && (n <=? 70) then Some (n - 65 + 10)
  else None.

(** One group of hexadecimal digits: the value, the number of digits and
    the rest of the text; [None] on more than four digits or a value above
    [0xFFFF]. *)
Fixpoint hexgroup (s : string) (off : nat) (acc : Z) : option (Z * nat * string) :=
  match s with
  | EmptyString => Some (acc, off, EmptyString)
  | String c t =>
      match hexval c with
      | None => Some (acc, off, s)
      | Some d =>
          let acc' := acc * 16 + d in
          if (3 <? off)%nat then None
          else if 65535 <? acc' then None
          else hexgroup t (S off) acc'
      end
  end.

(** The loop of [parseIPv6] over the groups: [ip] holds the bytes stored so
    far ([i] of the Go code is its length), [ellipsis] the position of the
    [::].  The loop runs while [i < 16] and each round stores two bytes at
    least, so eight rounds are all it can make. *)
Fixpoint parseIPv6Groups (rounds : nat) (s : string) (ip : list Z)
    (ellipsis : option nat) : option (string * list Z * option nat) :=
  match rounds with
  | O => Some (s, ip, ellipsis)
  | S rounds' =>
      if (16 <=? length ip)%nat then Some (s, ip, ellipsis)
      else
        match hexgroup s 0%nat 0 with
        | None => None
        | Some (acc, off, rest) =>
            if (off =? 0)%nat then None
            else
              match rest with
              | String "." _ =>
                  if bool_decide (ellipsis = None) && negb (length ip =? 12)%nat
                  then None
                  else if (16 <? length ip + 4)%nat then None
                  else
                    match parseIPv4 s with
                    | None => None
                    | Some f4 => Some (EmptyString, ip ++ f4, ellipsis)
                    end
              | EmptyString =>
                  Some (EmptyString, ip ++ [Z.shiftr acc 8; acc mod 256], ellipsis)
              | String ":" EmptyString => None
              | String ":" (String ":" r2) =>
                  let ip' := ip ++ [Z.shiftr acc 8; acc mod 256] in
                  match ellipsis with
                  | Some _ => None
                  | None =>
                      match r2 with
                      | EmptyString => Some (EmptyString, ip', Some (length ip'))
                      | _ => parseIPv6Groups rounds' r2 ip' (Some (length ip'))
                      end
                  end
              | String ":" r1 =>
                  parseIPv6Groups rounds' r1
                    (ip ++ [Z.shiftr acc 8; acc mod 256]) ellipsis
              | String _ _ => None
              end
        end
  end.

Definition parseIPv6Tail (s : string) (ellipsis : option nat) : option (list Z) :=
  match parseIPv6Groups 8 s [] ellipsis with
  | None => None
  | Some (rest, ip, ellipsis) =>
      if negb (bool_decide (rest = EmptyString)) then None
      else if (length ip <? 16)%nat then
        match ellipsis with
        | None => None
        | Some e => Some (take e ip ++ replicate (16 - length ip) 0 ++ drop e ip)
        end
      else match ellipsis with
           | Some _ => None
           | None => Some ip
           end
  end.

(** [parseIPv6], for [net.ParseIP]: a zone (anything after a [%]) makes
    [ParseIP] return nil, so a text with a [%] does not parse. *)
Definition parseIPv6 (s : string) : option (list Z) :=
  if GoStrings.Contains s "%"%char then None
  else
    match s with
    | String ":" (String ":" EmptyString) => Some (replicate 16 0)
    | String ":" (String ":" s') => parseIPv6Tail s' (Some 0%nat)
    | _ => parseIPv6Tail s None
    end.

(** The address family is chosen by the first dot, colon or percent sign of
    the text. *)
Inductive family := FamV4 | FamV6 | FamNone.

Fixpoint familyOf (s : string) : family :=
  match s with
  | EmptyString => FamNone
  | String c t =>
      if Ascii.eqb c "."%char then FamV4
      else if Ascii.eqb c ":"%char then FamV6
      else if Ascii.eqb c "%"%char then FamNone
      else familyOf t
  end.

(** [net.ParseIP(s)]: always the 16-byte form; [None] is nil. *)
Definition ParseIP (s : string) : option IP :=
  match familyOf s with
  | FamV4 => match parseIPv4 s with
             | Some f => Some (v4InV6Prefix ++ f)
             | None => None
             end
  | FamV6 => parseIPv6 s
  | FamNone => None
  end.

(** [dtoi]: a decimal number at the start of [s]; the value, the number of
    digits read and whether a number was read without overflow. *)
Definition big : Z := 16777215.

Fixpoint dtoi (s : string) (n : Z) (i : nat) : Z * nat * bool :=
  match s with
  | EmptyString => if (i =? 0)%nat then (0, 0%nat, false) else (n, i, true)
  | String c t =>
      if is_digit c then
        let n' := n * 10 + digit c in
        if big <=? n' then (big, i, false) else dtoi t n' (S i)
      else if (i =? 0)%nat then (0, 0%nat, false) else (n, i, true)
  end.

(** The text before the first [sep] and the text after it. *)
Fixpoint cut (s : string) (sep : ascii) : option (string * string) :=
  match s with
  | EmptyString => None
  | String c t =>
      if Ascii.eqb c sep then Some (EmptyString, t)
      else match cut t sep with
           | Some (a, b) => Some (String c a, b)
           | None => None
           end
  end.

(** [net.ParseCIDR(s)], the [*IPNet] result only (the code drops the
    address); the error is a [*ParseError] whose text is
    ["invalid CIDR address: " + s]. *)
Definition ParseCIDR (s : string) : res IPNet :=
  let bad := Err ("invalid CIDR address: " +:+ s) in
  match cut s "/"%char with
  | None => bad
  | Some (addr, mask) =>
      let parsed :=
        match familyOf addr with
        | FamV4 => match parseIPv4 addr with
                   | Some f => Some (v4InV6Prefix ++ f, 32)
                   | None => None
                   end
        | FamV6 => match parseIPv6 addr with
                   | Some ip => Some (ip, 128)
                   | None => None
                   end
        | FamNone => None
        end in
      match parsed with
      | None => bad
      | Some (addr16, bitlen) =>
          let '(n, i, ok) := dtoi mask 0 0%nat in
          if negb ok || negb (i =? String.length mask)%nat
             || (n <? 0) || (bitlen <? n)
          then bad
          else
            let m := CIDRMask n bitlen in
            match Mask addr16 m with
            | Some ip => Ok {| net_IP := ip; net_Mask := m |}
            | None => Ok {| net_IP := []; net_Mask := m |}
            end
      end
  end.

(** *** Printing an address *)

Definition digitChar (d : Z) : ascii := ascii_of_N (Z.to_N (48 + d)).

Definition hexChar (d : Z) : ascii :=
  if d <? 10 then ascii_of_N (Z.to_N (48 + d)) else ascii_of_N (Z.to_N (87 + d)).

(** A byte in decimal. *)
Definition decByte (b : Z) : string :=
  if b <? 10 then String (digitChar b) EmptyString
  else if b <? 100 then
    String (digitChar (b / 10)) (String (digitChar (b mod 10)) EmptyString)
  else
    String (digitChar (b / 100))
      (String (digitChar (b / 10 mod 10)) (String (digitChar (b mod 10)) EmptyString)).

(** A 16-bit group in lower-case hexadecimal without leading zeros. *)
Definition hexGroup (g : Z) : string :=
  let d3 := g / 4096 in
  let d2 := g / 256 mod 16 in
  let d1 := g / 16 mod 16 in
  let d0 := g mod 16 in
  let s0 := String (hexChar d0) EmptyString in
  let s1 := String (hexChar d1) s0 in
  let s2 := String (hexChar d2) s1 in
  if 4096 <=? g then String (hexChar d3) s2
  else if 256 <=? g then s2
  else if 16 <=? g then s1
  else s0.

Definition hexByte (b : Z) : string :=
  String (hexChar (b / 16)) (String (hexChar (b mod 16)) EmptyString).

Definition dotted (p : list Z) : string :=
  match p with
  | [a; b; c; d] =>
      decByte a +:+ "." +:+ decByte b +:+ "." +:+ decByte c +:+ "." +:+ decByte d
  | _ => EmptyString
  end.

Fixpoint groups16 (p : list Z) : list Z :=
  match p with
  | hi :: lo :: rest => (hi * 256 + lo) :: groups16 rest
  | _ => []
  end.

(** The number of zero groups at the head of [gs]. *)
Fixpoint zeroRun (gs : list Z) : nat :=
  match gs with
  | g :: rest => if g =? 0 then S (zeroRun rest) else O
  | [] => O
  end.

(** The first longest run of two or more zero groups, as [(start, end)];
    [(255, 255)] when there is none. *)
Fixpoint longestZeros (gs : list Z) (i : nat) (best : nat * nat) : nat * nat :=
  match gs with
  | [] => best
  | _ :: rest =>
      let l := zeroRun gs in
      let best' :=
        if (2 <=? l)%nat && (snd best - fst best <? l)%nat then (i, (i + l)%nat)
        else best in
      longestZeros rest (S i) best'
  end.

Fixpoint string6 (rounds : nat) (gs : list Z) (i : nat) (zs ze : nat) : string :=
  match rounds with
  | O => EmptyString
  | S rounds' =>
      if (8 <=? i)%nat then EmptyString
      else if (i =? zs)%nat then
        "::" +:+
        (if (8 <=? ze)%nat then EmptyString
         else hexGroup (default 0 (gs !! ze)) +:+ string6 rounds' gs (S ze) zs ze)
      else
        (if (0 <? i)%nat then ":" else EmptyString) +:+
        hexGroup (default 0 (gs !! i)) +:+ string6 rounds' gs (S i) zs ze
  end.

(** [ip.String()]. *)
Definition String_ (ip : IP) : string :=
  if (length ip =? 0)%nat then "<nil>"
  else if negb (length ip =? IPv4len)%nat && negb (length ip =? IPv6len)%nat
  then "?" +:+ String.concat EmptyString (map hexByte ip)
  else
    match To4 ip with
    | Some p4 => dotted p4
    | None =>
        let gs := groups16 ip in
        let '(zs, ze) := longestZeros gs 0%nat (255%nat, 255%nat) in
        string6 8 gs 0%nat zs ze
    end.

End Net.

(** ** Package [iprange] *)

Module IPRange.
Import GoStrings Net.

Record IPRange := { IPs : list IP }.

(** [inc]: add one to the address in place, from the last byte to the first,
    stopping at the first byte that does not wrap to zero.  [incFromLast]
    works on the reversed slice. *)
Fixpoint incFromLast (r : list Z) : list Z :=
  match r with
  | [] => []
  | b :: t =>
      let b' := (b + 1) mod 256 in
      if 0 <? b' then b' :: t else b' :: incFromLast t
  end.

Definition inc (ip : IP) : IP := rev (incFromLast (rev ip)).

(** [duplicateIP] copies the slice, so that the addresses collected by the
    loop do not alias the counter it increments in place; on values it is
    the identity. *)
Definition duplicateIP (ip : IP) : IP := ip.

(** The address [isBroadcast] builds: a copy of [ipNet.IP] with
    [broadcast[i] |= ^ipNet.Mask[i]] at every index.  The mask of an [IPNet]
    made by [net.ParseCIDR] is as long as its address, so [ipNet.Mask[i]] is
    in range. *)
Definition broadcastOf (ipNet : IPNet) : IP :=
  zip_with (fun b m => Z.lor b (255 - m)) (net_IP ipNet) (net_Mask ipNet).

(** [isBroadcast]. *)
Definition isBroadcast (ip : IP) (ipNet : IPNet) : bool :=
  if negb (length ip =? IPv4len)%nat then false
  else
    let '(ones, bits) := Size (net_Mask ipNet) in
    if ones =? bits then false
    else Equal ip (broadcastOf ipNet).

(** [ipToUint32], on the four bytes [To4] returns. *)
Definition ipToUint32 (ip : IP) : Z :=
  let b (k : nat) := default 0 (ip !! k) in
  Z.lor (Z.lor (Z.lor (Z.shiftl (b 0%nat) 24) (Z.shiftl (b 1%nat) 16))
               (Z.shiftl (b 2%nat) 8))
        (b 3%nat).

Definition byte (n : Z) : Z := n mod 256.

Definition uint32ToIP (n : Z) : IP :=
  IPv4 (byte (Z.shiftr n 24)) (byte (Z.shiftr n 16)) (byte (Z.shiftr n 8)) (byte n).

(** The loop of [parseCIDR]:
    [for ip := ...; ipNet.Contains(ip); inc(ip) { ips = append(ips, duplicateIP(ip)) }]. *)
Fixpoint cidrLoop (fuel : nat) (ipNet : IPNet) (ip : IP) (ips : list IP)
    : option (list IP) :=
  match fuel with
  | O => None
  | S fuel' =>
      if Contains ipNet ip
      then cidrLoop fuel' ipNet (inc ip) (ips ++ [duplicateIP ip])
      else Some ips
  end.

(** The two [if]s after the loop: drop the first address when it is the
    unspecified one, then drop the last when it is the broadcast address. *)
Definition dropUnspecified (ips : list IP) : list IP :=
  match ips with
  | first :: rest => if IsUnspecified first then rest else ips
  | [] => ips
  end.

Definition dropBroadcast (ipNet : IPNet) (ips : list IP) : list IP :=
  match last ips with
  | Some l => if isBroadcast l ipNet then take (length ips - 1) ips else ips
  | None => ips
  end.

(** [parseCIDR] from the parsed network on. *)
Definition expandNet (fuel : nat) (ipNet : IPNet) : option (list IP) :=
  let start := default [] (Mask (net_IP ipNet) (net_Mask ipNet)) in
  match cidrLoop fuel ipNet start [] with
  | None => None
  | Some ips => Some (dropBroadcast ipNet (dropUnspecified ips))
  end.

Definition parseCIDR (fuel : nat) (cidr : string) : option (res IPRange) :=
  match ParseCIDR cidr with
  | Err e => Some (Err ("invalid CIDR notation: " +:+ e))
  | Ok ipNet =>
      match expandNet fuel ipNet with
      | None => None
      | Some ips => Some (Ok {| IPs := ips |})
      end
  end.

(** The loop of [parseRange]: [for i := startInt; i <= endInt; i++] on
    [uint32]. *)
Fixpoint rangeLoop (fuel : nat) (i endInt : Z) (ips : list IP) : option (list IP) :=
  match fuel with
  | O => None
  | S fuel' =>
      if i <=? endInt
      then rangeLoop fuel' ((i + 1) mod 2 ^ 32) endInt (ips ++ [uint32ToIP i])
      else Some ips
  end.

Definition parseRange (fuel : nat) (rangeStr : string) : option (res IPRange) :=
  match Split rangeStr "-"%char with
  | [p0; p1] =>
      match ParseIP (TrimSpace p0), ParseIP (TrimSpace p1) with
      | Some startIP, Some endIP =>
          match To4 startIP, To4 endIP with
          | Some start4, Some end4 =>
              let startInt := ipToUint32 start4 in
              let endInt := ipToUint32 end4 in
              if endInt <? startInt
              then Some (Err "start IP must be less than or equal to end IP")
              else
                match rangeLoop fuel startInt endInt [] with
                | None => None
                | Some ips => Some (Ok {| IPs := ips |})
                end
          | _, _ => Some (Err "only IPv4 ranges are supported")
          end
      | _, _ => Some (Err ("invalid IP addresses in range: " +:+ rangeStr))
      end
  | _ => Some (Err ("invalid range format, expected start-end: " +:+ rangeStr))
  end.

Definition ParseIPRange (fuel : nat) (input : string) : option (res IPRange) :=
  let input := TrimSpace input in
  if GoStrings.Contains input "/"%char then parseCIDR fuel input
  else if GoStrings.Contains input "-"%char then parseRange fuel input
  else
    match ParseIP input with
    | None => Some (Err ("invalid IP address: " +:+ input))
    | Some ip => Some (Ok {| IPs := [ip] |})
    end.

(** The inner loop of [ParseMultipleRanges] over the addresses of one
    range; a missing key of [seenIPs] reads as [false]. *)
Definition addUnseen (st : list IP * gmap string bool) (ip : IP)
    : list IP * gmap string bool :=
  let '(allIPs, seenIPs) := st in
  let ipStr := String_ ip in
  if negb (default false (seenIPs !! ipStr))
  then (allIPs ++ [ip], <[ipStr := true]> seenIPs)
  else (allIPs, seenIPs).

Fixpoint multiLoop (fuel : nat) (inputs : list string)
    (st : list IP * gmap string bool) : option (res IPRange) :=
  match inputs with
  | [] => Some (Ok {| IPs := fst st |})
  | input :: rest =>
      match ParseIPRange fuel input with
      | None => None
      | Some (Err e) => Some (Err ("error parsing " +:+ input +:+ ": " +:+ e))
      | Some (Ok r) => multiLoop fuel rest (foldl addUnseen st (IPs r))
      end
  end.

Definition ParseMultipleRanges (fuel : nat) (inputs : list string)
    : option (res IPRange) :=
  multiLoop fuel inputs ([], ∅).

Definition GetIPs (r : IPRange) : list string := map String_ (IPs r).

Definition Count (r : IPRange) : Z := Z.of_nat (length (IPs r)).

(** [ParsePort]; [Quote] is [strconv.Quote], which the text of the error of
    [strconv.Atoi] uses. *)
Definition ParsePort (Quote : string -> string) (portStr : string) : res Z :=
  if String.eqb portStr EmptyString then Ok 4028
  else
    match Strconv.Atoi portStr with
    | inr err => Err ("invalid port: " +:+ Strconv.NumErrorText Quote portStr err)
    | inl port =>
        if (port <? 1) || (65535 <? port)
        then Err "port must be between 1 and 65535"
        else Ok port
    end.

(** The strings of a result, for reading the examples. *)
Definition shown (o : option (res IPRange)) : option (res (list string)) :=
  match o with
  | Some (Ok r) => Some (Ok (GetIPs r))
  | Some (Err e) => Some (Err e)
  | None => None
  end.

Definition counted (o : option (res IPRange)) : option (res Z) :=
  match o with
  | Some (Ok r) => Some (Ok (Count r))
  | Some (Err e) => Some (Err e)
  | None => None
  end.

End IPRange.

(** ** Package [client]: the dispatcher *)

Module Client.

(** A value of type [interface{}], as far as the code tells values apart:
    nil, an [int], a [string], or anything else (a value of the miner
    library, decoded JSON), which the dispatcher only passes on. *)
Inductive any :=
| ANil
| AInt (n : Z)
| AStr (s : string)
| AOther (repr : string).

(** A Go [error] is its message; [None] is the nil error. *)
Definition error := option string.

(** *** [time.Duration.String] *)

Definition digitChar (d : Z) : ascii := ascii_of_N (Z.to_N (48 + d)).

(** [fmtFrac]: the last [prec] decimal digits of [v] without trailing
    zeros, with the point in front when a digit is printed, and [v] without
    these digits. *)
Fixpoint fmtFracDigits (prec : nat) (v : Z) (print : bool) (acc : string)
    : string * Z * bool :=
  match prec with
  | O => (acc, v, print)
  | S prec' =>
      let digit := v mod 10 in
      let print := print || negb (digit =? 0) in
      fmtFracDigits prec' (v / 10) print
        (if print then String (digitChar digit) acc else acc)
  end.

Definition fmtFrac (v : Z) (prec : nat) : string * Z :=
  let '(acc, v', print) := fmtFracDigits prec v false EmptyString in
  (if print then String "."%char acc else acc, v').

(** [fmtInt]: a number in decimal. *)
Definition fmtInt (v : Z) : string := pretty v.

Definition micro : string := String (ascii_of_nat 194) (String (ascii_of_nat 181) EmptyString).

(** [d.String()] for a duration of [d] nanoseconds. *)
Definition DurationString (d : Z) : string :=
  let u := Z.abs d in
  let body :=
    if u <? 1000000000 then
      if u =? 0 then "0"
      else if u <? 1000 then
        let '(frac, u') := fmtFrac u 0 in fmtInt u' +:+ frac +:+ "n"
      else if u <? 1000000 then
        let '(frac, u') := fmtFrac u 3 in fmtInt u' +:+ frac +:+ micro
      else
        let '(frac, u') := fmtFrac u 6 in fmtInt u' +:+ frac +:+ "m"
    else
      let '(frac, u1) := fmtFrac u 9 in
      let secs := fmtInt (u1 mod 60) +:+ frac in
      let u2 := u1 / 60 in
      if 0 <? u2 then
        let mins := fmtInt (u2 mod 60) +:+ "m" in
        let u3 := u2 / 60 in
        if 0 <? u3 then fmtInt u3 +:+ "h" +:+ mins +:+ secs
        else mins +:+ secs
      else secs in
  (if d <? 0 then "-" else EmptyString) +:+ body +:+ "s".

(** *** The records of the package *)

Record Result := {
  IP : string;
  Port : Z;
  Command : string;
  Response : any;
  Error : string;
  Duration : string
}.

Record Client := { timeout : Z; workers : Z }.

Definition NewClient (timeout workers : Z) : Client :=
  let workers := if workers <=? 0 then 10 else workers in
  {| timeout := timeout; workers := workers |}.

Record job := {
  ip : string;
  port : Z;
  command : string;
  params : gmap string any
}.

(** *** The miner library, seen from [executeJob] *)

(** A pool of the miner's list is opaque to the dispatcher. *)
Definition Pool := string.

(** [cgminer.NewCommand] and [cgminer.NewCommandWithoutParameter]. *)
Record Command_ := { cmd_name : string; cmd_parameter : option string }.

(** What the calls on one [*cgminer.CGMiner] return; a miner is contacted
    by the calls, not by its construction. *)
Record CGMiner := {
  Summary : res string;
  Devs : res string;
  Pools : res (list Pool);
  Stats : res string;
  Version : res string;
  SwitchPool : Pool -> error;
  EnablePool : Pool -> error;
  DisablePool : Pool -> error;
  RemovePool : Pool -> error;
  AddPool : string -> string -> string -> error;
  Restart : error;
  Quit : error;
  RawCall : Command_ -> res string
}.

(** Everything outside the dispatcher that one execution of a job reads:
    the miner behind the address, the clock and [encoding/json]. *)
Record World := {
  NewCGMiner : string -> Z -> Z -> CGMiner;
  elapsed : Z;
  jsonMarshal : any -> res string;
  jsonUnmarshal : string -> option any
}.

(** The outcome of running a function body: it returns or it panics. *)
Inductive exec (A : Type) : Type :=
| Returned (a : A)
| Panicked (msg : string).
Arguments Returned {A} a.
Arguments Panicked {A} msg.

(** [customCommand]: the pair [(response, err)]. *)
Definition customCommand (w : World) (miner : CGMiner) (command : string)
    (args : any) : any * error :=
  let built : res Command_ :=
    match args with
    | ANil => Ok {| cmd_name := command; cmd_parameter := None |}
    | AStr strArg => Ok {| cmd_name := command; cmd_parameter := Some strArg |}
    | _ =>
        match jsonMarshal w args with
        | Err e => Err ("failed to marshal args: " +:+ e)
        | Ok argsBytes => Ok {| cmd_name := command; cmd_parameter := Some argsBytes |}
        end
    end in
  match built with
  | Err e => (ANil, Some e)
  | Ok cmd =>
      match RawCall miner cmd with
      | Err e => (ANil, Some e)
      | Ok respBytes =>
          match jsonUnmarshal w respBytes with
          | None => (AStr respBytes, None)
          | Some response => (response, None)
          end
      end
  end.

(** A call that returns a value of the library and an error. *)
Definition called (r : res string) : exec (any * error) :=
  match r with
  | Ok v => Returned (AOther v, None)
  | Err e => Returned (ANil, Some e)
  end.

(** A call that returns an error only; [done] is the response on success. *)
Definition acted (e : error) (done : string) : exec (any * error) :=
  match e with
  | None => Returned (AStr done, None)
  | Some _ => Returned (ANil, e)
  end.

(** The body shared by [switchpool], [enablepool], [disablepool] and
    [removepool]: [&pools[poolID]] panics when [poolID] is negative, for
    the guard is [poolID < len(pools)] alone. *)
Definition poolCommand (miner : CGMiner) (j : job) (act : Pool -> error)
    (done : string) (name : string) : exec (any * error) :=
  match params j !! "pool"%string with
  | Some (AInt poolID) =>
      match Pools miner with
      | Err poolErr => Returned (ANil, Some ("failed to get pools: " +:+ poolErr))
      | Ok pools =>
          if poolID <? Z.of_nat (length pools) then
            if poolID <? 0 then
              Panicked ("runtime error: index out of range [" +:+ pretty poolID +:+ "]")
            else
              match pools !! Z.to_nat poolID with
              | Some pool => acted (act pool) done
              | None => Panicked "runtime error: index out of range"
              end
          else Returned (ANil, Some ("pool ID " +:+ pretty poolID +:+ " not found"))
      end
  | _ => Returned (ANil, Some (name +:+ " command requires 'pool' parameter"))
  end.

(** The [switch] of [executeJob]: the pair [(response, err)] it leaves. *)
Definition dispatch (w : World) (miner : CGMiner) (j : job) : exec (any * error) :=
  let cmd := command j in
  if String.eqb cmd "summary" then called (Summary miner)
  else if String.eqb cmd "devs" then called (Devs miner)
  else if String.eqb cmd "pools" then
    match Pools miner with
    | Ok ps => Returned (AOther (String.concat "," ps), None)
    | Err e => Returned (ANil, Some e)
    end
  else if String.eqb cmd "stats" then called (Stats miner)
  else if String.eqb cmd "version" then called (Version miner)
  else if String.eqb cmd "switchpool" then
    poolCommand miner j (SwitchPool miner) "Pool switched successfully" "switchpool"
  else if String.eqb cmd "enablepool" then
    poolCommand miner j (EnablePool miner) "Pool enabled successfully" "enablepool"
  else if String.eqb cmd "disablepool" then
    poolCommand miner j (DisablePool miner) "Pool disabled successfully" "disablepool"
  else if String.eqb cmd "addpool" then
    match params j !! "url"%string, params j !! "user"%string, params j !! "pass"%string with
    | Some (AStr url), Some (AStr user), Some (AStr pass) =>
        acted (AddPool miner url user pass) "Pool added successfully"
    | _, _, _ =>
        Returned (ANil, Some "addpool requires 'url', 'user', and 'pass' parameters")
    end
  else if String.eqb cmd "removepool" then
    poolCommand miner j (RemovePool miner) "Pool removed successfully" "removepool"
  else if String.eqb cmd "restart" then acted (Restart miner) "Miner restarting"
  else if String.eqb cmd "quit" then acted (Quit miner) "Miner quitting"
  else if String.eqb cmd "custom" then
    match params j !! "cmd"%string with
    | Some (AStr cmd) =>
        let args := default ANil (params j !! "args"%string) in
        Returned (customCommand w miner cmd args)
    | _ => Returned (ANil, Some "custom command requires 'cmd' parameter")
    end
  else Returned (ANil, Some ("unknown command: " +:+ cmd)).

(** [executeJob]: only one of [Response] and [Error] is assigned. *)
Definition executeJob (c : Client) (w : World) (j : job) : exec Result :=
  let miner := NewCGMiner w (ip j) (port j) (timeout c) in
  match dispatch w miner j with
  | Panicked msg => Panicked msg
  | Returned (response, err) =>
      let duration := elapsed w in
      Returned
        match err with
        | Some e =>
            {| IP := ip j; Port := port j; Command := command j;
               Response := ANil; Error := e;
               Duration := DurationString duration |}
        | None =>
            {| IP := ip j; Port := port j; Command := command j;
               Response := response; Error := EmptyString;
               Duration := DurationString duration |}
        end
  end.

(** [GetAvailableCommands]. *)
Definition GetAvailableCommands : list string :=
  ["summary"; "devs"; "pools"; "stats"; "version"; "switchpool"; "enablepool";
   "disablepool"; "addpool"; "removepool"; "restart"; "quit"; "custom"]%string.

(** [GetCommandDescription]: a key that is not in the map reads as the
    empty string. *)
Definition descriptions : gmap string string :=
  list_to_map
    [("summary", "Get mining summary information");
     ("devs", "Get information about all devices");
     ("pools", "Get information about all pools");
     ("stats", "Get detailed statistics");
     ("version", "Get miner version information");
     ("switchpool", "Switch to a different pool (requires --pool)");
     ("enablepool", "Enable a pool (requires --pool)");
     ("disablepool", "Disable a pool (requires --pool)");
     ("addpool", "Add a new pool (requires --url, --user, --pass)");
     ("removepool", "Remove a pool (requires --pool)");
     ("restart", "Restart the miner");
     ("quit", "Stop the miner");
     ("custom", "Run a custom command (requires --cmd)")]%string.

Definition GetCommandDescription (cmd : string) : string :=
  default EmptyString (descriptions !! cmd).

(** The [Result] a worker sends for a job it finds cancelled. *)
Definition cancelledResult (j : job) : Result :=
  {| IP := ip j; Port := port j; Command := command j;
     Response := ANil; Error := "context cancelled"; Duration := EmptyString |}.

(** *** [ExecuteCommand] and its workers, as a transition system *)

(** A worker waits at [range jobs], holds a job it has received, or has
    left its loop. *)
Inductive wstate :=
| WWait
| WHave (j : job)
| WExited.

(** The state of one call of [ExecuteCommand]: the addresses the main
    goroutine has still to send, the two channels, the workers, whether
    [ctx.Done()] is closed, the jobs for which [executeJob] was called, and
    whether a goroutine has panicked (which ends the process). *)
Record state := {
  pending : list string;
  jobs : list job;
  jobsClosed : bool;
  pool : list wstate;
  results : list Result;
  done : bool;
  attempted : list job;
  crashed : bool
}.

Section Run.

Variable c : Client.
Variable run_port : Z.
Variable run_command : string.
Variable run_params : gmap string any.

Definition mkJob (addr : string) : job :=
  {| ip := addr; port := run_port; command := run_command; params := run_params |}.

(** The state after the workers are started: [c.workers] goroutines, none
    of which has run yet; [cancelled] says whether the context is already
    cancelled. *)
Definition init (ips : list string) (cancelled : bool) : state :=
  {| pending := ips; jobs := []; jobsClosed := false;
     pool := replicate (Z.to_nat (workers c)) WWait;
     results := []; done := cancelled; attempted := []; crashed := false |}.

Definition setPool (s : state) (i : nat) (w : wstate) : list wstate :=
  <[i := w]> (pool s).

Inductive step : state -> state -> Prop :=
| step_send s addr rest :
    crashed s = false -> pending s = addr :: rest ->
    step s {| pending := rest; jobs := jobs s ++ [mkJob addr];
              jobsClosed := jobsClosed s; pool := pool s; results := results s;
              done := done s; attempted := attempted s; crashed := false |}
| step_close s :
    crashed s = false -> pending s = [] -> jobsClosed s = false ->
    step s {| pending := []; jobs := jobs s; jobsClosed := true;
              pool := pool s; results := results s;
              done := done s; attempted := attempted s; crashed := false |}
| step_receive s i j rest :
    crashed s = false -> pool s !! i = Some WWait -> jobs s = j :: rest ->
    step s {| pending := pending s; jobs := rest; jobsClosed := jobsClosed s;
              pool := setPool s i (WHave j); results := results s;
              done := done s; attempted := attempted s; crashed := false |}
| step_exit s i :
    crashed s = false -> pool s !! i = Some WWait ->
    jobs s = [] -> jobsClosed s = true ->
    step s {| pending := pending s; jobs := []; jobsClosed := true;
              pool := setPool s i WExited; results := results s;
              done := done s; attempted := attempted s; crashed := false |}
| step_cancelled s i j :
    crashed s = false -> pool s !! i = Some (WHave j) -> done s = true ->
    step s {| pending := pending s; jobs := jobs s; jobsClosed := jobsClosed s;
              pool := setPool s i WWait;
              results := results s ++ [cancelledResult j];
              done := true; attempted := attempted s; crashed := false |}
| step_execute s i j w r :
    crashed s = false -> pool s !! i = Some (WHave j) -> done s = false ->
    executeJob c w j = Returned r ->
    step s {| pending := pending s; jobs := jobs s; jobsClosed := jobsClosed s;
              pool := setPool s i WWait; results := results s ++ [r];
              done := false; attempted := attempted s ++ [j]; crashed := false |}
| step_panic s i j w msg :
    crashed s = false -> pool s !! i = Some (WHave j) -> done s = false ->
    executeJob c w j = Panicked msg ->
    step s {| pending := pending s; jobs := jobs s; jobsClosed := jobsClosed s;
              pool := pool s; results := results s;
              done := false; attempted := attempted s ++ [j]; crashed := true |}
| step_cancel s :
    crashed s = false -> done s = false ->
    step s {| pending := pending s; jobs := jobs s; jobsClosed := jobsClosed s;
              pool := pool s; results := results s;
              done := true; attempted := attempted s; crashed := false |}.

(** [ExecuteCommand] returns, with [results s] as its value, once every
    address is sent, [jobs] is closed and every worker has left its loop
    ([wg.Wait()] is over). *)
Definition returned (s : state) : Prop :=
  crashed s = false /\ pending s = [] /\ jobsClosed s = true
  /\ Forall (fun w => w = WExited) (pool s).

Definition steps : state -> state -> Prop := rtc step.

(** What a state has still to do: every transition lowers it. *)
Definition wweight (w : wstate) : nat :=
  match w with
  | WWait => 1
  | WHave _ => 2
  | WExited => 0
  end.

Fixpoint poolWeight (l : list wstate) : nat :=
  match l with
  | [] => 0
  | w :: rest => wweight w + poolWeight rest
  end.

Definition measure (s : state) : nat :=
  4 * length (pending s) + 3 * length (jobs s)
  + poolWeight (pool s)
  + (if jobsClosed s then 0 else 1) + (if done s then 0 else 1)
  + (if crashed s then 0 else 1).

End Run.

End Client.

(** ** Package [output]: what the formatters compute *)

Module Output.
Import GoStrings Net Client.

(** [getSubnet24]. *)
Definition getSubnet24 (ipStr : string) : string :=
  match Split ipStr "."%char with
  | [p0; p1; p2; _] => p0 +:+ "." +:+ p1 +:+ "." +:+ p2 +:+ ".0/24"
  | _ => ipStr
  end.

(** [ipToInt]. *)
Definition ipToInt (ipStr : string) : Z :=
  match ParseIP ipStr with
  | None => 0
  | Some ip =>
      match To4 ip with
      | None => 0
      | Some ip4 =>
          let b (k : nat) := default 0 (ip4 !! k) in
          Z.lor (Z.lor (Z.lor (Z.shiftl (b 0%nat) 24) (Z.shiftl (b 1%nat) 16))
                       (Z.shiftl (b 2%nat) 8))
                (b 3%nat)
      end
  end.

Record TableFormatter := { Verbose : bool }.

(** The arguments of one [fmt.Fprintf] to the tab writer: a line of the
    table. *)
Record tableLine := {
  line_IP : string;
  line_Port : Z;
  line_Command : string;
  line_Status : string;
  line_Duration : string;
  line_Details : string
}.

(** What [TableFormatter.Format] hands to the tab writer after the two
    header lines, and the numbers of the summary it prints. *)
Record tableOutput := {
  lines : list tableLine;
  total : Z;
  successCount : Z;
  errorCount : Z
}.

Section Table.

(** [json.Marshal]. *)
Variable jsonMarshal : any -> res string.

(** The body of the first loop of [Format]: [None] is [continue]. *)
Definition formatLine (f : TableFormatter) (result : Result) : option tableLine :=
  let failed := negb (String.eqb (Error result) EmptyString) in
  if failed && negb (Verbose f) then None
  else
    let status := if failed then "Failed" else "Success" in
    let details :=
      if failed then Error result
      else if Verbose f then
        match jsonMarshal (Response result) with
        | Ok jsonData =>
            if (50 <? String.length jsonData)%nat
            then substring 0 47 jsonData +:+ "..."
            else jsonData
        | Err _ => EmptyString
        end
      else EmptyString in
    Some {| line_IP := IP result; line_Port := Port result;
            line_Command := Command result; line_Status := status;
            line_Duration := Duration result; line_Details := details |}.

(** The body of the second loop. *)
Definition count (st : Z * Z) (result : Result) : Z * Z :=
  let '(successCount, errorCount) := st in
  if String.eqb (Error result) EmptyString
  then (successCount + 1, errorCount)
  else (successCount, errorCount + 1).

Definition TableFormat (f : TableFormatter) (results : list Result) : tableOutput :=
  let '(successCount, errorCount) := foldl count (0, 0) results in
  {| lines := omap (formatLine f) results;
     total := Z.of_nat (length results);
     successCount := successCount;
     errorCount := errorCount |}.

End Table.

(** The first loop of [SummaryTableFormatter.Format]: the results without
    an error whose address parses, grouped by [getSubnet24]. *)
Definition group (subnetMap : gmap string (list Result)) (result : Result)
    : gmap string (list Result) :=
  if negb (String.eqb (Error result) EmptyString) then subnetMap
  else
    match ParseIP (IP result) with
    | None => subnetMap
    | Some _ =>
        let subnet := getSubnet24 (IP result) in
        <[subnet := default [] (subnetMap !! subnet) ++ [result]]> subnetMap
    end.

Definition subnetMap (results : list Result) : gmap string (list Result) :=
  foldl group ∅ results.

(** The last loop: [totalSuccess], the sum of the sizes of the groups. *)
Definition totalSuccess (subnetMap : gmap string (list Result)) : Z :=
  map_fold (fun _ results n => n + Z.of_nat (length results)) 0 subnetMap.

End Output.

(** ** Package [cmd]: the command line up to the call of the dispatcher *)

Module Cmd.
Import GoStrings Net IPRange.

(** The flags, which the code keeps in package variables. *)
Record flags := {
  ipRanges : list string;
  port : Z;
  timeout : Z;
  workers : Z;
  poolID : Z;
  poolURL : string;
  poolUser : string;
  poolPass : string;
  customCmd : string
}.

(** [time.Second], in nanoseconds. *)
Definition Second : Z := 1000000000.

(** Arithmetic on [int64] wraps around. *)
Definition wrap64 (z : Z) : Z := (z + 2 ^ 63) mod 2 ^ 64 - 2 ^ 63.

(** The [switch] of [executeCommand] that fills [params]. *)
Definition commandParams (fl : flags) (command : string) : gmap string Client.any :=
  if String.eqb command "switchpool" || String.eqb command "enablepool"
     || String.eqb command "disablepool" || String.eqb command "removepool"
  then <["pool"%string := Client.AInt (poolID fl)]> ∅
  else if String.eqb command "addpool"
  then <["pass"%string := Client.AStr (poolPass fl)]>
         (<["user"%string := Client.AStr (poolUser fl)]>
            (<["url"%string := Client.AStr (poolURL fl)]> ∅))
  else if String.eqb command "custom"
  then <["cmd"%string := Client.AStr (customCmd fl)]> ∅
  else ∅.

(** The duration handed to [context.WithTimeout] for [n] addresses:
    [time.Duration(timeout)*time.Second*time.Duration(n/workers+1)].  The
    division of two [int]s truncates, and panics when [workers] is zero. *)
Definition runTimeout (fl : flags) (n : Z) : Client.exec Z :=
  if workers fl =? 0 then Client.Panicked "runtime error: integer divide by zero"
  else
    Client.Returned
      (wrap64 (wrap64 (timeout fl * Second)
               * wrap64 (Z.quot n (workers fl) + 1))).

(** The call [cgClient.ExecuteCommand(ctx, ips, port, command, params)]
    that [executeCommand] makes, [ctx] being given by its timeout. *)
Record call := {
  ctxTimeout : Z;
  cgClient : Client.Client;
  ips : list string;
  call_port : Z;
  call_command : string;
  call_params : gmap string Client.any
}.

(** [executeCommand] up to that call: the error it returns or the panic it
    raises before, or the call. *)
Definition executeCommand (fuel : nat) (fl : flags) (command : string)
    : option (Client.exec (res call)) :=
  if (length (ipRanges fl) =? 0)%nat
  then Some (Client.Returned (Err "no IP ranges specified"))
  else
    match ParseMultipleRanges fuel (ipRanges fl) with
    | None => None
    | Some (Err err) =>
        Some (Client.Returned (Err ("failed to parse IP ranges: " +:+ err)))
    | Some (Ok ipRange) =>
        let ips := GetIPs ipRange in
        if (length ips =? 0)%nat
        then Some (Client.Returned (Err "no valid IPs in specified ranges"))
        else
          let params := commandParams fl command in
          match runTimeout fl (Z.of_nat (length ips)) with
          | Client.Panicked msg => Some (Client.Panicked msg)
          | Client.Returned d =>
              Some (Client.Returned (Ok
                {| ctxTimeout := d;
                   cgClient := Client.NewClient (wrap64 (timeout fl * Second))
                                 (workers fl);
                   ips := ips; call_port := port fl; call_command := command;
                   call_params := params |}))
          end
    end.

(** [context.WithTimeout] with a duration that is not positive returns a
    context that is already done: the state in which the run of the call
    starts. *)
Definition start (c : call) : Client.state :=
  Client.init (cgClient c) (ips c) (ctxTimeout c <=? 0).

End Cmd.

Module NetExamples.
Import Net.

Example parse_v4 : ParseIP "192.168.1.100" = Some (IPv4 192 168 1 100).
Proof. reflexivity. Qed.
Example parse_v4_bad : ParseIP "999.999.999.999" = None.
Proof. reflexivity. Qed.
Example parse_v4_lz : ParseIP "192.168.01.1" = None.
Proof. reflexivity. Qed.
Example parse_v6_loop : String_ <$> ParseIP "::1" = Some "::1"%string.
Proof. reflexivity. Qed.
Example parse_v6_db8 : String_ <$> ParseIP "2001:DB8:0:0:1:0:0:1" = Some "2001:db8::1:0:0:1"%string.
Proof. reflexivity. Qed.
Example parse_v6_mapped : String_ <$> ParseIP "::ffff:10.1.2.3" = Some "10.1.2.3"%string.
Proof. reflexivity. Qed.
Example parse_v6_any : String_ <$> ParseIP "::" = Some "::"%string.
Proof. reflexivity. Qed.
Example parse_v6_tail : String_ <$> ParseIP "fe80::" = Some "fe80::"%string.
Proof. reflexivity. Qed.
Example parse_v6_seven : String_ <$> ParseIP "1:2:3:4:5:6:7::" = Some "1:2:3:4:5:6:7:0"%string.
Proof. reflexivity. Qed.
Example parse_v6_full : ParseIP "1:2:3:4:5:6:7:8::" = None.
Proof. reflexivity. Qed.
Example cidr24 :
  ParseCIDR "192.168.1.77/24"
  = Ok {| net_IP := [192; 168; 1; 0]; net_Mask := [255; 255; 255; 0] |}.
Proof. reflexivity. Qed.
Example cidr99 : ParseCIDR "192.168.1.0/99" = Err "invalid CIDR address: 192.168.1.0/99".
Proof. reflexivity. Qed.
Example cidr_v6 :
  (fun n => (String_ (net_IP n), Size (net_Mask n))) <$>
    (match ParseCIDR "2001:db8::5/126" with Ok n => Some n | Err _ => None end)
  = Some ("2001:db8::4"%string, (126, 128)).
Proof. reflexivity. Qed.

End NetExamples.

Module IPRangeExamples.
Import Net IPRange.

(** The cases of [parser_test.go]. *)
Example single_v4 : shown (ParseIPRange 0 "192.168.1.100") = Some (Ok ["192.168.1.100"%string]).
Proof. reflexivity. Qed.
Example single_v6 : shown (ParseIPRange 0 "::1") = Some (Ok ["::1"%string]).
Proof. reflexivity. Qed.
Example single_bad : shown (ParseIPRange 0 "") = Some (Err "invalid IP address: ").
Proof. reflexivity. Qed.
Example cidr_24 : counted (ParseIPRange 300 "192.168.1.0/24") = Some (Ok 255).
Proof. vm_compute. reflexivity. Qed.
Example cidr_30 :
  shown (ParseIPRange 300 "10.0.0.0/30")
  = Some (Ok ["10.0.0.0"; "10.0.0.1"; "10.0.0.2"]%string).
Proof. vm_compute. reflexivity. Qed.
Example cidr_31 : shown (ParseIPRange 300 "10.0.0.0/31") = Some (Ok ["10.0.0.0"%string]).
Proof. vm_compute. reflexivity. Qed.
Example cidr_32 : shown (ParseIPRange 300 "172.16.0.1/32") = Some (Ok ["172.16.0.1"%string]).
Proof. vm_compute. reflexivity. Qed.
Example cidr_bad :
  shown (ParseIPRange 300 "192.168.1.0/99")
  = Some (Err "invalid CIDR notation: invalid CIDR address: 192.168.1.0/99").
Proof. vm_compute. reflexivity. Qed.
Example range_5 : counted (ParseIPRange 300 "192.168.1.1-192.168.1.5") = Some (Ok 5).
Proof. vm_compute. reflexivity. Qed.
Example range_1 : shown (ParseIPRange 300 "10.0.0.1-10.0.0.1") = Some (Ok ["10.0.0.1"%string]).
Proof. vm_compute. reflexivity. Qed.
Example range_3parts :
  counted (ParseIPRange 300 "192.168.1.1-192.168.1.2-192.168.1.3")
  = Some (Err "invalid range format, expected start-end: 192.168.1.1-192.168.1.2-192.168.1.3").
Proof. vm_compute. reflexivity. Qed.
Example range_rev :
  counted (ParseIPRange 300 "192.168.1.10-192.168.1.5")
  = Some (Err "start IP must be less than or equal to end IP").
Proof. vm_compute. reflexivity. Qed.
Example multi_mixed :
  counted (ParseMultipleRanges 300 ["192.168.1.1"; "10.0.0.0/30"; "172.16.0.1-172.16.0.3"]%string)
  = Some (Ok 7).
Proof. vm_compute. reflexivity. Qed.
Example multi_invalid :
  counted (ParseMultipleRanges 300 ["192.168.1.1"; "invalid-ip"]%string)
  = Some (Err "error parsing invalid-ip: invalid IP addresses in range: invalid-ip").
Proof. vm_compute. reflexivity. Qed.

(** The cases of [TestParsePort]. *)
Example port_valid : ParsePort (fun s => s) "4028" = Ok 4028.
Proof. reflexivity. Qed.
Example port_empty : ParsePort (fun s => s) EmptyString = Ok 4028.
Proof. reflexivity. Qed.
Example port_low : ParsePort (fun s => s) "1" = Ok 1.
Proof. reflexivity. Qed.
Example port_high : ParsePort (fun s => s) "65535" = Ok 65535.
Proof. reflexivity. Qed.
Example port_zero : ParsePort (fun s => s) "0" = Err "port must be between 1 and 65535".
Proof. reflexivity. Qed.
Example port_too_high :
  ParsePort (fun s => s) "65536" = Err "port must be between 1 and 65535".
Proof. reflexivity. Qed.
Example port_negative :
  ParsePort (fun s => s) "-1" = Err "port must be between 1 and 65535".
Proof. reflexivity. Qed.
Example port_text :
  ParsePort (fun s => "'" +:+ s +:+ "'") "abc"
  = Err "invalid port: strconv.Atoi: parsing 'abc': invalid syntax".
Proof. reflexivity. Qed.
Example port_long :
  ParsePort (fun s => s) "+00000000000000000000080" = Ok 80.
Proof. reflexivity. Qed.
Example port_huge :
  ParsePort (fun s => "'" +:+ s +:+ "'") "99999999999999999999"
  = Err "invalid port: strconv.Atoi: parsing '99999999999999999999': value out of range".
Proof. vm_compute. reflexivity. Qed.

End IPRangeExamples.

Module ClientExamples.
Import Client.

(** [time.Duration.String] on the values of the Go documentation. *)
Example duration_zero : DurationString 0 = "0s"%string.
Proof. vm_compute. reflexivity. Qed.
Example duration_ms : DurationString 100000000 = "100ms"%string.
Proof. vm_compute. reflexivity. Qed.
Example duration_frac : DurationString 1500000000 = "1.5s"%string.
Proof. vm_compute. reflexivity. Qed.
Example duration_micro : DurationString 1500 = ("1.5" +:+ micro +:+ "s")%string.
Proof. vm_compute. reflexivity. Qed.
Example duration_hms : DurationString 3723000000000 = "1h2m3s"%string.
Proof. vm_compute. reflexivity. Qed.
Example duration_minute : DurationString 60000000000 = "1m0s"%string.
Proof. vm_compute. reflexivity. Qed.
Example duration_neg : DurationString (-2500000) = "-2.5ms"%string.
Proof. vm_compute. reflexivity. Qed.

(** The cases of [TestExecuteJobParameterValidation]; no miner is asked. *)
Definition unreachable : CGMiner :=
  let no := "dial tcp: i/o timeout"%string in
  {| Summary := Err no; Devs := Err no; Pools := Err no; Stats := Err no;
     Version := Err no;
     SwitchPool := fun _ => Some no; EnablePool := fun _ => Some no;
     DisablePool := fun _ => Some no; RemovePool := fun _ => Some no;
     AddPool := fun _ _ _ => Some no; Restart := Some no; Quit := Some no;
     RawCall := fun _ => Err no |}.

Definition testWorld : World :=
  {| NewCGMiner := fun _ _ _ => unreachable; elapsed := 1000;
     jsonMarshal := fun _ => Err "unsupported value";
     jsonUnmarshal := fun _ => None |}.

Definition errorOf (x : exec Result) : option string :=
  match x with
  | Returned r => Some (Error r)
  | Panicked _ => None
  end.

Example switchpool_missing :
  errorOf (executeJob (NewClient 1000000000 1) testWorld
             {| ip := "192.168.1.1"; port := 4028; command := "switchpool"; params := ∅ |})
  = Some "switchpool command requires 'pool' parameter"%string.
Proof. vm_compute. reflexivity. Qed.
Example addpool_missing :
  errorOf (executeJob (NewClient 1000000000 1) testWorld
             {| ip := "192.168.1.1"; port := 4028; command := "addpool";
                params := {["url"%string := AStr "stratum://pool.com"]} |})
  = Some "addpool requires 'url', 'user', and 'pass' parameters"%string.
Proof. vm_compute. reflexivity. Qed.
Example custom_missing :
  errorOf (executeJob (NewClient 1000000000 1) testWorld
             {| ip := "192.168.1.1"; port := 4028; command := "custom"; params := ∅ |})
  = Some "custom command requires 'cmd' parameter"%string.
Proof. vm_compute. reflexivity. Qed.
Example unknown_command :
  errorOf (executeJob (NewClient 1000000000 1) testWorld
             {| ip := "192.168.1.1"; port := 4028; command := "unknown"; params := ∅ |})
  = Some "unknown command: unknown"%string.
Proof. vm_compute. reflexivity. Qed.
Example pool_not_found :
  errorOf (executeJob (NewClient 1000000000 1)
             {| NewCGMiner := fun _ _ _ =>
                  {| Summary := Err ""; Devs := Err ""; Pools := Ok ["a"; "b"]%string;
                     Stats := Err ""; Version := Err "";
                     SwitchPool := fun _ => None; EnablePool := fun _ => None;
                     DisablePool := fun _ => None; RemovePool := fun _ => None;
                     AddPool := fun _ _ _ => None; Restart := None; Quit := None;
                     RawCall := fun _ => Err "" |};
                elapsed := 1000; jsonMarshal := fun _ => Err "";
                jsonUnmarshal := fun _ => None |}
             {| ip := "192.168.1.1"; port := 4028; command := "enablepool";
                params := {["pool"%string := AInt 2]} |})
  = Some "pool ID 2 not found"%string.
Proof. vm_compute. reflexivity. Qed.

(** The cases of [TestGetCommandDescription]. *)
Example description_summary :
  GetCommandDescription "summary" = "Get mining summary information"%string.
Proof. vm_compute. reflexivity. Qed.
Example description_nonexistent : GetCommandDescription "nonexistent" = EmptyString.
Proof. vm_compute. reflexivity. Qed.

End ClientExamples.

Module OutputExamples.
Import Client Output.

Example subnet_v4 : getSubnet24 "192.168.1.77" = "192.168.1.0/24"%string.
Proof. reflexivity. Qed.
Example subnet_v6 : getSubnet24 "2001:db8::1" = "2001:db8::1"%string.
Proof. reflexivity. Qed.
Example number_v4 : ipToInt "192.168.1.77" = 3232235853.
Proof. reflexivity. Qed.
Example number_v6 : ipToInt "2001:db8::1" = 0.
Proof. reflexivity. Qed.

(** The second case of [TestTableFormatter], with a response that
    [json.Marshal] prints in 17 bytes. *)
Example table_verbose :
  TableFormat (fun _ => Ok "{'hashrate':1000}") {| Verbose := true |}
    [{| IP := "192.168.1.1"; Port := 4028; Command := "summary";
        Response := AOther "hashrate"; Error := EmptyString; Duration := "100ms" |};
     {| IP := "192.168.1.2"; Port := 4028; Command := "summary";
        Response := ANil; Error := "timeout"; Duration := "5s" |}]%string
  = {| lines :=
         [{| line_IP := "192.168.1.1"; line_Port := 4028; line_Command := "summary";
             line_Status := "Success"; line_Duration := "100ms";
             line_Details := "{'hashrate':1000}" |};
          {| line_IP := "192.168.1.2"; line_Port := 4028; line_Command := "summary";
             line_Status := "Failed"; line_Duration := "5s";
             line_Details := "timeout" |}]%string;
       total := 2; successCount := 1; errorCount := 1 |}.
Proof. reflexivity. Qed.

End OutputExamples.

Module CmdExamples.
Import Client.

Definition defaults : Cmd.flags :=
  {| Cmd.ipRanges := ["192.168.1.0/30"; "192.168.1.2-192.168.1.4"]%string;
     Cmd.port := 4028; Cmd.timeout := 2; Cmd.workers := 255; Cmd.poolID := 0;
     Cmd.poolURL := EmptyString; Cmd.poolUser := EmptyString;
     Cmd.poolPass := EmptyString; Cmd.customCmd := EmptyString |}.

(** With the default flags five addresses get one round of two seconds. *)
Example summary_call :
  Cmd.executeCommand 10 defaults "summary"
  = Some (Returned (Ok
      {| Cmd.ctxTimeout := 2000000000;
         Cmd.cgClient := {| timeout := 2000000000; workers := 255 |};
         Cmd.ips := ["192.168.1.0"; "192.168.1.1"; "192.168.1.2"; "192.168.1.3";
                     "192.168.1.4"]%string;
         Cmd.call_port := 4028; Cmd.call_command := "summary";
         Cmd.call_params := ∅ |})).
Proof. vm_compute. reflexivity. Qed.

End CmdExamples.

(** ** IPv4 addresses as 32-bit numbers *)

Module IPv4.
Import Net IPRange.

Definition inrange (b : Z) : Prop := 0 <= b < 256.

(** The value of four bytes, most significant first. *)
Definition val4 (ip : list Z) : Z :=
  match ip with
  | [a; b; c; d] => a * 2 ^ 24 + b * 2 ^ 16 + c * 2 ^ 8 + d
  | _ => 0
  end.

(** The four bytes of a 32-bit number: the last four bytes of
    [uint32ToIP]. *)
Definition bytes4 (v : Z) : list Z :=
  [byte (Z.shiftr v 24); byte (Z.shiftr v 16); byte (Z.shiftr v 8); byte v].

Definition is4 (ip : list Z) : Prop := length ip = 4%nat /\ Forall inrange ip.

Ltac forall_bytes :=
  repeat match goal with
         | |- Forall _ (_ :: _) => constructor
         | |- Forall _ [] => constructor
         end.

Ltac pow2 :=
  change (2 ^ 32) with 4294967296 in *; change (2 ^ 24) with 16777216 in *;
  change (2 ^ 16) with 65536 in *; change (2 ^ 8) with 256 in *.

Lemma is4_inv ip :
  is4 ip ->
  exists a b c d, ip = [a; b; c; d] /\ inrange a /\ inrange b /\ inrange c /\ inrange d.
Proof.
  intros [Hl Hf].
  destruct ip as [|a [|b [|c [|d [|? ?]]]]]; simpl in Hl; try discriminate.
  exists a, b, c, d.
  repeat match goal with H : Forall _ (_ :: _) |- _ => inversion H; subst; clear H end.
  auto.
Qed.

Lemma val4_range ip : is4 ip -> 0 <= val4 ip < 2 ^ 32.
Proof.
  intros H. destruct (is4_inv _ H) as (a & b & c & d & -> & Ha & Hb & Hc & Hd).
  unfold val4, inrange in *. pow2. lia.
Qed.

Lemma bytes4_is4 v : is4 (bytes4 v).
Proof.
  split; [reflexivity|].
  unfold bytes4, byte. forall_bytes; apply Z.mod_pos_bound; lia.
Qed.

Lemma val4_bytes4 v : 0 <= v < 2 ^ 32 -> val4 (bytes4 v) = v.
Proof.
  intros Hv. unfold val4, bytes4, byte.
  rewrite !Z.shiftr_div_pow2 by lia. pow2.
  Z.div_mod_to_equations. lia.
Qed.

Lemma bytes4_val4 ip : is4 ip -> bytes4 (val4 ip) = ip.
Proof.
  intros H. destruct (is4_inv _ H) as (a & b & c & d & -> & Ha & Hb & Hc & Hd).
  unfold val4, bytes4, byte, inrange in *.
  rewrite !Z.shiftr_div_pow2 by lia. pow2.
  repeat f_equal; Z.div_mod_to_equations; lia.
Qed.

Lemma val4_inj ip ip' : is4 ip -> is4 ip' -> val4 ip = val4 ip' -> ip = ip'.
Proof.
  intros H H' E. rewrite <- (bytes4_val4 ip), <- (bytes4_val4 ip') by assumption.
  now rewrite E.
Qed.

Lemma bytes4_inj v w :
  0 <= v < 2 ^ 32 -> 0 <= w < 2 ^ 32 -> bytes4 v = bytes4 w -> v = w.
Proof.
  intros Hv Hw E. rewrite <- (val4_bytes4 v), <- (val4_bytes4 w) by assumption.
  now rewrite E.
Qed.

(** *** Bitwise operations byte by byte *)

Lemma land_low8 x b : inrange b -> Z.land (x * 256 + b) (Z.ones 8) = b.
Proof.
  intros Hb. rewrite Z.land_ones by lia. change (2 ^ 8) with 256.
  unfold inrange in Hb. Z.div_mod_to_equations. lia.
Qed.

Lemma shiftr_high8 x b : inrange b -> Z.shiftr (x * 256 + b) 8 = x.
Proof.
  intros Hb. rewrite Z.shiftr_div_pow2 by lia. change (2 ^ 8) with 256.
  unfold inrange in Hb. Z.div_mod_to_equations. lia.
Qed.

Lemma split8 z : z = Z.shiftr z 8 * 256 + Z.land z (Z.ones 8).
Proof.
  rewrite Z.shiftr_div_pow2, Z.land_ones by lia. change (2 ^ 8) with 256.
  Z.div_mod_to_equations. lia.
Qed.

Lemma land_inrange a m : inrange a -> inrange (Z.land a m).
Proof.
  intros Ha. unfold inrange.
  assert (E : Z.land (Z.land a m) (Z.ones 8) = Z.land a m).
  { rewrite <- Z.land_assoc, (Z.land_comm m), Z.land_assoc.
    rewrite (Z.land_ones a) by lia. change (2 ^ 8) with 256.
    rewrite Z.mod_small by exact Ha. reflexivity. }
  rewrite Z.land_ones in E by lia. change (2 ^ 8) with 256 in E.
  rewrite <- E. apply Z.mod_pos_bound. lia.
Qed.

Lemma lor_inrange a m : inrange a -> inrange m -> inrange (Z.lor a m).
Proof.
  intros Ha Hm. unfold inrange.
  assert (E : Z.land (Z.lor a m) (Z.ones 8) = Z.lor a m).
  { rewrite Z.land_lor_distr_l, !Z.land_ones by lia. change (2 ^ 8) with 256.
    rewrite !Z.mod_small by assumption. reflexivity. }
  rewrite Z.land_ones in E by lia. change (2 ^ 8) with 256 in E.
  rewrite <- E. apply Z.mod_pos_bound. lia.
Qed.

Lemma land_cons8 x y b c :
  inrange b -> inrange c ->
  Z.land (x * 256 + b) (y * 256 + c) = Z.land x y * 256 + Z.land b c.
Proof.
  intros Hb Hc.
  rewrite (split8 (Z.land (x * 256 + b) (y * 256 + c))).
  rewrite Z.shiftr_land, !shiftr_high8 by assumption.
  f_equal.
  rewrite <- (land_low8 x b Hb) at 2. rewrite <- (land_low8 y c Hc) at 2.
  rewrite <- !Z.land_assoc. f_equal.
  rewrite (Z.land_comm (Z.ones 8)), <- Z.land_assoc, Z.land_diag. reflexivity.
Qed.

Lemma lor_cons8 x y b c :
  inrange b -> inrange c ->
  Z.lor (x * 256 + b) (y * 256 + c) = Z.lor x y * 256 + Z.lor b c.
Proof.
  intros Hb Hc.
  rewrite (split8 (Z.lor (x * 256 + b) (y * 256 + c))).
  rewrite Z.shiftr_lor, !shiftr_high8 by assumption.
  f_equal.
  rewrite Z.land_lor_distr_l, !land_low8 by assumption. reflexivity.
Qed.

Lemma val4_cons a b c d :
  val4 [a; b; c; d] = ((a * 256 + b) * 256 + c) * 256 + d.
Proof. unfold val4. pow2. lia. Qed.

Lemma val4_land ip m :
  is4 ip -> is4 m -> val4 (zip_with Z.land ip m) = Z.land (val4 ip) (val4 m).
Proof.
  intros H H'.
  destruct (is4_inv _ H) as (a & b & c & d & -> & Ha & Hb & Hc & Hd).
  destruct (is4_inv _ H') as (a' & b' & c' & d' & -> & Ha' & Hb' & Hc' & Hd').
  cbn [zip_with]. rewrite !val4_cons.
  rewrite !land_cons8 by assumption. reflexivity.
Qed.

Lemma val4_lor ip m :
  is4 ip -> is4 m -> val4 (zip_with Z.lor ip m) = Z.lor (val4 ip) (val4 m).
Proof.
  intros H H'.
  destruct (is4_inv _ H) as (a & b & c & d & -> & Ha & Hb & Hc & Hd).
  destruct (is4_inv _ H') as (a' & b' & c' & d' & -> & Ha' & Hb' & Hc' & Hd').
  cbn [zip_with]. rewrite !val4_cons.
  rewrite !lor_cons8 by assumption. reflexivity.
Qed.

Lemma zip_land_is4 ip m : is4 ip -> is4 m -> is4 (zip_with Z.land ip m).
Proof.
  intros H H'.
  destruct (is4_inv _ H) as (a & b & c & d & -> & Ha & Hb & Hc & Hd).
  destruct (is4_inv _ H') as (a' & b' & c' & d' & -> & _).
  split; [reflexivity|]. cbn [zip_with].
  forall_bytes; now apply land_inrange.
Qed.

Lemma lor_shift8 x y : inrange y -> Z.lor (Z.shiftl x 8) y = x * 256 + y.
Proof.
  intros Hy. rewrite Z.shiftl_mul_pow2 by lia. change (2 ^ 8) with 256.
  replace (x * 256) with (x * 256 + 0) at 1 by lia.
  replace y with (0 * 256 + y) at 1 by lia.
  rewrite lor_cons8; [|unfold inrange; lia|assumption].
  rewrite Z.lor_0_r, Z.lor_0_l. reflexivity.
Qed.

(** [ipToUint32] is [val4]. *)
Lemma ipToUint32_val4 ip : is4 ip -> ipToUint32 ip = val4 ip.
Proof.
  intros H. destruct (is4_inv _ H) as (a & b & c & d & -> & Ha & Hb & Hc & Hd).
  unfold ipToUint32. cbn [lookup list_lookup default from_option id].
  rewrite val4_cons.
  replace (Z.shiftl a 24) with (Z.shiftl (Z.shiftl a 8) 16)
    by (rewrite Z.shiftl_shiftl by lia; reflexivity).
  rewrite <- Z.shiftl_lor, lor_shift8 by assumption.
  replace (Z.shiftl (a * 256 + b) 16) with (Z.shiftl (Z.shiftl (a * 256 + b) 8) 8)
    by (rewrite Z.shiftl_shiftl by lia; reflexivity).
  rewrite <- Z.shiftl_lor, lor_shift8 by assumption.
  rewrite lor_shift8 by assumption. reflexivity.
Qed.

(** *** [inc] adds one modulo [2 ^ 32] *)

Lemma incByte_wrap d : inrange d -> d = 255 -> (d + 1) mod 256 = 0.
Proof. intros _ ->. reflexivity. Qed.

Lemma incByte_small d : inrange d -> d <> 255 -> (d + 1) mod 256 = d + 1.
Proof. unfold inrange. intros H N. apply Z.mod_small. lia. Qed.

Lemma inc_val4 ip :
  is4 ip -> is4 (inc ip) /\ val4 (inc ip) = (val4 ip + 1) mod 2 ^ 32.
Proof.
  intros H. destruct (is4_inv _ H) as (a & b & c & d & -> & Ha & Hb & Hc & Hd).
  unfold inc. cbn [rev app incFromLast].
  assert (R : forall x, inrange x -> x <> 255 -> inrange (x + 1))
    by (unfold inrange; lia).
  assert (Z0 : inrange 0) by (unfold inrange; lia).
  destruct (Z.eq_dec d 255) as [Ed|Nd];
    [rewrite (incByte_wrap d Hd Ed); cbn [Z.ltb Z.compare]
    |rewrite (incByte_small d Hd Nd);
     destruct (Z.ltb_spec 0 (d + 1)); [|unfold inrange in Hd; lia]].
  2:{ cbn [rev app]. split.
      - split; [reflexivity|]. forall_bytes; auto.
      - unfold val4, inrange in *. pow2. rewrite Z.mod_small; lia. }
  destruct (Z.eq_dec c 255) as [Ec|Nc];
    [rewrite (incByte_wrap c Hc Ec); cbn [Z.ltb Z.compare]
    |rewrite (incByte_small c Hc Nc);
     destruct (Z.ltb_spec 0 (c + 1)); [|unfold inrange in Hc; lia]].
  2:{ cbn [rev app]. split.
      - split; [reflexivity|]. forall_bytes; auto.
      - unfold val4, inrange in *. pow2. rewrite Z.mod_small; lia. }
  destruct (Z.eq_dec b 255) as [Eb|Nb];
    [rewrite (incByte_wrap b Hb Eb); cbn [Z.ltb Z.compare]
    |rewrite (incByte_small b Hb Nb);
     destruct (Z.ltb_spec 0 (b + 1)); [|unfold inrange in Hb; lia]].
  2:{ cbn [rev app]. split.
      - split; [reflexivity|]. forall_bytes; auto.
      - unfold val4, inrange in *. pow2. rewrite Z.mod_small; lia. }
  destruct (Z.eq_dec a 255) as [Ea|Na];
    [rewrite (incByte_wrap a Ha Ea); cbn [Z.ltb Z.compare]
    |rewrite (incByte_small a Ha Na);
     destruct (Z.ltb_spec 0 (a + 1)); [|unfold inrange in Ha; lia]].
  2:{ cbn [rev app]. split.
      - split; [reflexivity|]. forall_bytes; auto.
      - unfold val4, inrange in *. pow2. rewrite Z.mod_small; lia. }
  cbn [rev app]. subst. split.
  - split; [reflexivity|]. forall_bytes; auto.
  - reflexivity.
Qed.

Lemma inc_bytes4 v :
  0 <= v < 2 ^ 32 -> inc (bytes4 v) = bytes4 ((v + 1) mod 2 ^ 32).
Proof.
  intros Hv. destruct (inc_val4 (bytes4 v) (bytes4_is4 v)) as [I E].
  rewrite val4_bytes4 in E by assumption.
  rewrite <- E. symmetry. now apply bytes4_val4.
Qed.

(** *** The masks of [net.CIDRMask] for 32 bits *)

Definition inrangeb (b : Z) : bool := (0 <=? b) && (b <? 256).

Definition maskChecked (p : Z) : bool :=
  let m := CIDRMask p 32 in
  (length m =? 4)%nat && forallb inrangeb m
  && (val4 m =? 2 ^ 32 - 2 ^ (32 - p))
  && bool_decide (Size m = (p, 32))
  && (Z.land (Z.ones 32) (Z.lnot (Z.ones (32 - p))) =? 2 ^ 32 - 2 ^ (32 - p)).

Lemma masks_checked : forallb maskChecked (seqZ 0 33) = true.
Proof. vm_compute. reflexivity. Qed.

Lemma mask_checked p : 0 <= p <= 32 -> maskChecked p = true.
Proof.
  intros Hp. pose proof masks_checked as H.
  rewrite forallb_forall in H. apply H.
  apply list_elem_of_In, elem_of_seqZ. lia.
Qed.

Lemma CIDRMask_is4 p : 0 <= p <= 32 -> is4 (CIDRMask p 32).
Proof.
  intros Hp. pose proof (mask_checked p Hp) as H. unfold maskChecked in H.
  repeat (apply andb_prop in H; destruct H as [H ?]).
  split.
  - now apply Nat.eqb_eq.
  - apply Forall_forall. intros x Hx.
    match goal with F : forallb inrangeb _ = true |- _ =>
      rewrite forallb_forall in F; specialize (F x (proj1 (list_elem_of_In _ _) Hx)) end.
    unfold inrangeb, inrange in *. lia.
Qed.

Lemma CIDRMask_val4 p : 0 <= p <= 32 -> val4 (CIDRMask p 32) = 2 ^ 32 - 2 ^ (32 - p).
Proof.
  intros Hp. pose proof (mask_checked p Hp) as H. unfold maskChecked in H.
  repeat (apply andb_prop in H; destruct H as [H ?]). lia.
Qed.

Lemma CIDRMask_Size p : 0 <= p <= 32 -> Size (CIDRMask p 32) = (p, 32).
Proof.
  intros Hp. pose proof (mask_checked p Hp) as H. unfold maskChecked in H.
  repeat (apply andb_prop in H; destruct H as [H ?]).
  match goal with B : bool_decide _ = true |- _ => exact (bool_decide_eq_true_1 _ B) end.
Qed.

Lemma land_mask v p :
  0 <= v < 2 ^ 32 -> 0 <= p <= 32 ->
  Z.land v (2 ^ 32 - 2 ^ (32 - p)) = v / 2 ^ (32 - p) * 2 ^ (32 - p).
Proof.
  intros Hv Hp. pose proof (mask_checked p Hp) as H. unfold maskChecked in H.
  repeat (apply andb_prop in H; destruct H as [H ?]).
  match goal with E : (Z.land _ _ =? _) = true |- _ => apply Z.eqb_eq in E; rewrite <- E end.
  rewrite Z.land_assoc, (Z.land_ones v 32) by lia.
  rewrite (Z.mod_small v) by assumption.
  rewrite <- Z.ldiff_land, Z.ldiff_ones_r by lia.
  rewrite Z.shiftl_mul_pow2, Z.shiftr_div_pow2 by lia. reflexivity.
Qed.

(** *** The functions of [net] on four-byte addresses *)

Lemma is4_length ip : is4 ip -> length ip = 4%nat.
Proof. now intros [? _]. Qed.

Lemma To4_is4 ip : is4 ip -> To4 ip = Some ip.
Proof. intros H. unfold To4. now rewrite (is4_length _ H). Qed.

Lemma Mask_is4 ip m : is4 ip -> is4 m -> Mask ip m = Some (zip_with Z.land ip m).
Proof.
  intros H H'. unfold Mask. rewrite (is4_length _ H), (is4_length _ H').
  change (4 =? IPv6len)%nat with false. cbn [andb].
  rewrite andb_false_r. cbn [andb].
  rewrite (is4_length _ H), (is4_length _ H'). reflexivity.
Qed.

Lemma Contains_is4 nn m ip :
  is4 nn -> is4 m -> is4 ip ->
  Contains {| net_IP := nn; net_Mask := m |} ip
  = bool_decide (Z.land (val4 nn) (val4 m) = Z.land (val4 ip) (val4 m)).
Proof.
  intros Hn Hm Hi. unfold Contains, networkNumberAndMask. cbn [net_IP net_Mask].
  rewrite (To4_is4 _ Hn), (To4_is4 _ Hi).
  rewrite (is4_length _ Hn), (is4_length _ Hm).
  change (4 =? IPv4len)%nat with true. cbn iota.
  rewrite (is4_length _ Hn), (is4_length _ Hi).
  change (4 =? 4)%nat with true. cbn iota.
  apply bool_decide_ext. rewrite <- !val4_land by assumption. split.
  - now intros ->.
  - apply val4_inj; now apply zip_land_is4.
Qed.

Lemma IsUnspecified_bytes4 v :
  0 <= v < 2 ^ 32 -> IsUnspecified (bytes4 v) = (v =? 0).
Proof.
  intros Hv. unfold IsUnspecified, Equal. cbn [length bytes4 Nat.eqb IPv4len IPv6len andb].
  change (IPv4zero) with (v4InV6Prefix ++ bytes4 0).
  change (take 12 (v4InV6Prefix ++ bytes4 0)) with v4InV6Prefix.
  change (drop 12 (v4InV6Prefix ++ bytes4 0)) with (bytes4 0).
  change (bytesEqual (take 12 IPv6unspecified) v4InV6Prefix) with false.
  change (bytesEqual v4InV6Prefix v4InV6Prefix) with true.
  cbn [andb orb]. rewrite orb_false_r. unfold bytesEqual.
  destruct (Z.eqb_spec v 0) as [->|N].
  - now apply bool_decide_eq_true_2.
  - apply bool_decide_eq_false_2. intros E. apply N.
    apply bytes4_inj; [assumption|lia|assumption].
Qed.

Lemma div_block v q d : 0 < d -> (v / d * d = q * d <-> q * d <= v < q * d + d).
Proof.
  intros Hd. pose proof (Z.div_mod v d ltac:(lia)) as E.
  pose proof (Z.mod_pos_bound v d Hd) as B. split; intros H; [nia|].
  assert (v / d = q) by nia. now subst.
Qed.

(** *** One IPv4 block: the network of address [f] with prefix length [p] *)

Section Block.

Variable f : list Z.
Variable p : Z.
Hypothesis f_is4 : is4 f.
Hypothesis p_range : 0 <= p <= 32.

(** The number of host bits, the size of the block and its first address. *)
Definition hostBits : Z := 32 - p.
Definition blockSize : Z := 2 ^ hostBits.
Definition network : Z := val4 f / blockSize * blockSize.

(** The [*IPNet] [net.ParseCIDR] builds for the address and the prefix. *)
Definition ipNetOf : IPNet :=
  {| net_IP := zip_with Z.land f (CIDRMask p 32); net_Mask := CIDRMask p 32 |}.

Lemma blockSize_pos : 0 < blockSize.
Proof. unfold blockSize, hostBits. apply Z.pow_pos_nonneg; lia. Qed.

Lemma blockSize_le : blockSize <= 2 ^ 32.
Proof. unfold blockSize, hostBits. apply Z.pow_le_mono_r; lia. Qed.

Lemma blockSize_divides : 2 ^ 32 = 2 ^ p * blockSize.
Proof.
  unfold blockSize, hostBits. rewrite <- Z.pow_add_r by lia. f_equal. lia.
Qed.

Lemma network_range : 0 <= network /\ network + blockSize <= 2 ^ 32.
Proof.
  pose proof blockSize_pos as Hd. pose proof (val4_range f f_is4) as Hv.
  pose proof blockSize_divides as E. unfold network.
  pose proof (Z.div_mod (val4 f) blockSize ltac:(lia)) as D.
  pose proof (Z.mod_pos_bound (val4 f) blockSize Hd) as B.
  assert (0 <= val4 f / blockSize) by (apply Z.div_pos; lia).
  assert (val4 f / blockSize < 2 ^ p).
  { apply Z.div_lt_upper_bound; lia. }
  nia.
Qed.

Lemma network_land : Z.land (val4 f) (val4 (CIDRMask p 32)) = network.
Proof.
  rewrite CIDRMask_val4 by assumption.
  rewrite land_mask by (auto using val4_range). reflexivity.
Qed.

Lemma net_IP_bytes4 : net_IP ipNetOf = bytes4 network.
Proof.
  cbn [ipNetOf net_IP]. rewrite <- network_land, <- val4_land by auto using CIDRMask_is4.
  symmetry. apply bytes4_val4. apply zip_land_is4; auto using CIDRMask_is4.
Qed.

Lemma ipNetOf_eq :
  ipNetOf = {| net_IP := bytes4 network; net_Mask := CIDRMask p 32 |}.
Proof. unfold ipNetOf. f_equal. exact net_IP_bytes4. Qed.

Lemma start_bytes4 :
  default [] (Mask (net_IP ipNetOf) (net_Mask ipNetOf)) = bytes4 network.
Proof.
  rewrite ipNetOf_eq. cbn [net_IP net_Mask].
  rewrite Mask_is4 by auto using bytes4_is4, CIDRMask_is4. cbn [default from_option id].
  apply val4_inj; [apply zip_land_is4; auto using bytes4_is4, CIDRMask_is4
                  |apply bytes4_is4|].
  pose proof network_range. pose proof blockSize_pos.
  rewrite val4_land, !val4_bytes4 by (auto using bytes4_is4, CIDRMask_is4; lia).
  rewrite <- network_land at 1. rewrite <- Z.land_assoc, Z.land_diag.
  apply network_land.
Qed.

Lemma Contains_bytes4 v :
  0 <= v < 2 ^ 32 ->
  Contains ipNetOf (bytes4 v) = (network <=? v) && (v <? network + blockSize).
Proof.
  intros Hv. rewrite ipNetOf_eq.
  rewrite Contains_is4 by auto using bytes4_is4, CIDRMask_is4.
  pose proof network_range as Hn. pose proof blockSize_pos as Hd.
  rewrite !val4_bytes4 by lia.
  rewrite CIDRMask_val4 by assumption.
  rewrite !land_mask by (assumption || lia).
  fold hostBits. fold blockSize.
  assert (E : network / blockSize * blockSize = network).
  { unfold network. rewrite Z.div_mul by lia. reflexivity. }
  rewrite E. unfold network at 1.
  destruct (Z.leb_spec network v), (Z.ltb_spec v (network + blockSize)); cbn [andb].
  - apply bool_decide_eq_true_2. symmetry. apply div_block; [assumption|].
    fold network. lia.
  - apply bool_decide_eq_false_2. intros Q. symmetry in Q.
    apply div_block in Q; [|assumption]. fold network in Q. lia.
  - apply bool_decide_eq_false_2. intros Q. symmetry in Q.
    apply div_block in Q; [|assumption]. fold network in Q. lia.
  - apply bool_decide_eq_false_2. intros Q. symmetry in Q.
    apply div_block in Q; [|assumption]. fold network in Q. lia.
Qed.

(** The loop of [parseCIDR] walks the block from [network + j] on and
    stops after its last address, provided the prefix is not empty. *)
Lemma cidrLoop_block (r : nat) :
  1 <= p ->
  forall j acc fuel,
    Z.of_nat r = blockSize - j -> 0 <= j -> (r < fuel)%nat ->
    cidrLoop fuel ipNetOf (bytes4 ((network + j) mod 2 ^ 32)) acc
    = Some (acc ++ map bytes4 (seqZ (network + j) (blockSize - j))).
Proof.
  intros Hp1. pose proof network_range as Hn. pose proof blockSize_pos as Hd.
  assert (Hhalf : blockSize <= 2 ^ 31).
  { unfold blockSize, hostBits. apply Z.pow_le_mono_r; lia. }
  induction r as [|r IH]; intros j acc fuel Hr Hj Hfuel.
  - destruct fuel as [|fuel]; [lia|]. cbn [cidrLoop].
    assert (Ej : j = blockSize) by lia. subst j.
    rewrite Contains_bytes4 by (apply Z.mod_pos_bound; lia).
    replace (blockSize - blockSize) with 0 by lia.
    rewrite seqZ_nil by lia. cbn [map]. rewrite app_nil_r.
    destruct (Z.eq_dec (network + blockSize) (2 ^ 32)) as [E|N].
    + rewrite E, Z.mod_same by lia.
      destruct (Z.leb_spec network 0); [change (2 ^ 31) with 2147483648 in *; pow2; lia|].
      reflexivity.
    + rewrite Z.mod_small by lia.
      destruct (Z.ltb_spec (network + blockSize) (network + blockSize)); [lia|].
      now rewrite andb_false_r.
  - destruct fuel as [|fuel]; [lia|]. cbn [cidrLoop].
    rewrite (Z.mod_small (network + j)) by lia.
    rewrite Contains_bytes4 by lia.
    destruct (Z.leb_spec network (network + j)); [|lia].
    destruct (Z.ltb_spec (network + j) (network + blockSize)); [|lia].
    cbn [andb]. unfold duplicateIP.
    rewrite inc_bytes4 by lia.
    replace (network + j + 1) with (network + (j + 1)) by lia.
    rewrite IH by lia.
    rewrite (seqZ_cons (network + j)) by lia. cbn [map].
    rewrite <- app_assoc. cbn [app].
    replace (Z.succ (network + j)) with (network + (j + 1)) by lia.
    replace (Z.pred (blockSize - j)) with (blockSize - (j + 1)) by lia.
    reflexivity.
Qed.

(** With the empty prefix every address is in the network and the counter
    wraps around: the loop never ends. *)
Lemma cidrLoop_everything :
  p = 0 ->
  forall fuel v acc,
    0 <= v < 2 ^ 32 -> cidrLoop fuel ipNetOf (bytes4 v) acc = None.
Proof.
  intros Hp0. pose proof network_range as Hn. pose proof blockSize_pos as Hd.
  assert (Eb : blockSize = 2 ^ 32) by (unfold blockSize, hostBits; rewrite Hp0; reflexivity).
  induction fuel as [|fuel IH]; intros v acc Hv; [reflexivity|].
  cbn [cidrLoop]. rewrite Contains_bytes4 by assumption.
  destruct (Z.leb_spec network v); [|lia].
  destruct (Z.ltb_spec v (network + blockSize)); [|lia].
  cbn [andb]. rewrite inc_bytes4 by assumption.
  apply IH. apply Z.mod_pos_bound. lia.
Qed.

Lemma broadcast_bytes4 : broadcastOf ipNetOf = bytes4 (network + blockSize - 1).
Proof.
  unfold broadcastOf. rewrite ipNetOf_eq. cbn [net_IP net_Mask].
  pose proof network_range as Hn. pose proof blockSize_pos as Hd.
  pose proof (CIDRMask_is4 p p_range) as Hm.
  pose proof (CIDRMask_val4 p p_range) as Vm. fold hostBits in Vm. fold blockSize in Vm.
  destruct (is4_inv _ Hm) as (a & b & c & d & Em & Ha & Hb & Hc & Hd').
  rewrite Em in *.
  assert (Hc4 : is4 [255 - a; 255 - b; 255 - c; 255 - d]).
  { split; [reflexivity|]. unfold inrange in *. forall_bytes; lia. }
  assert (Vc : val4 [255 - a; 255 - b; 255 - c; 255 - d] = blockSize - 1).
  { unfold val4 in *. pow2. lia. }
  transitivity (zip_with Z.lor (bytes4 network) [255 - a; 255 - b; 255 - c; 255 - d]);
    [reflexivity|].
  assert (His : is4 (zip_with Z.lor (bytes4 network) [255 - a; 255 - b; 255 - c; 255 - d])).
  { split; [reflexivity|]. cbn [bytes4 zip_with].
    destruct Hc4 as [_ Hc4].
    repeat match goal with H : Forall _ (_ :: _) |- _ => inversion H; subst; clear H end.
    forall_bytes; (apply lor_inrange; [apply Z.mod_pos_bound; lia|assumption]). }
  apply val4_inj; [assumption|apply bytes4_is4|].
  rewrite val4_lor, Vc, !val4_bytes4 by (auto using bytes4_is4; lia).
  rewrite <- Z.add_sub_assoc. symmetry. apply Z.add_nocarry_lor.
  replace (blockSize - 1) with (Z.ones hostBits)
    by (rewrite Z.ones_equiv; unfold blockSize; lia).
  rewrite Z.land_ones by (unfold hostBits; lia). fold blockSize.
  unfold network. apply Z.mod_mul. lia.
Qed.

Lemma isBroadcast_bytes4 v :
  0 <= v < 2 ^ 32 ->
  isBroadcast (bytes4 v) ipNetOf = (p <? 32) && (v =? network + blockSize - 1).
Proof.
  intros Hv. pose proof network_range as Hn. pose proof blockSize_pos as Hd.
  unfold isBroadcast. cbn [length bytes4 Nat.eqb IPv4len negb].
  replace (net_Mask ipNetOf) with (CIDRMask p 32) by reflexivity.
  rewrite CIDRMask_Size by assumption.
  destruct (Z.eqb_spec p 32) as [E|N].
  - destruct (Z.ltb_spec p 32); [lia|]. reflexivity.
  - destruct (Z.ltb_spec p 32); [|lia]. cbn [andb].
    rewrite broadcast_bytes4. unfold Equal.
    cbn [length bytes4 Nat.eqb]. unfold bytesEqual.
    destruct (Z.eqb_spec v (network + blockSize - 1)) as [->|Nv].
    + now apply bool_decide_eq_true_2.
    + apply bool_decide_eq_false_2. intros Q. apply Nv.
      apply bytes4_inj; [assumption|lia|assumption].
Qed.

(** What [parseCIDR] keeps of the block: its addresses in ascending order,
    without the first when that is 0.0.0.0 and without the last when the
    prefix is shorter than 32 bits. *)
Definition skipFirst : Z := if network =? 0 then 1 else 0.
Definition skipLast : Z := if p <? 32 then 1 else 0.
Definition kept : list Z :=
  seqZ (network + skipFirst) (blockSize - skipFirst - skipLast).

Lemma dropUnspecified_seq n c :
  0 <= n -> n + c <= 2 ^ 32 ->
  dropUnspecified (map bytes4 (seqZ n c))
  = map bytes4 (seqZ (n + (if n =? 0 then 1 else 0)) (c - (if n =? 0 then 1 else 0))).
Proof.
  intros Hn Hc. destruct (Z.le_gt_cases c 0) as [Le|Gt].
  - rewrite !seqZ_nil by (destruct (n =? 0); lia). reflexivity.
  - rewrite (seqZ_cons n c) by lia. cbn [map dropUnspecified].
    rewrite IsUnspecified_bytes4 by lia.
    destruct (Z.eqb_spec n 0) as [->|N].
    + replace (c - 1) with (Z.pred c) by lia. reflexivity.
    + rewrite Z.add_0_r, Z.sub_0_r, (seqZ_cons n c) by lia. reflexivity.
Qed.

Lemma seqZ_snoc a c : 0 < c -> seqZ a c = seqZ a (c - 1) ++ [a + c - 1].
Proof.
  intros Hc. replace c with ((c - 1) + 1) at 1 by lia.
  rewrite seqZ_app by lia. f_equal.
  rewrite seqZ_cons, seqZ_nil by lia. f_equal. lia.
Qed.

Lemma dropBroadcast_snoc ipNet l x :
  dropBroadcast ipNet (l ++ [x]) = if isBroadcast x ipNet then l else l ++ [x].
Proof.
  unfold dropBroadcast. rewrite last_snoc.
  destruct (isBroadcast x ipNet); [|reflexivity].
  rewrite length_app. cbn [length].
  replace (length l + 1 - 1)%nat with (length l) by lia.
  apply take_app_length.
Qed.

Lemma dropBroadcast_seq a c :
  0 <= a -> a + c <= 2 ^ 32 ->
  dropBroadcast ipNetOf (map bytes4 (seqZ a c))
  = map bytes4
      (seqZ a (c - (if (p <? 32) && (a + c =? network + blockSize) && (0 <? c)
                    then 1 else 0))).
Proof.
  intros Ha Hc. destruct (Z.le_gt_cases c 0) as [Le|Gt].
  - destruct (Z.ltb_spec 0 c); [lia|]. rewrite !andb_false_r, Z.sub_0_r.
    rewrite seqZ_nil by lia. reflexivity.
  - destruct (Z.ltb_spec 0 c); [|lia]. rewrite andb_true_r.
    rewrite (seqZ_snoc a c) at 1 by lia.
    rewrite map_app. cbn [map]. rewrite dropBroadcast_snoc.
    rewrite isBroadcast_bytes4 by lia.
    destruct (p <? 32); cbn [andb];
      [|now rewrite Z.sub_0_r, (seqZ_snoc a c), map_app by lia].
    destruct (Z.eqb_spec (a + c - 1) (network + blockSize - 1)) as [E|N].
    + destruct (Z.eqb_spec (a + c) (network + blockSize)); [|lia]. reflexivity.
    + destruct (Z.eqb_spec (a + c) (network + blockSize)); [lia|].
      rewrite Z.sub_0_r, (seqZ_snoc a c) by lia. now rewrite map_app.
Qed.

Lemma expandNet_block fuel :
  1 <= p -> (Z.to_nat blockSize < fuel)%nat ->
  expandNet fuel ipNetOf = Some (map bytes4 kept).
Proof.
  intros Hp1 Hfuel. pose proof network_range as Hn. pose proof blockSize_pos as Hd.
  unfold expandNet. rewrite start_bytes4.
  replace network with ((network + 0) mod 2 ^ 32) at 1
    by (rewrite Z.add_0_r; apply Z.mod_small; lia).
  rewrite (cidrLoop_block (Z.to_nat blockSize)) by lia.
  cbn [app]. rewrite Z.add_0_r, Z.sub_0_r.
  rewrite dropUnspecified_seq by lia. fold skipFirst.
  assert (Hs : 0 <= skipFirst <= 1) by (unfold skipFirst; destruct (network =? 0); lia).
  rewrite dropBroadcast_seq by lia.
  unfold kept. do 3 f_equal.
  destruct (Z.eqb_spec (network + skipFirst + (blockSize - skipFirst))
                       (network + blockSize)); [|lia].
  rewrite andb_true_r. unfold skipLast.
  destruct (Z.ltb_spec p 32); cbn [andb]; [|lia].
  assert (2 <= blockSize).
  { unfold blockSize, hostBits. change 2 with (2 ^ 1) at 1.
    apply Z.pow_le_mono_r; lia. }
  destruct (Z.ltb_spec 0 (blockSize - skipFirst)); lia.
Qed.

Lemma expandNet_everything fuel : p = 0 -> expandNet fuel ipNetOf = None.
Proof.
  intros Hp0. pose proof network_range as Hn. pose proof blockSize_pos as Hd.
  unfold expandNet. rewrite start_bytes4.
  rewrite cidrLoop_everything by (assumption || lia). reflexivity.
Qed.

End Block.

(** *** From the text of a CIDR block to its network *)

Lemma parseIPv4Fields_is4 s :
  forall first prevdot val digLen fields r,
    0 <= val <= 255 -> Forall inrange fields -> (length fields <= 3)%nat ->
    parseIPv4Fields s first prevdot val digLen fields = Some r -> is4 r.
Proof.
  induction s as [|c t IH]; intros first prevdot val digLen fields r Hv Hf Hl; cbn [parseIPv4Fields].
  - destruct (Nat.ltb_spec (length fields) 3); [discriminate|].
    intros [= <-]. split.
    + rewrite length_app. cbn [length]. lia.
    + apply Forall_app. split; [assumption|]. forall_bytes. unfold inrange. lia.
  - destruct (GoStrings.is_digit c) eqn:Hd.
    + destruct ((digLen =? 1)%nat && (val =? 0)); [discriminate|].
      destruct (Z.ltb_spec 255 (val * 10 + GoStrings.digit c)); [discriminate|].
      apply IH; try assumption.
      unfold GoStrings.is_digit, GoStrings.digit in *. lia.
    + destruct (Ascii.eqb c "."); [|discriminate].
      destruct (first || bool_decide (t = EmptyString) || prevdot); [discriminate|].
      destruct (Nat.eqb_spec (length fields) 3); [discriminate|].
      apply IH.
      * lia.
      * apply Forall_app. split; [assumption|]. forall_bytes. unfold inrange. lia.
      * rewrite length_app. cbn [length]. lia.
Qed.

Lemma parseIPv4_is4 s r : parseIPv4 s = Some r -> is4 r.
Proof.
  unfold parseIPv4. apply parseIPv4Fields_is4; [lia|constructor|cbn; lia].
Qed.

Lemma cut_Contains s sep a b :
  cut s sep = Some (a, b) -> GoStrings.Contains s sep = true.
Proof.
  revert a b. induction s as [|c t IH]; intros a b; cbn [cut GoStrings.Contains];
    [discriminate|].
  destruct (Ascii.eqb c sep); [reflexivity|].
  destruct (cut t sep) as [[a' b']|]; [|discriminate].
  intros _. exact (IH a' b' eq_refl).
Qed.

Lemma ParseCIDR_Contains s ipNet :
  ParseCIDR s = Ok ipNet -> GoStrings.Contains s "/" = true.
Proof.
  unfold ParseCIDR. destruct (cut s "/") as [[a b]|] eqn:E; [|discriminate].
  intros _. exact (cut_Contains _ _ _ _ E).
Qed.

Lemma length_cidrMaskBytes l n : length (cidrMaskBytes l n) = l.
Proof.
  revert n. induction l as [|l IH]; intros n; cbn [cidrMaskBytes]; [reflexivity|].
  destruct (8 <=? n); cbn [length]; now rewrite IH.
Qed.

Lemma Size_bits m ones bits :
  Size m = (ones, bits) -> bits = 32 -> length m = 4%nat.
Proof.
  unfold Size. destruct (simpleMaskLength m 0 =? -1); intros [= <- <-]; lia.
Qed.

(** A block that parses with a 32-bit mask is the block of a four-byte
    address [f] and of the prefix length the mask has. *)
Lemma ParseCIDR_v4 s ipNet p :
  ParseCIDR s = Ok ipNet -> Size (net_Mask ipNet) = (p, 32) ->
  exists f, is4 f /\ 0 <= p <= 32 /\ ipNet = ipNetOf f p.
Proof.
  unfold ParseCIDR. destruct (cut s "/") as [[addr mask]|]; [|discriminate].
  destruct (familyOf addr).
  - destruct (parseIPv4 addr) as [f|] eqn:Ef; [|discriminate].
    destruct (dtoi mask 0 0) as [[n i] ok].
    destruct (negb ok || negb (i =? String.length mask)%nat || (n <? 0) || (32 <? n)) eqn:G;
      [discriminate|].
    assert (Hn : 0 <= n <= 32).
    { destruct (Z.ltb_spec n 0), (Z.ltb_spec 32 n);
        rewrite ?orb_true_r in G; try discriminate; lia. }
    pose proof (parseIPv4_is4 _ _ Ef) as Hf.
    pose proof (CIDRMask_is4 n Hn) as Hm.
    assert (EM : Mask (v4InV6Prefix ++ f) (CIDRMask n 32)
                 = Some (zip_with Z.land f (CIDRMask n 32))).
    { unfold Mask. rewrite (is4_length _ Hm), length_app, (is4_length _ Hf).
      cbn [length v4InV6Prefix Nat.add Nat.eqb IPv4len IPv6len andb].
      change (take 12 (v4InV6Prefix ++ f)) with v4InV6Prefix.
      change (bytesEqual v4InV6Prefix v4InV6Prefix) with true. cbn iota.
      change (drop 12 (v4InV6Prefix ++ f)) with f.
      rewrite (is4_length _ Hm). cbn [Nat.eqb IPv4len andb].
      now rewrite (is4_length _ Hf). }
    rewrite EM. intros [= <-]. cbn [net_Mask].
    rewrite CIDRMask_Size by assumption. intros [= <-].
    exists f. auto.
  - destruct (parseIPv6 addr) as [ip|]; [|discriminate].
    destruct (dtoi mask 0 0) as [[n i] ok].
    destruct (negb ok || negb (i =? String.length mask)%nat || (n <? 0) || (128 <? n));
      [discriminate|].
    intros E S. exfalso.
    assert (L : length (net_Mask ipNet) = 16%nat).
    { destruct (Mask ip (CIDRMask n 128)); injection E as <-; cbn [net_Mask];
        unfold CIDRMask; now rewrite length_cidrMaskBytes. }
    pose proof (Size_bits _ _ _ S eq_refl). lia.
  - discriminate.
Qed.

(** The addresses [parseCIDR] returns for the IPv4 network [n] with prefix
    length [p], as numbers. *)
Definition hosts (n p : Z) : list Z :=
  seqZ (n + (if n =? 0 then 1 else 0))
       (2 ^ (32 - p) - (if n =? 0 then 1 else 0) - (if p <? 32 then 1 else 0)).

Lemma kept_hosts f p : kept f p = hosts (network f p) p.
Proof. reflexivity. Qed.

Lemma ParseCIDR_v4_facts s ipNet p :
  ParseCIDR s = Ok ipNet -> Size (net_Mask ipNet) = (p, 32) ->
  let n := val4 (net_IP ipNet) in
  0 <= p <= 32 /\ 0 <= n /\ n + 2 ^ (32 - p) <= 2 ^ 32
  /\ net_IP ipNet = bytes4 n
  /\ broadcastOf ipNet = bytes4 (n + 2 ^ (32 - p) - 1)
  /\ (forall fuel, 1 <= p -> (Z.to_nat (2 ^ (32 - p)) < fuel)%nat ->
        expandNet fuel ipNet = Some (map bytes4 (hosts n p)))
  /\ (forall fuel, p = 0 -> expandNet fuel ipNet = None).
Proof.
  intros HP HS. destruct (ParseCIDR_v4 _ _ _ HP HS) as (f & Hf & Hp & ->).
  pose proof (network_range f p Hf Hp) as Hn.
  pose proof (blockSize_pos p Hp) as Hd.
  assert (En : val4 (net_IP (ipNetOf f p)) = network f p).
  { rewrite net_IP_bytes4 by assumption. apply val4_bytes4.
    unfold blockSize, hostBits in *. lia. }
  cbn zeta. rewrite En. unfold blockSize, hostBits in *.
  repeat split; try lia.
  - now apply net_IP_bytes4.
  - now apply broadcast_bytes4.
  - intros fuel Hp1 Hfuel. rewrite <- kept_hosts. now apply expandNet_block.
  - intros fuel Hp0. now apply expandNet_everything.
Qed.

Lemma ParseIPRange_cidr s ipNet fuel :
  ParseCIDR (GoStrings.TrimSpace s) = Ok ipNet ->
  ParseIPRange fuel s
  = match expandNet fuel ipNet with
    | Some ips => Some (Ok {| IPs := ips |})
    | None => None
    end.
Proof.
  intros HP. unfold ParseIPRange.
  rewrite (ParseCIDR_Contains _ _ HP). unfold parseCIDR. now rewrite HP.
Qed.




End IPv4.

(** ** The expander: CIDR blocks *)

Module CIDRClaims.
Import GoStrings Net IPRange IPv4.

(** C1, as amended.  For every IPv4 CIDR spec with a prefix length of at
    least 1, [ParseIPRange] returns the addresses of the block in ascending
    numeric order, without the first address exactly when that address is
    0.0.0.0 and without the last (broadcast) address exactly when the prefix
    length is less than 32: the addresses [hosts n p] of the network [n]. *)
Theorem cidr_expansion_v4 (s : string) (ipNet : IPNet) (p : Z) (fuel : nat) :
  ParseCIDR (TrimSpace s) = Ok ipNet ->
  Size (net_Mask ipNet) = (p, 32) ->
  1 <= p ->
  (Z.to_nat (2 ^ (32 - p)) < fuel)%nat ->
  ParseIPRange fuel s
  = Some (Ok {| IPs := map bytes4 (hosts (val4 (net_IP ipNet)) p) |}).
Proof.
  intros HP HS Hp Hfuel.
  destruct (ParseCIDR_v4_facts _ _ _ HP HS) as (_ & _ & _ & _ & _ & Hrun & _).
  rewrite (ParseIPRange_cidr _ _ _ HP), (Hrun fuel Hp Hfuel). reflexivity.
Qed.

Lemma cidr_expansion_v4_witness :
  let ipNet := {| net_IP := [192; 168; 1; 0]; net_Mask := [255; 255; 255; 0] |} in
  ParseCIDR (TrimSpace "192.168.1.0/24") = Ok ipNet
  /\ Size (net_Mask ipNet) = (24, 32)
  /\ 1 <= 24
  /\ (Z.to_nat (2 ^ (32 - 24)) < 257)%nat
  /\ ParseIPRange 257 "192.168.1.0/24"
     = Some (Ok {| IPs := map bytes4 (hosts (val4 (net_IP ipNet)) 24) |}).
Proof.
  intros ipNet.
  assert (H1 : ParseCIDR (TrimSpace "192.168.1.0/24") = Ok ipNet) by reflexivity.
  assert (H2 : Size (net_Mask ipNet) = (24, 32)) by reflexivity.
  assert (H3 : 1 <= 24) by lia.
  assert (H4 : (Z.to_nat (2 ^ (32 - 24)) < 257)%nat) by (vm_compute; lia).
  refine (conj H1 (conj H2 (conj H3 (conj H4 _)))).
  exact (cidr_expansion_v4 "192.168.1.0/24" ipNet 24 257 H1 H2 H3 H4).
Defined.

(** C1 as stated fails: 192.168.1.0/24 expands to 255 addresses, the
    network address 192.168.1.0 first; a /30 keeps three addresses and a
    /31 one. *)
Lemma cidr_24_has_255_addresses :
  (exists r, ParseIPRange 257 "192.168.1.0/24" = Some (Ok r)
             /\ Count r = 255 /\ Count r <> 254
             /\ head (GetIPs r) = Some "192.168.1.0"%string)
  /\ shown (ParseIPRange 5 "10.0.0.0/30")
     = Some (Ok ["10.0.0.0"; "10.0.0.1"; "10.0.0.2"]%string)
  /\ shown (ParseIPRange 3 "10.0.0.0/31") = Some (Ok ["10.0.0.0"%string]).
Proof.
  split; [|split; vm_compute; reflexivity].
  destruct (ParseIPRange 257 "192.168.1.0/24") as [[r|e]|] eqn:E;
    [|vm_compute in E; discriminate..].
  exists r. split; [reflexivity|].
  assert (Er : Some (@Ok IPRange r) = ParseIPRange 257 "192.168.1.0/24") by now rewrite E.
  vm_compute in Er. injection Er as ->.
  split; [vm_compute; reflexivity|]. split; [vm_compute; discriminate|].
  vm_compute. reflexivity.
Qed.



(** The empty prefix is outside both statements: the loop of [parseCIDR]
    on 0.0.0.0/0 finds every address in the network and never ends. *)
Lemma cidr_slash0_never_returns fuel : ParseIPRange fuel "0.0.0.0/0" = None.
Proof.
  assert (HP : ParseCIDR (TrimSpace "0.0.0.0/0")
               = Ok {| net_IP := [0; 0; 0; 0]; net_Mask := [0; 0; 0; 0] |})
    by reflexivity.
  destruct (ParseCIDR_v4_facts _ _ 0 HP eq_refl) as (_ & _ & _ & _ & _ & _ & Hnone).
  rewrite (ParseIPRange_cidr _ _ _ HP), (Hnone fuel eq_refl). reflexivity.
Qed.

End CIDRClaims.

(** ** The expander: inclusive ranges and single addresses *)

Module RangeFacts.
Import GoStrings Net IPRange IPv4.

(** The loop of [parseRange] returns the addresses from [i] to [e] when
    [e] is below the largest 32-bit number. *)
Lemma rangeLoop_below_max (r : nat) :
  forall i e acc fuel,
    0 <= i -> e < 2 ^ 32 - 1 -> Z.of_nat r = e + 1 - i -> (r < fuel)%nat ->
    rangeLoop fuel i e acc = Some (acc ++ map uint32ToIP (seqZ i (e + 1 - i))).
Proof.
  induction r as [|r IH]; intros i e acc fuel Hi He Hr Hfuel.
  - destruct fuel as [|fuel]; [lia|]. cbn [rangeLoop].
    destruct (Z.leb_spec i e); [lia|].
    rewrite seqZ_nil by lia. cbn [map]. now rewrite app_nil_r.
  - destruct fuel as [|fuel]; [lia|]. cbn [rangeLoop].
    destruct (Z.leb_spec i e); [|lia].
    rewrite Z.mod_small by lia. rewrite IH by lia.
    rewrite (seqZ_cons i) by lia. cbn [map]. rewrite <- app_assoc. cbn [app].
    replace (Z.succ i) with (i + 1) by lia.
    replace (Z.pred (e + 1 - i)) with (e + 1 - (i + 1)) by lia. reflexivity.
Qed.

(** When the end of the range is the largest 32-bit number the condition
    [i <= endInt] holds for every [i] and [i++] wraps to zero: the loop runs
    out of any fuel. *)
Lemma rangeLoop_to_max fuel :
  forall i acc, 0 <= i < 2 ^ 32 -> rangeLoop fuel i (2 ^ 32 - 1) acc = None.
Proof.
  induction fuel as [|fuel IH]; intros i acc Hi; [reflexivity|].
  cbn [rangeLoop]. destruct (Z.leb_spec i (2 ^ 32 - 1)); [|lia].
  apply IH. apply Z.mod_pos_bound. lia.
Qed.

Lemma Contains_false_Split s sep : GoStrings.Contains s sep = false -> Split s sep = [s].
Proof.
  induction s as [|c t IH]; cbn [GoStrings.Contains Split]; [reflexivity|].
  destruct (Ascii.eqb c sep); [discriminate|].
  intros H. now rewrite (IH H).
Qed.

Lemma Split_two_Contains s sep p0 p1 :
  Split s sep = [p0; p1] -> GoStrings.Contains s sep = true.
Proof.
  intros H. destruct (GoStrings.Contains s sep) eqn:E; [reflexivity|].
  rewrite (Contains_false_Split _ _ E) in H. discriminate.
Qed.

(** [ParseIPRange] on a text that is a range of two parseable IPv4
    addresses. *)
Lemma ParseIPRange_range fuel s p0 p1 a b a4 b4 :
  GoStrings.Contains (TrimSpace s) "/" = false ->
  Split (TrimSpace s) "-" = [p0; p1] ->
  ParseIP (TrimSpace p0) = Some a -> ParseIP (TrimSpace p1) = Some b ->
  To4 a = Some a4 -> To4 b = Some b4 ->
  ParseIPRange fuel s
  = if ipToUint32 b4 <? ipToUint32 a4
    then Some (Err "start IP must be less than or equal to end IP")
    else match rangeLoop fuel (ipToUint32 a4) (ipToUint32 b4) [] with
         | None => None
         | Some ips => Some (Ok {| IPs := ips |})
         end.
Proof.
  intros Hs Hsplit Ha Hb Ha4 Hb4. unfold ParseIPRange.
  rewrite Hs, (Split_two_Contains _ _ _ _ Hsplit). unfold parseRange.
  now rewrite Hsplit, Ha, Hb, Ha4, Hb4.
Qed.

Lemma To4_length ip ip4 : To4 ip = Some ip4 -> length ip4 = 4%nat.
Proof.
  unfold To4. destruct (Nat.eqb_spec (length ip) IPv4len) as [E|N].
  - now intros [= <-].
  - destruct (Nat.eqb_spec (length ip) IPv6len) as [E6|]; [|discriminate].
    destruct (_ && _); [|discriminate]. intros [= <-].
    rewrite length_drop, E6. reflexivity.
Qed.

(** [net.ParseIP] returns sixteen bytes, each below 256, for an address in
    dotted form. *)
Lemma ParseIP_v4_To4 s ip ip4 :
  familyOf s = FamV4 -> ParseIP s = Some ip -> To4 ip = Some ip4 -> is4 ip4.
Proof.
  unfold ParseIP. intros ->. destruct (parseIPv4 s) as [f|] eqn:E; [|discriminate].
  intros [= <-]. pose proof (parseIPv4_is4 _ _ E) as Hf.
  destruct (is4_inv _ Hf) as (a & b & c & d & -> & _).
  cbn. now intros [= <-].
Qed.

End RangeFacts.

Module RangeClaims.
Import GoStrings Net IPRange IPv4 RangeFacts.

(** C4: the claim holds of ranges that end below 255.255.255.255, and the
    code breaks it at that address.  For every start address the walk to
    255.255.255.255 never returns: whatever the fuel, [ParseIPRange] runs
    out of it. *)
Theorem range_to_max_address_never_returns (fuel : nat) :
  ParseIPRange fuel "255.255.255.250-255.255.255.255" = None.
Proof.
  rewrite (ParseIPRange_range fuel _ "255.255.255.250" "255.255.255.255"
             (IPv4 255 255 255 250) (IPv4 255 255 255 255)
             [255; 255; 255; 250] [255; 255; 255; 255]) by reflexivity.
  change (ipToUint32 [255; 255; 255; 255]) with (2 ^ 32 - 1).
  change (ipToUint32 [255; 255; 255; 250]) with 4294967290.
  change (2 ^ 32 - 1 <? 4294967290) with false. cbn iota.
  rewrite rangeLoop_to_max by (pow2; lia). reflexivity.
Qed.

(** C5: the claim holds of ranges that end below 255.255.255.255, and the
    code breaks it at that address.  The range of the single address
    255.255.255.255 ([A == B]) should yield that one address; the loop never
    returns. *)
Theorem range_of_max_address_never_returns (fuel : nat) :
  ParseIPRange fuel "255.255.255.255-255.255.255.255" = None.
Proof.
  rewrite (ParseIPRange_range fuel _ "255.255.255.255" "255.255.255.255"
             (IPv4 255 255 255 255) (IPv4 255 255 255 255)
             [255; 255; 255; 255] [255; 255; 255; 255]) by reflexivity.
  change (ipToUint32 [255; 255; 255; 255]) with (2 ^ 32 - 1).
  change (2 ^ 32 - 1 <? 2 ^ 32 - 1) with false. cbn iota.
  rewrite rangeLoop_to_max by (pow2; lia). reflexivity.
Qed.

(** What the code does for the other ranges: a range [A-B] of two IPv4
    addresses is refused when [A] is above [B], and expands to the addresses
    from [A] to [B] in ascending order when [B] is below 255.255.255.255. *)
Lemma range_expansion_below_max fuel s p0 p1 a b a4 b4 :
  GoStrings.Contains (TrimSpace s) "/" = false ->
  Split (TrimSpace s) "-" = [p0; p1] ->
  ParseIP (TrimSpace p0) = Some a -> ParseIP (TrimSpace p1) = Some b ->
  To4 a = Some a4 -> To4 b = Some b4 ->
  is4 a4 -> is4 b4 ->
  (val4 b4 < val4 a4 ->
   ParseIPRange fuel s = Some (Err "start IP must be less than or equal to end IP"))
  /\ (val4 a4 <= val4 b4 < 2 ^ 32 - 1 ->
      (Z.to_nat (val4 b4 - val4 a4 + 1) < fuel)%nat ->
      ParseIPRange fuel s
      = Some (Ok {| IPs := map uint32ToIP (seqZ (val4 a4) (val4 b4 - val4 a4 + 1)) |})).
Proof.
  intros Hs Hsplit Ha Hb Ha4 Hb4 Ia Ib.
  rewrite (ParseIPRange_range fuel s p0 p1 a b a4 b4) by assumption.
  rewrite !ipToUint32_val4 by assumption.
  pose proof (val4_range _ Ia). pose proof (val4_range _ Ib).
  split.
  - intros Hlt. destruct (Z.ltb_spec (val4 b4) (val4 a4)); [reflexivity|lia].
  - intros Hle Hfuel. destruct (Z.ltb_spec (val4 b4) (val4 a4)); [lia|].
    rewrite (rangeLoop_below_max (Z.to_nat (val4 b4 - val4 a4 + 1))) by lia.
    cbn [app].
    replace (val4 b4 + 1 - val4 a4) with (val4 b4 - val4 a4 + 1) by lia.
    reflexivity.
Qed.

End RangeClaims.

(** ** The expander: address families *)

Module FamilyClaims.
Import GoStrings Net IPRange IPv4 RangeFacts.




End FamilyClaims.

(** ** The expander: several specs *)

Module ExpandMany.
Import GoStrings Net IPRange.

(** The result of [expand_many] as the specification words it: every
    spec is expanded in input order and the first error is returned with the
    text of its spec; otherwise the results are concatenated and of the
    addresses that print alike only the first occurrence is kept. *)
Fixpoint dedupFirst (l : list IP) : list IP :=
  match l with
  | [] => []
  | x :: t => x :: filter (fun y => String_ y <> String_ x) (dedupFirst t)
  end.

Fixpoint expandAll (fuel : nat) (specs : list string) : option (res (list IP)) :=
  match specs with
  | [] => Some (Ok [])
  | spec :: rest =>
      match ParseIPRange fuel spec with
      | None => None
      | Some (Err e) => Some (Err ("error parsing " +:+ spec +:+ ": " +:+ e))
      | Some (Ok r) =>
          match expandAll fuel rest with
          | None => None
          | Some (Err e) => Some (Err e)
          | Some (Ok l) => Some (Ok (IPs r ++ l))
          end
      end
  end.

Definition expand_many_spec (fuel : nat) (specs : list string) : option (res IPRange) :=
  match expandAll fuel specs with
  | None => None
  | Some (Err e) => Some (Err e)
  | Some (Ok l) => Some (Ok {| IPs := dedupFirst l |})
  end.

(** [seenIPs] holds the printed form of exactly the addresses in [allIPs]. *)
Definition consistent (allIPs : list IP) (seenIPs : gmap string bool) : Prop :=
  forall k, default false (seenIPs !! k) = true <-> k ∈ map String_ allIPs.

Lemma consistent_empty : consistent [] ∅.
Proof.
  intros k. rewrite lookup_empty. cbn. split; [discriminate|].
  intros H. now apply not_elem_of_nil in H.
Qed.

Lemma consistent_insert allIPs seenIPs ip :
  consistent allIPs seenIPs ->
  consistent (allIPs ++ [ip]) (<[String_ ip := true]> seenIPs).
Proof.
  intros H k. rewrite map_app, elem_of_app. cbn [map].
  rewrite list_elem_of_singleton, <- (H k).
  destruct (decide (String_ ip = k)) as [->|N].
  - rewrite lookup_insert_eq. cbn. tauto.
  - rewrite lookup_insert_ne by assumption. split; [tauto|].
    intros [?|?]; [assumption|congruence].
Qed.

Lemma foldl_addUnseen l :
  forall allIPs seenIPs,
    consistent allIPs seenIPs ->
    fst (foldl addUnseen (allIPs, seenIPs) l)
    = allIPs ++ filter (fun y => String_ y ∉ map String_ allIPs) (dedupFirst l).
Proof.
  induction l as [|x t IH]; intros allIPs seenIPs Hc.
  - cbn. now rewrite app_nil_r.
  - cbn [foldl dedupFirst]. unfold addUnseen at 2.
    destruct (default false (seenIPs !! String_ x)) eqn:E; cbn [negb].
    + apply Hc in E. rewrite (IH _ _ Hc). f_equal.
      rewrite filter_cons_False by (intros N; now apply N).
      symmetry. apply list_filter_filter_l. intros y Hy Ey. apply Hy.
      now rewrite Ey.
    + assert (N : String_ x ∉ map String_ allIPs).
      { intros Hin. apply Hc in Hin. congruence. }
      rewrite (IH _ _ (consistent_insert _ _ x Hc)).
      rewrite filter_cons_True by assumption.
      rewrite <- app_assoc. cbn [app]. do 2 f_equal.
      rewrite list_filter_filter. apply list_filter_iff. intros y.
      rewrite map_app, elem_of_app. cbn [map]. rewrite list_elem_of_singleton.
      tauto.
Qed.

Lemma multiLoop_expandAll fuel inputs :
  forall st,
    multiLoop fuel inputs st
    = match expandAll fuel inputs with
      | None => None
      | Some (Err e) => Some (Err e)
      | Some (Ok l) => Some (Ok {| IPs := fst (foldl addUnseen st l) |})
      end.
Proof.
  induction inputs as [|input rest IH]; intros st; cbn [multiLoop expandAll];
    [reflexivity|].
  destruct (ParseIPRange fuel input) as [[r|e]|]; [|reflexivity..].
  rewrite IH. destruct (expandAll fuel rest) as [[l|e]|]; [|reflexivity..].
  now rewrite foldl_app.
Qed.

Lemma filter_all (P : IP -> Prop) `{forall x, Decision (P x)} (l : list IP) :
  (forall x, P x) -> filter P l = l.
Proof.
  intros HP. induction l as [|x t IH]; [reflexivity|].
  rewrite filter_cons_True by apply HP. now rewrite IH.
Qed.

(** [dedupFirst] keeps one address of each printed form, in the order of
    the first occurrences. *)
Lemma dedupFirst_sublist l : sublist (dedupFirst l) l.
Proof.
  induction l as [|x t IH]; cbn [dedupFirst]; [constructor|].
  apply sublist_skip. etransitivity; [apply sublist_filter|exact IH].
Qed.

Lemma NoDup_map_filter (P : IP -> Prop) `{forall x, Decision (P x)} (l : list IP) :
  NoDup (map String_ l) -> NoDup (map String_ (filter P l)).
Proof.
  induction l as [|x t IH]; [trivial|]. cbn [map]. rewrite NoDup_cons.
  intros [Hx Ht]. rewrite filter_cons. destruct (decide (P x)); [|now apply IH].
  cbn [map]. rewrite NoDup_cons. split; [|now apply IH].
  intros Hin. apply Hx. rewrite list_elem_of_In, in_map_iff in *.
  destruct Hin as (y & Ey & Hy). exists y. split; [assumption|].
  apply list_elem_of_In. apply list_elem_of_In in Hy.
  now apply list_elem_of_filter in Hy.
Qed.

Lemma dedupFirst_NoDup l : NoDup (map String_ (dedupFirst l)).
Proof.
  induction l as [|x t IH]; cbn [dedupFirst map]; [constructor|].
  rewrite NoDup_cons. split; [|now apply NoDup_map_filter].
  rewrite list_elem_of_In, in_map_iff. intros (y & Ey & Hy).
  apply list_elem_of_In, list_elem_of_filter in Hy. now destruct Hy.
Qed.

Lemma dedupFirst_keeps l x :
  x ∈ l -> exists y, y ∈ dedupFirst l /\ String_ y = String_ x.
Proof.
  induction l as [|z t IH]; [intros H; now apply not_elem_of_nil in H|].
  rewrite elem_of_cons. cbn [dedupFirst]. intros [->|Hin].
  - exists z. split; [left|reflexivity].
  - destruct (IH Hin) as (y & Hy & Ey).
    destruct (decide (String_ y = String_ z)) as [E|N].
    + exists z. split; [left|congruence].
    + exists y. split; [|assumption]. right. now apply list_elem_of_filter.
Qed.

(** C6.  [ParseMultipleRanges] computes what the specification of
    [expand_many] says: the specs are expanded in input order, the first
    error is returned with the text of its spec in front, and otherwise the
    concatenation of the results without the later occurrences of an address
    already seen; the three specs of the example yield two addresses. *)
Theorem ParseMultipleRanges_expand_many :
  (forall fuel inputs, ParseMultipleRanges fuel inputs = expand_many_spec fuel inputs)
  /\ shown (ParseMultipleRanges 0 ["192.168.1.1"; "192.168.1.1"; "192.168.1.2"]%string)
     = Some (Ok ["192.168.1.1"; "192.168.1.2"]%string).
Proof.
  split; [|vm_compute; reflexivity].
  intros fuel inputs. unfold ParseMultipleRanges, expand_many_spec.
  rewrite multiLoop_expandAll.
  destruct (expandAll fuel inputs) as [[l|e]|]; [|reflexivity..].
  rewrite (foldl_addUnseen l [] ∅ consistent_empty). cbn [app map].
  rewrite filter_all; [reflexivity|]. intros x. apply not_elem_of_nil.
Qed.

End ExpandMany.

(** ** The dispatcher: one job *)

Module JobFacts.
Import Client.



(** The fields of a [Result] of [executeJob]. *)
Lemma executeJob_fields c w j r :
  executeJob c w j = Returned r ->
  IP r = ip j /\ Port r = port j /\ Command r = command j
  /\ Duration r = DurationString (elapsed w)
  /\ (Response r = ANil \/ Error r = EmptyString).
Proof.
  unfold executeJob.
  destruct (dispatch w _ j) as [[response [e|]]|msg]; [| |discriminate];
    intros [= <-]; cbn; repeat split; auto.
Qed.

Lemma cancelledResult_fields j :
  IP (cancelledResult j) = ip j /\ Port (cancelledResult j) = port j
  /\ Command (cancelledResult j) = command j
  /\ Duration (cancelledResult j) = EmptyString
  /\ Response (cancelledResult j) = ANil
  /\ Error (cancelledResult j) = "context cancelled"%string.
Proof. repeat split. Qed.

(** A command outside [GetAvailableCommands] reaches the [default] case of
    the [switch], whatever the miner and the parameters are. *)
Lemma dispatch_unknown w miner j :
  command j ∉ GetAvailableCommands ->
  dispatch w miner j
  = Returned (ANil, Some ("unknown command: " +:+ command j)).
Proof.
  intros Hn. unfold dispatch.
  repeat match goal with
         | |- context [String.eqb (command j) ?s] =>
             destruct (String.eqb_spec (command j) s) as [E|_];
             [exfalso; apply Hn; rewrite E; unfold GetAvailableCommands;
              repeat (first [apply list_elem_of_here | apply list_elem_of_further])|]
         end.
  reflexivity.
Qed.

Lemma executeJob_unknown c w j :
  command j ∉ GetAvailableCommands ->
  executeJob c w j
  = Returned {| IP := ip j; Port := port j; Command := command j;
                Response := ANil; Error := "unknown command: " +:+ command j;
                Duration := DurationString (elapsed w) |}.
Proof.
  intros Hn. unfold executeJob. now rewrite dispatch_unknown.
Qed.

(** A negative pool number passes the guard [poolID < len(pools)] and the
    indexing [pools[poolID]] panics, as soon as the miner answers the
    [pools] request. *)
Lemma poolCommand_negative miner j act done name poolID pools :
  params j !! "pool"%string = Some (AInt poolID) ->
  poolID < 0 ->
  Pools miner = Ok pools ->
  poolCommand miner j act done name
  = Panicked ("runtime error: index out of range [" +:+ pretty poolID +:+ "]").
Proof.
  intros Hp Hneg HP. unfold poolCommand. rewrite Hp, HP.
  destruct (Z.ltb_spec poolID (Z.of_nat (length pools))); [|lia].
  destruct (Z.ltb_spec poolID 0); [reflexivity|lia].
Qed.



End JobFacts.

(** ** The dispatcher: the worker pool *)

Module RunFacts.
Import Client JobFacts.

(** The job a worker holds, and the jobs held by the pool. *)
Definition holds (w : wstate) : list job :=
  match w with
  | WHave j => [j]
  | _ => []
  end.

Definition held (l : list wstate) : list job := concat (map holds l).

Lemma pool_split (l : list wstate) i w0 :
  l !! i = Some w0 ->
  exists l1 l2, l = l1 ++ w0 :: l2 /\ forall w, <[i := w]> l = l1 ++ w :: l2.
Proof.
  intros H. exists (take i l), (drop (S i) l). split.
  - symmetry. now apply take_drop_middle.
  - intros w. apply insert_take_drop. now apply lookup_lt_Some in H.
Qed.

Lemma held_app l1 w l2 : held (l1 ++ w :: l2) = held l1 ++ holds w ++ held l2.
Proof. unfold held. rewrite map_app, concat_app. reflexivity. Qed.

Lemma weight_app l1 w l2 :
  poolWeight (l1 ++ w :: l2) = (poolWeight l1 + wweight w + poolWeight l2)%nat.
Proof. induction l1 as [|x l1 IH]; cbn [app poolWeight]; lia. Qed.

Lemma held_exited_free n : held (replicate n WWait) = [].
Proof. induction n as [|n IH]; [reflexivity|exact IH]. Qed.

Lemma held_exited l : Forall (fun w => w = WExited) l -> held l = [].
Proof.
  induction 1 as [|w l -> _ IH]; [reflexivity|]. unfold held in *. cbn. exact IH.
Qed.

(** Either every worker has left its loop or one of them has not. *)
Lemma pool_exited_or_not (l : list wstate) :
  Forall (fun w => w = WExited) l
  \/ exists i w, l !! i = Some w /\ w <> WExited.
Proof.
  induction l as [|w l [IH|(i & w' & Hi & Hw)]].
  - left. constructor.
  - destruct w as [|j|].
    + right. exists 0%nat, WWait. split; [reflexivity|discriminate].
    + right. exists 0%nat, (WHave j). split; [reflexivity|discriminate].
    + left. now constructor.
  - right. exists (S i), w'. split; assumption.
Qed.

Section Run.

Variable c : Client.
Variable run_port : Z.
Variable run_command : string.
Variable run_params : gmap string any.

Local Abbreviation step := (step c run_port run_command run_params).
Local Abbreviation steps := (steps c run_port run_command run_params).
Local Abbreviation mkJob := (mkJob run_port run_command run_params).
Local Abbreviation init := (init c).

(** *** Every transition lowers the measure: a run is finite *)

Lemma step_measure s s' : step s s' -> (measure s' < measure s)%nat.
Proof.
  intros H. inversion H; subst; unfold measure, setPool; cbn [pending jobs jobsClosed pool results done attempted crashed];
    repeat match goal with
           | E : ?f s = _ |- _ => rewrite E
           end;
    try match goal with
        | E : pool s !! _ = Some _ |- _ =>
            destruct (pool_split _ _ _ E) as (l1 & l2 & El & Ei);
            rewrite ?Ei, El, !weight_app
        end;
    cbn [wweight length]; rewrite ?length_app; cbn [length]; lia.
Qed.

(** *** Invariants of a run *)

(** The shape of the channels and of the pool: nothing is sent on a
    closed channel, a worker leaves only when [jobs] is closed and empty, and
    the pool keeps its size. *)
Definition shape (s : state) : Prop :=
  (jobsClosed s = true -> pending s = [])
  /\ (WExited ∈ pool s -> jobsClosed s = true /\ jobs s = [])
  /\ length (pool s) = Z.to_nat (workers c).

Lemma shape_init ips cancelled : shape (init ips cancelled).
Proof.
  unfold shape, Client.init. cbn [pending jobs jobsClosed pool].
  split; [discriminate|]. split; [|apply length_replicate].
  intros H. apply elem_of_replicate in H. now destruct H.
Qed.

Lemma elem_of_middle (l1 l2 : list wstate) w x :
  x ∈ l1 ++ w :: l2 <-> x = w \/ x ∈ l1 ++ l2.
Proof. rewrite !elem_of_app, elem_of_cons. tauto. Qed.

Lemma shape_step s s' : step s s' -> shape s -> shape s'.
Proof.
  intros H (H1 & H2 & H3). unfold shape.
  inversion H; subst; unfold setPool;
    cbn [pending jobs jobsClosed pool results done attempted crashed];
    try match goal with
        | E : pool s !! _ = Some _ |- _ =>
            destruct (pool_split _ _ _ E) as (l1 & l2 & El & Ei);
            rewrite ?Ei; rewrite El in H2, H3; rewrite ?El;
            rewrite elem_of_middle in H2; rewrite ?elem_of_middle
        end;
    rewrite ?length_app in *; cbn [length] in *;
    (split; [|split]);
    try solve [intuition (congruence || lia)].
Qed.

(** No job is lost or duplicated: what is in the results, in the hands of
    the workers, in the channel and still to send is what was submitted.
    [f] reads a result and [g] a job; they agree on the result made for a
    job. *)
Section Covers.

Context {X : Type} (f : Result -> X) (g : job -> X).

Definition covers (ips : list string) (s : state) : Prop :=
  map f (results s) ++ map g (held (pool s)) ++ map g (jobs s)
    ++ map (fun a => g (mkJob a)) (pending s)
  ≡ₚ map (fun a => g (mkJob a)) ips.

Lemma covers_init ips cancelled : covers ips (init ips cancelled).
Proof.
  unfold covers, Client.init. cbn [pending jobs pool results].
  rewrite held_exited_free. reflexivity.
Qed.

Hypothesis f_cancelled : forall j, f (cancelledResult j) = g j.

Lemma covers_step ips s s' :
  step s s' ->
  (done s = false -> forall w j r, executeJob c w j = Returned r -> f r = g j) ->
  covers ips s -> covers ips s'.
Proof.
  intros H Hex Hc. unfold covers in *. rewrite <- Hc. clear Hc.
  inversion H; subst; unfold setPool;
    cbn [pending jobs jobsClosed pool results done attempted crashed];
    repeat match goal with
           | E : pending s = _ |- _ => rewrite E
           | E : jobs s = _ |- _ => rewrite E
           end;
    try match goal with
        | E : pool s !! _ = Some _ |- _ =>
            destruct (pool_split _ _ _ E) as (l1 & l2 & El & Ei);
            rewrite ?Ei, ?El, !held_app
        end;
    try match goal with
        | E : executeJob c _ _ = Returned _ |- _ =>
            pose proof (Hex ltac:(assumption) _ _ _ E) as Efg
        end;
    rewrite ?map_app; cbn [holds map app]; rewrite ?f_cancelled, ?Efg;
    rewrite <- ?app_assoc; cbn [app]; try reflexivity.
  - (* receive: the job moves from the channel to the worker *)
    do 2 apply Permutation_app_head. apply Permutation_middle.
  - (* cancelled: the job of the worker becomes a result *)
    apply Permutation_app_head. cbn [app].
    rewrite <- Permutation_middle. reflexivity.
  - (* execute: the job of the worker becomes a result *)
    apply Permutation_app_head. cbn [app].
    rewrite <- Permutation_middle. reflexivity.
Qed.

End Covers.

(** Where the jobs and the results of a run come from: every job is made
    for a submitted address, every result is the cancellation result of such
    a job or what [executeJob] returned for it. *)
Definition isJob (ips : list string) (j : job) : Prop :=
  exists a, a ∈ ips /\ j = mkJob a.

Definition produced (ips : list string) (r : Result) : Prop :=
  exists a, a ∈ ips
    /\ (r = cancelledResult (mkJob a)
        \/ exists w, executeJob c w (mkJob a) = Returned r).

Definition provenance (ips : list string) (s : state) : Prop :=
  Forall (fun a => a ∈ ips) (pending s)
  /\ Forall (isJob ips) (jobs s)
  /\ Forall (isJob ips) (held (pool s))
  /\ Forall (produced ips) (results s).

Lemma provenance_init ips cancelled : provenance ips (init ips cancelled).
Proof.
  unfold provenance, Client.init. cbn [pending jobs pool results].
  rewrite held_exited_free. repeat split; try constructor.
  apply Forall_forall. auto.
Qed.

Lemma provenance_step ips s s' : step s s' -> provenance ips s -> provenance ips s'.
Proof.
  intros H (P1 & P2 & P3 & P4). unfold provenance.
  inversion H; subst; unfold setPool;
    cbn [pending jobs jobsClosed pool results done attempted crashed];
    repeat match goal with
           | E : pending s = _ |- _ => rewrite E in *
           | E : jobs s = _ |- _ => rewrite E in *
           end;
    try match goal with
        | E : pool s !! _ = Some _ |- _ =>
            destruct (pool_split _ _ _ E) as (l1 & l2 & El & Ei);
            rewrite ?Ei, ?El; rewrite El in P3; rewrite !held_app in *
        end;
    cbn [holds app] in *;
    repeat match goal with
           | F : Forall _ (_ :: _) |- _ => apply Forall_cons in F; destruct F
           | F : Forall _ (_ ++ _) |- _ => apply Forall_app in F; destruct F
           end;
    repeat split; rewrite ?Forall_app, ?Forall_cons; repeat split;
    try (assumption || constructor).
  - now exists addr.
  - match goal with F : isJob ips j |- _ => destruct F as (a & Ha & ->) end.
    exists a. auto.
  - match goal with F : isJob ips j |- _ => destruct F as (a & Ha & ->) end.
    exists a. eauto.
Qed.




(** An invariant of the transitions holds in every state of a run. *)
Lemma run_invariant (P : state -> Prop) s0 :
  P s0 -> (forall s s', step s s' -> P s -> P s') ->
  forall s, steps s0 s -> P s.
Proof.
  intros H0 Hs s Hr. unfold Client.steps in Hr.
  revert s Hr. apply (rtc_ind_r (R := step) P s0 H0).
  intros y z _ Hyz Py. now apply (Hs y z).
Qed.

(** *** A run goes on until it returns or panics *)

(** A miner that refuses every connection, for the existence of a world. *)
Definition refusing : CGMiner :=
  let no := "connection refused"%string in
  {| Summary := Err no; Devs := Err no; Pools := Err no; Stats := Err no;
     Version := Err no;
     SwitchPool := fun _ => Some no; EnablePool := fun _ => Some no;
     DisablePool := fun _ => Some no; RemovePool := fun _ => Some no;
     AddPool := fun _ _ _ => Some no; Restart := Some no; Quit := Some no;
     RawCall := fun _ => Err no |}.

Definition offline : World :=
  {| NewCGMiner := fun _ _ _ => refusing; elapsed := 0;
     jsonMarshal := fun _ => Err "unsupported value";
     jsonUnmarshal := fun _ => None |}.

Lemma progress s :
  crashed s = true \/ returned s \/ exists s', step s s'.
Proof.
  destruct (crashed s) eqn:Ec; [now left|right].
  destruct (pending s) as [|addr rest] eqn:Ep.
  2:{ right. eexists; eapply step_send; eassumption. }
  destruct (jobsClosed s) eqn:Ecl.
  2:{ right. eexists; eapply step_close; eassumption. }
  destruct (pool_exited_or_not (pool s)) as [Hall|(i & w & Hi & Hw)].
  { left. unfold returned. auto. }
  right. destruct w as [|j|]; [| |contradiction].
  - destruct (jobs s) as [|j rest] eqn:Ej.
    + eexists; eapply step_exit; eassumption.
    + eexists; eapply step_receive; eassumption.
  - destruct (done s) eqn:Ed.
    + eexists; eapply step_cancelled; eassumption.
    + destruct (executeJob c offline j) as [r|msg] eqn:Ex.
      * eexists; eapply step_execute; eassumption.
      * eexists; eapply step_panic; eassumption.
Qed.

(** After [ExecuteCommand] has returned only the context can still change:
    the report is what it is.  A state that has panicked does not move. *)
Lemma returned_stable s s' :
  returned s -> step s s' -> returned s' /\ results s' = results s.
Proof.
  intros (R1 & R2 & R3 & R4) H.
  inversion H; subst; try congruence;
    try match goal with
        | E : pool s !! _ = Some _ |- _ =>
            apply list_elem_of_lookup_2 in E; rewrite Forall_forall in R4;
            specialize (R4 _ E); discriminate
        end.
  unfold returned. cbn. auto.
Qed.

Lemma crashed_final s s' : crashed s = true -> ~ step s s'.
Proof. intros Hc H. inversion H; subst; congruence. Qed.

(** *** What a run returns *)

Lemma returned_empty s :
  shape s -> 0 < workers c -> returned s ->
  pending s = [] /\ jobs s = [] /\ held (pool s) = [].
Proof.
  intros (H1 & H2 & H3) Hw (R1 & R2 & R3 & R4).
  split; [assumption|]. split; [|now apply held_exited].
  apply H2. destruct (pool s) as [|w l]; [cbn in H3; lia|].
  apply Forall_cons in R4. destruct R4 as [-> _]. left.
Qed.

Lemma returned_covers {X : Type} (f : Result -> X) (g : job -> X) ips s :
  shape s -> 0 < workers c -> returned s -> covers f g ips s ->
  map f (results s) ≡ₚ map (fun a => g (mkJob a)) ips.
Proof.
  intros Hs Hw Hr Hc. destruct (returned_empty s Hs Hw Hr) as (E1 & E2 & E3).
  unfold covers in Hc. rewrite E1, E2, E3 in Hc. cbn [map app] in Hc.
  now rewrite app_nil_r in Hc.
Qed.

End Run.

End RunFacts.

(** ** The dispatcher: what a run reports *)

Module Dispatcher.
Import Client JobFacts RunFacts.

(** C9.  [NewClient] replaces a worker count that is zero or negative by
    10 and keeps a positive one. *)
Theorem NewClient_workers (timeout n : Z) :
  (n <= 0 -> workers (NewClient timeout n) = 10)
  /\ (0 < n -> workers (NewClient timeout n) = n).
Proof.
  unfold NewClient. cbn [workers].
  destruct (Z.leb_spec n 0); split; intros; (reflexivity || lia).
Qed.

Lemma NewClient_workers_witness :
  (-5 <= 0 /\ workers (NewClient 5000000000 (-5)) = 10)
  /\ (0 < 20 /\ workers (NewClient 5000000000 20) = 20).
Proof.
  assert (H1 : -5 <= 0) by lia. assert (H2 : 0 < 20) by lia.
  exact (conj (conj H1 (proj1 (NewClient_workers 5000000000 (-5)) H1))
              (conj H2 (proj2 (NewClient_workers 5000000000 20) H2))).
Defined.


Section Run.

Variable c : Client.
Variable run_port : Z.
Variable run_command : string.
Variable run_params : gmap string any.

Local Abbreviation step := (step c run_port run_command run_params).
Local Abbreviation steps := (steps c run_port run_command run_params).
Local Abbreviation mkJob := (mkJob run_port run_command run_params).
Local Abbreviation init := (init c).

(** Every state of a run keeps the shape, the provenance and the count of
    its jobs. *)
Lemma run_general ips cancelled s :
  steps (init ips cancelled) s ->
  shape c s /\ provenance c run_port run_command run_params ips s
  /\ covers run_port run_command run_params IP ip ips s.
Proof.
  apply (run_invariant c run_port run_command run_params
           (fun s => shape c s /\ provenance c run_port run_command run_params ips s
                     /\ covers run_port run_command run_params IP ip ips s)).
  - split; [apply shape_init|]. split; [apply provenance_init|apply covers_init].
  - intros s1 s2 Hst (H1 & H2 & H3).
    split; [now apply (shape_step c run_port run_command run_params s1)|].
    split; [now apply (provenance_step c run_port run_command run_params ips s1)|].
    apply (covers_step c run_port run_command run_params IP ip) with (s := s1);
      try assumption; [reflexivity|].
    intros _ w j r Hex. now apply executeJob_fields in Hex.
Qed.


End Run.

Lemma map_ip_mkJob port command params (ips : list string) :
  map (fun a => ip (mkJob port command params a)) ips = ips.
Proof. induction ips as [|a l IH]; [reflexivity|]. cbn [map]. now rewrite IH. Qed.




Ltac run_step lem := eapply rtc_l; [eapply lem; reflexivity|vm_compute].
Ltac run_step_at lem n :=
  eapply rtc_l; [eapply lem with (i := n); reflexivity|vm_compute].









(** *** Runs in which no job panics *)

(** When [executeJob] returns for every job of the run, the run never
    panics, it can always go on until it has returned, and it then reports
    every submitted address once. *)
Lemma run_reports_every_address
    (c : Client) (port : Z) (command : string) (params : gmap string any)
    (ips : list string) (cancelled : bool) (s : state) :
  (forall w a, exists r, executeJob c w (mkJob port command params a) = Returned r) ->
  steps c port command params (init c ips cancelled) s ->
  crashed s = false
  /\ (returned s \/ exists s', step c port command params s s')
  /\ (0 < workers c -> returned s ->
      map IP (results s) ≡ₚ ips /\ length (results s) = length ips).
Proof.
  intros Hret Hrun.
  assert (Hc : crashed s = false
               /\ provenance c port command params ips s).
  { revert s Hrun.
    apply (run_invariant c port command params
             (fun s => crashed s = false /\ provenance c port command params ips s)).
    - split; [reflexivity|apply provenance_init].
    - intros s1 s2 Hst (H1 & H2).
      split; [|now apply (provenance_step c port command params ips s1)].
      inversion Hst; subst; try reflexivity.
      destruct H2 as (_ & _ & H2 & _).
      match goal with E : pool s1 !! _ = Some _ |- _ =>
        destruct (pool_split _ _ _ E) as (l1 & l2 & El & _) end.
      rewrite El, held_app in H2. apply Forall_app in H2. destruct H2 as [_ H2].
      cbn [holds app] in H2. apply Forall_cons in H2. destruct H2 as [(a & _ & ->) _].
      destruct (Hret w a) as [r Hr]. congruence. }
  destruct Hc as [Hc _].
  destruct (run_general c port command params ips cancelled s Hrun) as (Hs & _ & Hcov).
  split; [assumption|]. split.
  - destruct (progress c port command params s) as [Hcr|[?|?]]; [congruence|auto..].
  - intros Hw Hr.
    pose proof (returned_covers c port command params IP ip ips s Hs Hw Hr Hcov) as Hp.
    rewrite map_ip_mkJob in Hp. split; [assumption|].
    rewrite <- (length_map IP). now apply Permutation_length.
Qed.

(** A command that is not known makes no job panic: every job gets the
    error of the [default] case. *)
Lemma unknown_command_returns (c : Client) port command params w a :
  command ∉ GetAvailableCommands ->
  executeJob c w (mkJob port command params a)
  = Returned {| IP := a; Port := port; Command := command; Response := ANil;
                Error := "unknown command: " +:+ command;
                Duration := DurationString (elapsed w) |}.
Proof. intros Hn. now rewrite executeJob_unknown. Qed.

(** *** A run in which a job panics *)

(** A miner that answers, with one pool configured. *)
Definition answering : CGMiner :=
  {| Summary := Ok "summary"; Devs := Ok "devs";
     Pools := Ok ["stratum+tcp://pool.example.com:3333"%string];
     Stats := Ok "stats"; Version := Ok "version";
     SwitchPool := fun _ => None; EnablePool := fun _ => None;
     DisablePool := fun _ => None; RemovePool := fun _ => None;
     AddPool := fun _ _ _ => None; Restart := None; Quit := None;
     RawCall := fun _ => Ok "{}" |}.

Definition online : World :=
  {| NewCGMiner := fun _ _ _ => answering; elapsed := 12000000;
     jsonMarshal := fun _ => Ok "{}";
     jsonUnmarshal := fun _ => Some (AOther "{}") |}.

(** The state of the run of [switchpool] with pool number -1 on one
    address after the worker that took the job has panicked. *)
Definition afterPanic : state :=
  {| pending := []; jobs := []; jobsClosed := true;
     pool := WHave (mkJob 4028 "switchpool" {["pool"%string := AInt (-1)]} "192.168.1.1")
             :: replicate 9 WWait;
     results := []; done := false;
     attempted := [mkJob 4028 "switchpool" {["pool"%string := AInt (-1)]} "192.168.1.1"];
     crashed := true |}.

(** C2: the claim holds of the runs in which no job panics
    ([run_reports_every_address]), and the code breaks it.  [switchpool] with
    the pool number -1 passes the guard [poolID < len(pools)], indexing the
    pools of a miner that answers panics, and the run of [ExecuteCommand] on
    one address ends in a state that has panicked, with no result and
    without having returned. *)
Theorem negative_pool_number_aborts_run :
  let c := NewClient 5000000000 10 in
  let params : gmap string any := {["pool"%string := AInt (-1)]} in
  executeJob c online (mkJob 4028 "switchpool" params "192.168.1.1")
  = Panicked "runtime error: index out of range [-1]"
  /\ steps c 4028 "switchpool" params (init c ["192.168.1.1"%string] false) afterPanic
  /\ crashed afterPanic = true
  /\ results afterPanic = []
  /\ ~ returned afterPanic
  /\ (forall s', ~ step c 4028 "switchpool" params afterPanic s').
Proof.
  intros c params. split; [vm_compute; reflexivity|]. split; [|split; [|split; [|split]]].
  - unfold steps. vm_compute.
    run_step step_send. run_step step_close. run_step_at step_receive 0%nat.
    eapply rtc_l;
      [eapply step_panic with (i := 0%nat) (w := online); vm_compute; reflexivity
      |vm_compute; apply rtc_refl].
  - reflexivity.
  - reflexivity.
  - intros (Hc & _). discriminate.
  - intros s'. now apply crashed_final.
Qed.

End Dispatcher.

(** ** More on the expander *)

Module ExpanderFacts.
Import GoStrings Net IPRange IPv4 RangeFacts ExpandMany.

(** *** Every address of a CIDR expansion lies in the network *)

Lemma cidrLoop_contained fuel ipNet :
  forall ip acc ips,
    Forall (fun x => Contains ipNet x = true) acc ->
    cidrLoop fuel ipNet ip acc = Some ips ->
    Forall (fun x => Contains ipNet x = true) ips.
Proof.
  induction fuel as [|fuel IH]; intros ip acc ips Hacc; cbn [cidrLoop];
    [discriminate|].
  destruct (Contains ipNet ip) eqn:E.
  - apply IH. apply Forall_app. split; [assumption|]. now repeat constructor.
  - now intros [= <-].
Qed.

Lemma dropUnspecified_sublist ips : sublist (dropUnspecified ips) ips.
Proof.
  destruct ips as [|x l]; cbn; [constructor|].
  destruct (IsUnspecified x); [now apply sublist_cons|reflexivity].
Qed.

Lemma dropBroadcast_sublist ipNet ips : sublist (dropBroadcast ipNet ips) ips.
Proof.
  unfold dropBroadcast. destruct (last ips); [|reflexivity].
  destruct (isBroadcast _ _); [apply sublist_take|reflexivity].
Qed.

(** Whatever the family and the prefix, when [ParseIPRange] returns for a
    CIDR block every address it returns is in the parsed network. *)
Theorem cidr_addresses_in_network fuel s ipNet r :
  ParseCIDR (TrimSpace s) = Ok ipNet ->
  ParseIPRange fuel s = Some (Ok r) ->
  Forall (fun ip => Contains ipNet ip = true) (IPs r).
Proof.
  intros HP. rewrite (ParseIPRange_cidr _ _ _ HP). unfold expandNet.
  destruct (cidrLoop fuel ipNet _ []) as [ips|] eqn:E; [|discriminate].
  intros [= <-]. cbn [IPs].
  assert (H0 : Forall (fun x : IP => Contains ipNet x = true) []) by constructor.
  pose proof (cidrLoop_contained _ _ _ _ _ H0 E) as H.
  apply Forall_forall. intros ip Hip. rewrite Forall_forall in H. apply H.
  eapply elem_of_sublist; [exact Hip|].
  etransitivity; [apply dropBroadcast_sublist|apply dropUnspecified_sublist].
Qed.

Lemma cidr_addresses_in_network_witness :
  let ipNet := {| net_IP := [32; 1; 13; 184] ++ replicate 12 0;
                  net_Mask := replicate 15 255 ++ [252] |} in
  let r := {| IPs := [[32; 1; 13; 184] ++ replicate 12 0;
                      [32; 1; 13; 184] ++ replicate 11 0 ++ [1];
                      [32; 1; 13; 184] ++ replicate 11 0 ++ [2];
                      [32; 1; 13; 184] ++ replicate 11 0 ++ [3]] |} in
  ParseCIDR (TrimSpace "2001:db8::/126") = Ok ipNet
  /\ ParseIPRange 5 "2001:db8::/126" = Some (Ok r)
  /\ Forall (fun ip => Contains ipNet ip = true) (IPs r).
Proof.
  intros ipNet r.
  assert (H1 : ParseCIDR (TrimSpace "2001:db8::/126") = Ok ipNet) by reflexivity.
  assert (H2 : ParseIPRange 5 "2001:db8::/126" = Some (Ok r)) by (vm_compute; reflexivity).
  exact (conj H1 (conj H2 (cidr_addresses_in_network 5 _ ipNet r H1 H2))).
Defined.

(** *** The empty prefix *)

(** For every IPv4 address the block with prefix length 0 makes the loop
    of [parseCIDR] run for ever: [ParseIPRange] returns for no fuel. *)
Theorem cidr_empty_prefix_never_returns fuel s ipNet :
  ParseCIDR (TrimSpace s) = Ok ipNet ->
  Size (net_Mask ipNet) = (0, 32) ->
  ParseIPRange fuel s = None.
Proof.
  intros HP HS.
  destruct (ParseCIDR_v4_facts _ _ 0 HP HS) as (_ & _ & _ & _ & _ & _ & Hnone).
  rewrite (ParseIPRange_cidr _ _ _ HP), (Hnone fuel eq_refl). reflexivity.
Qed.

Lemma cidr_empty_prefix_never_returns_witness :
  let ipNet := {| net_IP := [0; 0; 0; 0]; net_Mask := [0; 0; 0; 0] |} in
  ParseCIDR (TrimSpace "192.168.1.7/0") = Ok ipNet
  /\ Size (net_Mask ipNet) = (0, 32)
  /\ ParseIPRange 1000 "192.168.1.7/0" = None.
Proof.
  intros ipNet.
  assert (H1 : ParseCIDR (TrimSpace "192.168.1.7/0") = Ok ipNet) by reflexivity.
  assert (H2 : Size (net_Mask ipNet) = (0, 32)) by reflexivity.
  exact (conj H1 (conj H2 (cidr_empty_prefix_never_returns 1000 _ ipNet H1 H2))).
Defined.

(** *** Numbers and addresses *)

Lemma To4_uint32ToIP n : To4 (uint32ToIP n) = Some (bytes4 n).
Proof. reflexivity. Qed.

(** A 32-bit number turned into an address by [uint32ToIP] and read back
    by [ipToUint32] from its four-byte form is the number itself. *)
Theorem uint32_round_trip n :
  0 <= n < 2 ^ 32 ->
  exists ip4, To4 (uint32ToIP n) = Some ip4 /\ ipToUint32 ip4 = n.
Proof.
  intros Hn. exists (bytes4 n). split; [reflexivity|].
  rewrite ipToUint32_val4 by apply bytes4_is4. now apply val4_bytes4.
Qed.

Lemma uint32_round_trip_witness :
  0 <= 3232235777 < 2 ^ 32
  /\ exists ip4, To4 (uint32ToIP 3232235777) = Some ip4
                 /\ ipToUint32 ip4 = 3232235777.
Proof.
  assert (H0 : 0 <= 3232235777 < 2 ^ 32) by (pow2; lia).
  exact (conj H0 (uint32_round_trip _ H0)).
Defined.

(** Four bytes read as a number by [ipToUint32] and turned back into an
    address by [uint32ToIP] give the address [net.IPv4] builds from them. *)
Theorem address_round_trip a b c d :
  0 <= a < 256 -> 0 <= b < 256 -> 0 <= c < 256 -> 0 <= d < 256 ->
  uint32ToIP (ipToUint32 [a; b; c; d]) = IPv4 a b c d.
Proof.
  intros Ha Hb Hc Hd.
  assert (H4 : is4 [a; b; c; d]).
  { split; [reflexivity|]. forall_bytes; assumption. }
  rewrite ipToUint32_val4 by assumption.
  change (uint32ToIP (val4 [a; b; c; d]))
    with (v4InV6Prefix ++ bytes4 (val4 [a; b; c; d])).
  now rewrite bytes4_val4.
Qed.

Lemma address_round_trip_witness :
  0 <= 192 < 256 /\ 0 <= 168 < 256 /\ 0 <= 1 < 256 /\ 0 <= 1 < 256
  /\ uint32ToIP (ipToUint32 [192; 168; 1; 1]) = IPv4 192 168 1 1.
Proof.
  assert (H1 : 0 <= 192 < 256) by lia. assert (H2 : 0 <= 168 < 256) by lia.
  assert (H3 : 0 <= 1 < 256) by lia.
  exact (conj H1 (conj H2 (conj H3 (conj H3
           (address_round_trip 192 168 1 1 H1 H2 H3 H3))))).
Defined.

Lemma length_incFromLast r : length (incFromLast r) = length r.
Proof.
  induction r as [|b t IH]; [reflexivity|]. cbn [incFromLast].
  destruct (0 <? (b + 1) mod 256); cbn [length]; now rewrite ?IH.
Qed.

Lemma length_inc ip : length (inc ip) = length ip.
Proof. unfold inc. now rewrite length_rev, length_incFromLast, length_rev. Qed.

(** On the four bytes of an IPv4 address [inc] gives four bytes again and
    adds one modulo [2 ^ 32]: after 255.255.255.255 comes 0.0.0.0. *)
Theorem inc_adds_one ip :
  length ip = 4%nat -> Forall (fun b => 0 <= b < 256) ip ->
  length (inc ip) = 4%nat
  /\ Forall (fun b => 0 <= b < 256) (inc ip)
  /\ ipToUint32 (inc ip) = (ipToUint32 ip + 1) mod 2 ^ 32.
Proof.
  intros Hl Hf. assert (H4 : is4 ip) by (split; assumption).
  destruct (inc_val4 ip H4) as [I E].
  split; [now rewrite length_inc|]. split; [apply I|].
  now rewrite !ipToUint32_val4.
Qed.

Lemma inc_adds_one_witness :
  length [10; 0; 255; 255] = 4%nat
  /\ Forall (fun b => 0 <= b < 256) [10; 0; 255; 255]
  /\ length (inc [10; 0; 255; 255]) = 4%nat
  /\ Forall (fun b => 0 <= b < 256) (inc [10; 0; 255; 255])
  /\ ipToUint32 (inc [10; 0; 255; 255])
     = (ipToUint32 [10; 0; 255; 255] + 1) mod 2 ^ 32.
Proof.
  assert (Hl : length [10; 0; 255; 255] = 4%nat) by reflexivity.
  assert (Hf : Forall (fun b => 0 <= b < 256) [10; 0; 255; 255])
    by (forall_bytes; lia).
  exact (conj Hl (conj Hf (inc_adds_one _ Hl Hf))).
Defined.

(** *** Ranges of two addresses *)

Lemma hexval_range c d : hexval c = Some d -> 0 <= d < 16.
Proof.
  unfold hexval. cbv zeta. generalize (code c). intros n.
  repeat match goal with
         | |- context [(?a <=? ?b)] => destruct (Z.leb_spec a b)
         end; cbn [andb]; intros E; try discriminate E; try (injection E as <-; lia).
Qed.

Lemma hexgroup_range s :
  forall off acc v n rest,
    0 <= acc <= 65535 -> hexgroup s off acc = Some (v, n, rest) -> 0 <= v <= 65535.
Proof.
  induction s as [|c t IH]; intros off acc v n rest Ha; cbn [hexgroup].
  - now intros [= <- _ _].
  - destruct (hexval c) as [d|] eqn:Hd; [|now intros [= <- _ _]].
    apply hexval_range in Hd.
    destruct (3 <? off)%nat; [discriminate|].
    destruct (Z.ltb_spec 65535 (acc * 16 + d)); [discriminate|].
    apply IH. lia.
Qed.

Lemma group_bytes acc :
  0 <= acc <= 65535 -> Forall inrange [Z.shiftr acc 8; acc mod 256].
Proof.
  intros Ha. rewrite Z.shiftr_div_pow2 by lia. change (2 ^ 8) with 256.
  forall_bytes; unfold inrange.
  - split; [apply Z.div_pos; lia|]. apply Z.div_lt_upper_bound; lia.
  - apply Z.mod_pos_bound. lia.
Qed.

Lemma parseIPv6Groups_inrange rounds :
  forall s ip e rest ip' e',
    Forall inrange ip ->
    parseIPv6Groups rounds s ip e = Some (rest, ip', e') -> Forall inrange ip'.
Proof.
  induction rounds as [|rounds IH]; intros s ip e rest ip' e' Hip;
    cbn [parseIPv6Groups]; [now intros [= _ <- _]|].
  destruct (16 <=? length ip)%nat; [now intros [= _ <- _]|].
  destruct (hexgroup s 0 0) as [[[acc off] r]|] eqn:Hg; [|discriminate].
  apply hexgroup_range in Hg; [|lia].
  pose proof (group_bytes acc Hg) as Hb.
  assert (Hip2 : Forall inrange (ip ++ [Z.shiftr acc 8; acc mod 256]))
    by (apply Forall_app; split; assumption).
  destruct (off =? 0)%nat; [discriminate|].
  destruct r as [|c r1]; [now intros [= _ <- _]|].
  destruct (Ascii.eqb_spec c ".") as [->|Hn1].
  { destruct (_ && _); [discriminate|]. destruct (_ <? _)%nat; [discriminate|].
    destruct (parseIPv4 s) as [f4|] eqn:E4; [|discriminate].
    intros [= _ <- _]. apply Forall_app. split; [assumption|].
    now destruct (parseIPv4_is4 _ _ E4). }
  destruct (Ascii.eqb_spec c ":") as [->|Hn2].
  { destruct r1 as [|c2 r2]; [discriminate|].
    destruct (Ascii.eqb_spec c2 ":") as [->|Hn3].
    - destruct e; [discriminate|].
      destruct r2; [now intros [= _ <- _]|]. now apply IH.
    - destruct c2 as [[] [] [] [] [] [] [] []]; try congruence;
        (apply IH; assumption). }
  destruct c as [[] [] [] [] [] [] [] []]; try congruence; discriminate.
Qed.

Lemma parseIPv6Tail_inrange s e ip :
  parseIPv6Tail s e = Some ip -> Forall inrange ip.
Proof.
  unfold parseIPv6Tail.
  destruct (parseIPv6Groups 8 s [] e) as [[[rest ip'] e']|] eqn:E; [|discriminate].
  apply parseIPv6Groups_inrange in E; [|constructor].
  destruct (negb _); [discriminate|].
  destruct (_ <? _)%nat; destruct e' as [k|]; try discriminate; intros [= <-];
    [|assumption].
  rewrite !Forall_app. split; [now apply Forall_take|].
  split; [|now apply Forall_drop].
  apply Forall_forall. intros x Hx. apply elem_of_replicate in Hx.
  destruct Hx as [-> _]. unfold inrange. lia.
Qed.

Lemma parseIPv6_inrange s ip : parseIPv6 s = Some ip -> Forall inrange ip.
Proof.
  unfold parseIPv6. destruct (GoStrings.Contains s "%"); [discriminate|].
  assert (Hz : Forall inrange (replicate 16 0)).
  { apply Forall_forall. intros x Hx. apply elem_of_replicate in Hx.
    destruct Hx as [-> _]. unfold inrange. lia. }
  destruct s as [|c1 s1]; [apply parseIPv6Tail_inrange|].
  destruct c1 as [[] [] [] [] [] [] [] []]; cbv beta iota;
    try apply parseIPv6Tail_inrange.
  destruct s1 as [|c2 s']; [apply parseIPv6Tail_inrange|].
  destruct c2 as [[] [] [] [] [] [] [] []]; cbv beta iota;
    try apply parseIPv6Tail_inrange.
  destruct s'; [now intros [= <-]|apply parseIPv6Tail_inrange].
Qed.

(** Every byte of an address [net.ParseIP] returns is below 256. *)
Lemma ParseIP_inrange s ip : ParseIP s = Some ip -> Forall inrange ip.
Proof.
  unfold ParseIP. destruct (familyOf s); [| |discriminate].
  - destruct (parseIPv4 s) as [f|] eqn:E; [|discriminate]. intros [= <-].
    destruct (parseIPv4_is4 _ _ E) as [_ Hf].
    unfold v4InV6Prefix. cbn [app]. repeat (constructor; [unfold inrange; lia|]).
    exact Hf.
  - apply parseIPv6_inrange.
Qed.

Lemma To4_inrange ip ip4 : To4 ip = Some ip4 -> Forall inrange ip -> Forall inrange ip4.
Proof.
  unfold To4. destruct (_ =? _)%nat; [now intros [= <-]|].
  destruct (_ && _); [|discriminate]. intros [= <-]. apply Forall_drop.
Qed.

Lemma ParseIP_To4_is4 s ip ip4 : ParseIP s = Some ip -> To4 ip = Some ip4 -> is4 ip4.
Proof.
  intros HP H4. split; [now apply To4_length in H4|].
  apply (To4_inrange _ _ H4). now apply ParseIP_inrange in HP.
Qed.

Lemma String_uint32ToIP n : String_ (uint32ToIP n) = dotted (bytes4 n).
Proof. reflexivity. Qed.

(** A range [A-B] of two addresses that have a four-byte form, however they
    are written, with [A <= B] and [B] below 255.255.255.255: given fuel for
    its addresses [ParseIPRange] returns the addresses from [A] to [B] in
    ascending order, each once, printed in dotted form by [GetIPs] and
    counted by [Count]. *)
Theorem range_expansion fuel s p0 p1 a b a4 b4 :
  GoStrings.Contains (TrimSpace s) "/" = false ->
  Split (TrimSpace s) "-" = [p0; p1] ->
  ParseIP (TrimSpace p0) = Some a -> ParseIP (TrimSpace p1) = Some b ->
  To4 a = Some a4 -> To4 b = Some b4 ->
  ipToUint32 a4 <= ipToUint32 b4 < 2 ^ 32 - 1 ->
  (Z.to_nat (ipToUint32 b4 - ipToUint32 a4 + 1) < fuel)%nat ->
  let numbers := seqZ (ipToUint32 a4) (ipToUint32 b4 - ipToUint32 a4 + 1) in
  exists r, ParseIPRange fuel s = Some (Ok r)
    /\ IPs r = map uint32ToIP numbers
    /\ GetIPs r = map (fun n => dotted (bytes4 n)) numbers
    /\ Count r = ipToUint32 b4 - ipToUint32 a4 + 1.
Proof.
  intros Hs Hsplit Ha Hb Ha4 Hb4 Hle Hfuel numbers. subst numbers.
  pose proof (ParseIP_To4_is4 _ _ _ Ha Ha4) as Ia.
  pose proof (ParseIP_To4_is4 _ _ _ Hb Hb4) as Ib.
  rewrite (ParseIPRange_range fuel s p0 p1 a b a4 b4) by assumption.
  rewrite !ipToUint32_val4 in * by assumption.
  pose proof (val4_range _ Ia).
  destruct (Z.ltb_spec (val4 b4) (val4 a4)); [lia|].
  rewrite (rangeLoop_below_max (Z.to_nat (val4 b4 - val4 a4 + 1))) by lia.
  cbn [app].
  replace (val4 b4 + 1 - val4 a4) with (val4 b4 - val4 a4 + 1) by lia.
  eexists. split; [reflexivity|]. split; [reflexivity|]. split.
  - unfold GetIPs. cbn [IPs]. rewrite map_map. reflexivity.
  - unfold Count. cbn [IPs]. rewrite length_map, length_seqZ. lia.
Qed.

Lemma range_expansion_witness :
  let s := " 10.0.0.254 - ::ffff:10.0.1.1 "%string in
  GoStrings.Contains (TrimSpace s) "/" = false
  /\ Split (TrimSpace s) "-" = ["10.0.0.254 "; " ::ffff:10.0.1.1"]%string
  /\ ParseIP (TrimSpace "10.0.0.254 ") = Some (IPv4 10 0 0 254)
  /\ ParseIP (TrimSpace " ::ffff:10.0.1.1") = Some (IPv4 10 0 1 1)
  /\ To4 (IPv4 10 0 0 254) = Some [10; 0; 0; 254]
  /\ To4 (IPv4 10 0 1 1) = Some [10; 0; 1; 1]
  /\ ipToUint32 [10; 0; 0; 254] <= ipToUint32 [10; 0; 1; 1] < 2 ^ 32 - 1
  /\ (Z.to_nat (ipToUint32 [10; 0; 1; 1]%Z - ipToUint32 [10; 0; 0; 254]%Z + 1) < 5)%nat
  /\ exists r, ParseIPRange 5 s = Some (Ok r)
       /\ IPs r = map uint32ToIP (seqZ (ipToUint32 [10; 0; 0; 254])
                    (ipToUint32 [10; 0; 1; 1] - ipToUint32 [10; 0; 0; 254] + 1))
       /\ GetIPs r = map (fun n => dotted (bytes4 n))
                       (seqZ (ipToUint32 [10; 0; 0; 254])
                          (ipToUint32 [10; 0; 1; 1] - ipToUint32 [10; 0; 0; 254] + 1))
       /\ Count r = ipToUint32 [10; 0; 1; 1] - ipToUint32 [10; 0; 0; 254] + 1.
Proof.
  intros s.
  assert (H1 : GoStrings.Contains (TrimSpace s) "/" = false) by reflexivity.
  assert (H2 : Split (TrimSpace s) "-" = ["10.0.0.254 "; " ::ffff:10.0.1.1"]%string)
    by reflexivity.
  assert (H3 : ParseIP (TrimSpace "10.0.0.254 ") = Some (IPv4 10 0 0 254)) by reflexivity.
  assert (H4 : ParseIP (TrimSpace " ::ffff:10.0.1.1") = Some (IPv4 10 0 1 1))
    by reflexivity.
  assert (H5 : To4 (IPv4 10 0 0 254) = Some [10; 0; 0; 254]) by reflexivity.
  assert (H6 : To4 (IPv4 10 0 1 1) = Some [10; 0; 1; 1]) by reflexivity.
  assert (H7 : ipToUint32 [10; 0; 0; 254] <= ipToUint32 [10; 0; 1; 1] < 2 ^ 32 - 1)
    by (vm_compute; split; [discriminate|reflexivity]).
  assert (H8 : (Z.to_nat (ipToUint32 [10; 0; 1; 1]%Z - ipToUint32 [10; 0; 0; 254]%Z + 1)
                < 5)%nat) by (vm_compute; lia).
  exact (conj H1 (conj H2 (conj H3 (conj H4 (conj H5 (conj H6 (conj H7 (conj H8
           (range_expansion 5 s _ _ _ _ _ _ H1 H2 H3 H4 H5 H6 H7 H8))))))))).
Defined.

(** Whatever the start address and however the two addresses are written,
    a range that ends at 255.255.255.255 never returns: the counter of the
    loop of [parseRange] wraps to zero and [ParseIPRange] runs out of any
    fuel. *)
Theorem range_to_last_address_never_returns fuel s p0 p1 a b a4 :
  GoStrings.Contains (TrimSpace s) "/" = false ->
  Split (TrimSpace s) "-" = [p0; p1] ->
  ParseIP (TrimSpace p0) = Some a -> ParseIP (TrimSpace p1) = Some b ->
  To4 a = Some a4 -> To4 b = Some [255; 255; 255; 255] ->
  ParseIPRange fuel s = None.
Proof.
  intros Hs Hsplit Ha Hb Ha4 Hb4.
  pose proof (ParseIP_To4_is4 _ _ _ Ha Ha4) as Ia.
  rewrite (ParseIPRange_range fuel s p0 p1 a b a4 [255; 255; 255; 255]) by assumption.
  rewrite (ipToUint32_val4 a4) by assumption.
  pose proof (val4_range _ Ia).
  change (ipToUint32 [255; 255; 255; 255]) with (2 ^ 32 - 1).
  destruct (Z.ltb_spec (2 ^ 32 - 1) (val4 a4)); [lia|].
  now rewrite rangeLoop_to_max.
Qed.

Lemma range_to_last_address_never_returns_witness :
  let s := "0.0.0.0-::ffff:ffff:ffff"%string in
  GoStrings.Contains (TrimSpace s) "/" = false
  /\ Split (TrimSpace s) "-" = ["0.0.0.0"; "::ffff:ffff:ffff"]%string
  /\ ParseIP (TrimSpace "0.0.0.0") = Some (IPv4 0 0 0 0)
  /\ ParseIP (TrimSpace "::ffff:ffff:ffff") = Some (IPv4 255 255 255 255)
  /\ To4 (IPv4 0 0 0 0) = Some [0; 0; 0; 0]
  /\ To4 (IPv4 255 255 255 255) = Some [255; 255; 255; 255]
  /\ ParseIPRange 1000 s = None.
Proof.
  intros s.
  assert (H1 : GoStrings.Contains (TrimSpace s) "/" = false) by reflexivity.
  assert (H2 : Split (TrimSpace s) "-" = ["0.0.0.0"; "::ffff:ffff:ffff"]%string)
    by reflexivity.
  assert (H3 : ParseIP (TrimSpace "0.0.0.0") = Some (IPv4 0 0 0 0)) by reflexivity.
  assert (H4 : ParseIP (TrimSpace "::ffff:ffff:ffff") = Some (IPv4 255 255 255 255))
    by reflexivity.
  assert (H5 : To4 (IPv4 0 0 0 0) = Some [0; 0; 0; 0]) by reflexivity.
  assert (H6 : To4 (IPv4 255 255 255 255) = Some [255; 255; 255; 255]) by reflexivity.
  exact (conj H1 (conj H2 (conj H3 (conj H4 (conj H5 (conj H6
           (range_to_last_address_never_returns 1000 s _ _ _ _ _ H1 H2 H3 H4 H5 H6))))))).
Defined.

(** *** Several ranges *)

Lemma expandAll_Ok fuel inputs :
  forall l, expandAll fuel inputs = Some (Ok l) ->
    (forall input, input ∈ inputs ->
       exists r1, ParseIPRange fuel input = Some (Ok r1)
                  /\ forall ip, ip ∈ IPs r1 -> ip ∈ l)
    /\ (forall ip, ip ∈ l ->
          exists input r1, input ∈ inputs
            /\ ParseIPRange fuel input = Some (Ok r1) /\ ip ∈ IPs r1).
Proof.
  induction inputs as [|input rest IH]; intros l; cbn [expandAll].
  - intros [= <-]. split.
    + intros input H. now apply not_elem_of_nil in H.
    + intros ip H. now apply not_elem_of_nil in H.
  - destruct (ParseIPRange fuel input) as [[r|e]|] eqn:E; [|discriminate..].
    destruct (expandAll fuel rest) as [[l'|e]|]; [|discriminate..].
    intros [= <-]. destruct (IH l' eq_refl) as [A B]. split.
    + intros i. rewrite elem_of_cons. intros [->|Hi].
      * exists r. split; [assumption|]. intros ip Hip. apply elem_of_app. now left.
      * destruct (A i Hi) as (r1 & E1 & H1). exists r1. split; [assumption|].
        intros ip Hip. apply elem_of_app. right. now apply H1.
    + intros ip. rewrite elem_of_app. intros [Hip|Hip].
      * exists input, r. split; [left|]. now split.
      * destruct (B ip Hip) as (i & r1 & Hi & E1 & H1).
        exists i, r1. split; [now right|]. now split.
Qed.

Lemma ParseMultipleRanges_dedupFirst fuel inputs r :
  ParseMultipleRanges fuel inputs = Some (Ok r) ->
  exists l, expandAll fuel inputs = Some (Ok l) /\ IPs r = dedupFirst l.
Proof.
  unfold ParseMultipleRanges. rewrite multiLoop_expandAll.
  destruct (expandAll fuel inputs) as [[l|e]|]; [|discriminate..].
  intros [= <-]. exists l. split; [reflexivity|]. cbn [IPs].
  rewrite (foldl_addUnseen l [] ∅ consistent_empty). cbn [app map].
  apply filter_all. intros x. apply not_elem_of_nil.
Qed.

(** The addresses [ParseMultipleRanges] returns print differently from one
    another: [GetIPs] lists no address twice. *)
Theorem multiple_ranges_no_duplicates fuel inputs r :
  ParseMultipleRanges fuel inputs = Some (Ok r) -> NoDup (GetIPs r).
Proof.
  intros H. destruct (ParseMultipleRanges_dedupFirst _ _ _ H) as (l & _ & E).
  unfold GetIPs. rewrite E. apply dedupFirst_NoDup.
Qed.

Lemma multiple_ranges_no_duplicates_witness :
  let inputs := ["192.168.1.0/30"; "192.168.1.2-192.168.1.4"; "192.168.1.1"]%string in
  let r := {| IPs := [[192; 168; 1; 0]; [192; 168; 1; 1]; [192; 168; 1; 2];
                      IPv4 192 168 1 3; IPv4 192 168 1 4] |} in
  ParseMultipleRanges 10 inputs = Some (Ok r) /\ NoDup (GetIPs r).
Proof.
  intros inputs r.
  assert (H : ParseMultipleRanges 10 inputs = Some (Ok r)) by (vm_compute; reflexivity).
  exact (conj H (multiple_ranges_no_duplicates 10 inputs r H)).
Defined.

(** When [ParseMultipleRanges] returns a range, every input has parsed,
    every address of the result is an address of the expansion of one of
    the inputs, and every address of such an expansion is printed in the
    result. *)
Theorem multiple_ranges_cover_inputs fuel inputs r :
  ParseMultipleRanges fuel inputs = Some (Ok r) ->
  (forall ip, ip ∈ IPs r ->
     exists input r1, input ∈ inputs
       /\ ParseIPRange fuel input = Some (Ok r1) /\ ip ∈ IPs r1)
  /\ (forall input, input ∈ inputs ->
        exists r1, ParseIPRange fuel input = Some (Ok r1)
                   /\ forall ip, ip ∈ IPs r1 -> String_ ip ∈ GetIPs r).
Proof.
  intros H. destruct (ParseMultipleRanges_dedupFirst _ _ _ H) as (l & El & E).
  destruct (expandAll_Ok _ _ _ El) as [A B]. split.
  - intros ip Hip. apply B. rewrite E in Hip.
    eapply elem_of_sublist; [exact Hip|apply dedupFirst_sublist].
  - intros input Hi. destruct (A input Hi) as (r1 & E1 & H1).
    exists r1. split; [assumption|]. intros ip Hip.
    destruct (dedupFirst_keeps l ip (H1 ip Hip)) as (y & Hy & Ey).
    unfold GetIPs. rewrite E, <- Ey. apply list_elem_of_In, in_map.
    now apply list_elem_of_In.
Qed.

Lemma multiple_ranges_cover_inputs_witness :
  let inputs := ["192.168.1.0/30"; "192.168.1.2-192.168.1.4"; "192.168.1.1"]%string in
  let r := {| IPs := [[192; 168; 1; 0]; [192; 168; 1; 1]; [192; 168; 1; 2];
                      IPv4 192 168 1 3; IPv4 192 168 1 4] |} in
  ParseMultipleRanges 10 inputs = Some (Ok r)
  /\ (forall ip, ip ∈ IPs r ->
        exists input r1, input ∈ inputs
          /\ ParseIPRange 10 input = Some (Ok r1) /\ ip ∈ IPs r1)
  /\ (forall input, input ∈ inputs ->
        exists r1, ParseIPRange 10 input = Some (Ok r1)
                   /\ forall ip, ip ∈ IPs r1 -> String_ ip ∈ GetIPs r).
Proof.
  intros inputs r.
  assert (H : ParseMultipleRanges 10 inputs = Some (Ok r)) by (vm_compute; reflexivity).
  exact (conj H (multiple_ranges_cover_inputs 10 inputs r H)).
Defined.

End ExpanderFacts.

(** ** Printing and parsing an address *)

Module PrintFacts.
Import GoStrings Net IPRange IPv4 RangeFacts Output.

(** What [parseIPv4Fields] does with a run of digits: the value and the
    number of digits it has read after them, [None] when it refuses one. *)
Fixpoint feed (s : string) (val : Z) (digLen : nat) : option (Z * nat) :=
  match s with
  | EmptyString => Some (val, digLen)
  | String c t =>
      if is_digit c then
        if (digLen =? 1)%nat && (val =? 0) then None
        else
          let val' := val * 10 + digit c in
          if 255 <? val' then None else feed t val' (S digLen)
      else None
  end.

Lemma parseIPv4Fields_feed s :
  forall first prevdot val digLen fields t v d,
    s <> EmptyString ->
    feed s val digLen = Some (v, d) ->
    parseIPv4Fields (s +:+ t) first prevdot val digLen fields
    = parseIPv4Fields t false false v d fields.
Proof.
  induction s as [|c s IH]; intros first prevdot val digLen fields t v d Hs;
    [congruence|].
  cbn [feed]. change (String c s +:+ t) with (String c (s +:+ t)).
  cbn [parseIPv4Fields].
  destruct (is_digit c); [|discriminate].
  destruct ((digLen =? 1)%nat && (val =? 0)); [discriminate|].
  destruct (255 <? val * 10 + digit c); [discriminate|].
  destruct s as [|c' s'].
  - cbn [feed]. now intros [= <- <-].
  - intros H. now apply IH.
Qed.

Definition digitsOnly (s : string) : bool :=
  forallb is_digit (list_ascii_of_string s).

Definition printsWell (b : Z) : bool :=
  match feed (decByte b) 0 0%nat with
  | Some (v, _) => (v =? b) && digitsOnly (decByte b)
                   && negb (String.eqb (decByte b) EmptyString)
  | None => false
  end.

Lemma bytes_print_well : forallb printsWell (seqZ 0 256) = true.
Proof. vm_compute. reflexivity. Qed.

Lemma decByte_feed b :
  inrange b ->
  decByte b <> EmptyString /\ digitsOnly (decByte b) = true
  /\ exists d, feed (decByte b) 0 0%nat = Some (b, d).
Proof.
  intros Hb. pose proof bytes_print_well as H. rewrite forallb_forall in H.
  assert (Hin : In b (seqZ 0 256)).
  { apply list_elem_of_In, elem_of_seqZ. unfold inrange in Hb. lia. }
  specialize (H b Hin). unfold printsWell in H.
  destruct (feed (decByte b) 0 0%nat) as [[v d]|]; [|discriminate].
  apply andb_prop in H. destruct H as [H H3]. apply andb_prop in H.
  destruct H as [H1 H2]. apply Z.eqb_eq in H1. subst v.
  split; [|split; [assumption|now exists d]].
  intros E. rewrite E in H3. discriminate.
Qed.

Lemma digit_not c x : is_digit c = true -> is_digit x = false -> Ascii.eqb c x = false.
Proof.
  intros H Hx. destruct (Ascii.eqb_spec c x) as [->|]; [congruence|reflexivity].
Qed.

Lemma digit_plain c :
  is_digit c = true ->
  Ascii.eqb c "." = false /\ Ascii.eqb c ":" = false /\ Ascii.eqb c "%" = false
  /\ Ascii.eqb c "/" = false /\ Ascii.eqb c "-" = false /\ isSpace c = false.
Proof.
  intros H.
  repeat (split; [apply digit_not; [assumption|reflexivity]|]).
  unfold is_digit in H. unfold isSpace. cbv zeta.
  apply andb_prop in H. destruct H as [H1 H2].
  apply Z.leb_le in H1. apply Z.leb_le in H2.
  destruct (Z.leb_spec 9 (code c)); destruct (Z.leb_spec (code c) 13);
    destruct (Z.eqb_spec (code c) 32); cbn; lia || reflexivity.
Qed.

(** The bytes of a printed IPv4 address: digits and dots. *)
Definition addressByte (c : ascii) : bool := is_digit c || Ascii.eqb c ".".

Definition addressText (s : string) : bool :=
  forallb addressByte (list_ascii_of_string s).

Lemma list_ascii_app a b :
  list_ascii_of_string (a +:+ b) = list_ascii_of_string a ++ list_ascii_of_string b.
Proof.
  induction a as [|c a IH]; [reflexivity|].
  change (String c a +:+ b) with (String c (a +:+ b)). cbn [list_ascii_of_string].
  now rewrite IH.
Qed.

Lemma addressText_app a b :
  addressText (a +:+ b) = addressText a && addressText b.
Proof. unfold addressText. now rewrite list_ascii_app, forallb_app. Qed.

Lemma digitsOnly_addressText s : digitsOnly s = true -> addressText s = true.
Proof.
  unfold digitsOnly, addressText. rewrite !forallb_forall. intros H c Hc.
  unfold addressByte. now rewrite (H c Hc).
Qed.

Lemma addressByte_plain c :
  addressByte c = true ->
  Ascii.eqb c "/" = false /\ Ascii.eqb c "-" = false /\ isSpace c = false.
Proof.
  unfold addressByte. intros H. apply orb_prop in H. destruct H as [H|H].
  - now destruct (digit_plain c H) as (_ & _ & _ & ? & ? & ?).
  - apply Ascii.eqb_eq in H. subst c. repeat split.
Qed.

Lemma addressText_Contains s sep :
  addressText s = true -> addressByte sep = false ->
  GoStrings.Contains s sep = false.
Proof.
  unfold addressText. induction s as [|c s IH]; [reflexivity|].
  cbn [list_ascii_of_string forallb GoStrings.Contains]. intros H Hsep.
  apply andb_prop in H. destruct H as [Hc Hs].
  destruct (Ascii.eqb_spec c sep) as [->|_]; [congruence|]. now apply IH.
Qed.

Lemma addressText_trimRight s : addressText s = true -> trimRight s = s.
Proof.
  unfold addressText. induction s as [|c s IH]; [reflexivity|].
  cbn [list_ascii_of_string forallb trimRight]. intros H.
  apply andb_prop in H. destruct H as [Hc Hs]. rewrite (IH Hs).
  destruct s; [|reflexivity].
  now destruct (addressByte_plain c Hc) as (_ & _ & ->).
Qed.

(** [TrimSpace] leaves a printed address alone. *)
Lemma addressText_TrimSpace s : addressText s = true -> TrimSpace s = s.
Proof.
  intros H. unfold TrimSpace.
  assert (E : trimLeft s = s).
  { destruct s as [|c s]; [reflexivity|]. cbn [trimLeft].
    unfold addressText in H. cbn [list_ascii_of_string forallb] in H.
    apply andb_prop in H. destruct H as [Hc _].
    now destruct (addressByte_plain c Hc) as (_ & _ & ->). }
  rewrite E. now apply addressText_trimRight.
Qed.

Lemma familyOf_digits s t :
  digitsOnly s = true -> familyOf (s +:+ String "." t) = FamV4.
Proof.
  unfold digitsOnly. induction s as [|c s IH]; [reflexivity|].
  cbn [list_ascii_of_string forallb]. intros H.
  apply andb_prop in H. destruct H as [Hc Hs].
  change (String c s +:+ String "." t) with (String c (s +:+ String "." t)).
  cbn [familyOf]. destruct (digit_plain c Hc) as (-> & -> & -> & _).
  now apply IH.
Qed.

Lemma Split_digits s t :
  digitsOnly s = true -> Split (s +:+ String "." t) "." = s :: Split t ".".
Proof.
  unfold digitsOnly. induction s as [|c s IH]; [reflexivity|].
  cbn [list_ascii_of_string forallb]. intros H.
  apply andb_prop in H. destruct H as [Hc Hs].
  change (String c s +:+ String "." t) with (String c (s +:+ String "." t)).
  cbn [Split]. destruct (digit_plain c Hc) as (-> & _). now rewrite (IH Hs).
Qed.

Lemma Split_digits_end s : digitsOnly s = true -> Split s "." = [s].
Proof.
  unfold digitsOnly. induction s as [|c s IH]; [reflexivity|].
  cbn [list_ascii_of_string forallb]. intros H.
  apply andb_prop in H. destruct H as [Hc Hs].
  cbn [Split]. destruct (digit_plain c Hc) as (-> & _). now rewrite (IH Hs).
Qed.

Lemma append_empty (s : string) : s +:+ EmptyString = s.
Proof.
  induction s as [|c s IH]; [reflexivity|].
  change (String c s +:+ EmptyString) with (String c (s +:+ EmptyString)).
  now rewrite IH.
Qed.

Section Printed.

Variables a b c d : Z.
Hypothesis Ha : inrange a.
Hypothesis Hb : inrange b.
Hypothesis Hc : inrange c.
Hypothesis Hd : inrange d.

Lemma dotted_unfold :
  dotted [a; b; c; d]
  = decByte a +:+ String "." (decByte b +:+ String "." (decByte c +:+ String "." (decByte d))).
Proof. reflexivity. Qed.

Lemma dotted_addressText : addressText (dotted [a; b; c; d]) = true.
Proof.
  destruct (decByte_feed a Ha) as (_ & Da & _).
  destruct (decByte_feed b Hb) as (_ & Db & _).
  destruct (decByte_feed c Hc) as (_ & Dc & _).
  destruct (decByte_feed d Hd) as (_ & Dd & _).
  assert (Dot : forall x, addressText (String "." x) = addressText x)
    by reflexivity.
  rewrite dotted_unfold.
  repeat rewrite addressText_app, Dot.
  now rewrite !digitsOnly_addressText.
Qed.

Lemma append_nonempty_l (s t : string) : s <> EmptyString -> s +:+ t <> EmptyString.
Proof. destruct s; [congruence|discriminate]. Qed.

Lemma parseIPv4_dotted : parseIPv4 (dotted [a; b; c; d]) = Some [a; b; c; d].
Proof.
  destruct (decByte_feed a Ha) as (Na & _ & da & Fa).
  destruct (decByte_feed b Hb) as (Nb & _ & db & Fb).
  destruct (decByte_feed c Hc) as (Nc & _ & dc & Fc).
  destruct (decByte_feed d Hd) as (Nd & _ & dd & Fd).
  rewrite dotted_unfold. unfold parseIPv4.
  assert (Dot : forall t v dl fields,
             t <> EmptyString -> (length fields < 3)%nat ->
             parseIPv4Fields (String "." t) false false v dl fields
             = parseIPv4Fields t false true 0 0%nat (fields ++ [v])).
  { intros t v dl fields Ht Hl. cbn [parseIPv4Fields].
    change (is_digit ".") with false. change (Ascii.eqb "." ".") with true.
    cbn [orb]. rewrite bool_decide_eq_false_2 by assumption. cbn [orb].
    destruct (Nat.eqb_spec (length fields) 3); [lia|reflexivity]. }
  rewrite (parseIPv4Fields_feed _ _ _ _ _ _ _ _ _ Na Fa).
  rewrite Dot by (try apply append_nonempty_l; cbn; auto; lia).
  rewrite (parseIPv4Fields_feed _ _ _ _ _ _ _ _ _ Nb Fb).
  rewrite Dot by (try apply append_nonempty_l; cbn; auto; lia).
  rewrite (parseIPv4Fields_feed _ _ _ _ _ _ _ _ _ Nc Fc).
  rewrite Dot by (cbn; auto; lia).
  rewrite <- (append_empty (decByte d)) at 1.
  pose proof (parseIPv4Fields_feed (decByte d) false true 0 0%nat
                ((([] ++ [a]) ++ [b]) ++ [c]) EmptyString d dd Nd Fd) as E.
  rewrite E. reflexivity.
Qed.

Lemma ParseIP_dotted : ParseIP (dotted [a; b; c; d]) = Some (IPv4 a b c d).
Proof.
  unfold ParseIP.
  destruct (decByte_feed a Ha) as (_ & Da & _).
  rewrite dotted_unfold at 1. rewrite (familyOf_digits _ _ Da).
  now rewrite parseIPv4_dotted.
Qed.

Lemma Split_dotted :
  Split (dotted [a; b; c; d]) "." = [decByte a; decByte b; decByte c; decByte d].
Proof.
  destruct (decByte_feed a Ha) as (_ & Da & _).
  destruct (decByte_feed b Hb) as (_ & Db & _).
  destruct (decByte_feed c Hc) as (_ & Dc & _).
  destruct (decByte_feed d Hd) as (_ & Dd & _).
  rewrite dotted_unfold.
  now rewrite !Split_digits, Split_digits_end by assumption.
Qed.

End Printed.

Lemma String_four a b c d : String_ [a; b; c; d] = dotted [a; b; c; d].
Proof. reflexivity. Qed.

Lemma String_IPv4 a b c d : String_ (IPv4 a b c d) = dotted [a; b; c; d].
Proof. reflexivity. Qed.

(** An IPv4 address as [GetIPs] prints it, whether the expander holds it
    in four bytes or in sixteen, is read back by [ParseIPRange] as that one
    address: printing and parsing are inverse to each other. *)
Theorem printed_address_parses_back fuel a b c d :
  0 <= a < 256 -> 0 <= b < 256 -> 0 <= c < 256 -> 0 <= d < 256 ->
  GetIPs {| IPs := [[a; b; c; d]; IPv4 a b c d] |}
  = [dotted [a; b; c; d]; dotted [a; b; c; d]]
  /\ ParseIPRange fuel (dotted [a; b; c; d]) = Some (Ok {| IPs := [IPv4 a b c d] |}).
Proof.
  intros Ha Hb Hc Hd. split; [reflexivity|].
  pose proof (dotted_addressText a b c d Ha Hb Hc Hd) as Ht.
  unfold ParseIPRange. rewrite (addressText_TrimSpace _ Ht).
  rewrite !(addressText_Contains _ _ Ht) by reflexivity.
  now rewrite ParseIP_dotted.
Qed.

Lemma printed_address_parses_back_witness :
  0 <= 10 < 256 /\ 0 <= 0 < 256 /\ 0 <= 200 < 256 /\ 0 <= 7 < 256
  /\ GetIPs {| IPs := [[10; 0; 200; 7]; IPv4 10 0 200 7] |}
     = [dotted [10; 0; 200; 7]; dotted [10; 0; 200; 7]]
  /\ ParseIPRange 0 (dotted [10; 0; 200; 7])
     = Some (Ok {| IPs := [IPv4 10 0 200 7] |}).
Proof.
  assert (H1 : 0 <= 10 < 256) by lia. assert (H2 : 0 <= 0 < 256) by lia.
  assert (H3 : 0 <= 200 < 256) by lia. assert (H4 : 0 <= 7 < 256) by lia.
  exact (conj H1 (conj H2 (conj H3 (conj H4
           (printed_address_parses_back 0 10 0 200 7 H1 H2 H3 H4))))).
Defined.

(** On a printed IPv4 address the two helpers of the summary table give
    the number of the address, by which the lines of a group are sorted,
    and the /24 block of its first three bytes, which names the group. *)
Theorem summary_keys_of_printed_address a b c d :
  0 <= a < 256 -> 0 <= b < 256 -> 0 <= c < 256 -> 0 <= d < 256 ->
  ipToInt (dotted [a; b; c; d]) = a * 2 ^ 24 + b * 2 ^ 16 + c * 2 ^ 8 + d
  /\ getSubnet24 (dotted [a; b; c; d])
     = (decByte a +:+ "." +:+ decByte b +:+ "." +:+ decByte c +:+ ".0/24")%string.
Proof.
  intros Ha Hb Hc Hd. split.
  - unfold ipToInt. rewrite (ParseIP_dotted a b c d Ha Hb Hc Hd).
    change (To4 (IPv4 a b c d)) with (Some [a; b; c; d]). cbv beta iota.
    assert (H4 : is4 [a; b; c; d]) by (split; [reflexivity|forall_bytes; assumption]).
    exact (ipToUint32_val4 _ H4).
  - unfold getSubnet24. now rewrite (Split_dotted a b c d Ha Hb Hc Hd).
Qed.

Lemma summary_keys_of_printed_address_witness :
  0 <= 10 < 256 /\ 0 <= 0 < 256 /\ 0 <= 200 < 256 /\ 0 <= 7 < 256
  /\ ipToInt (dotted [10; 0; 200; 7]) = 10 * 2 ^ 24 + 0 * 2 ^ 16 + 200 * 2 ^ 8 + 7
  /\ getSubnet24 (dotted [10; 0; 200; 7])
     = (decByte 10 +:+ "." +:+ decByte 0 +:+ "." +:+ decByte 200 +:+ ".0/24")%string.
Proof.
  assert (H1 : 0 <= 10 < 256) by lia. assert (H2 : 0 <= 0 < 256) by lia.
  assert (H3 : 0 <= 200 < 256) by lia. assert (H4 : 0 <= 7 < 256) by lia.
  exact (conj H1 (conj H2 (conj H3 (conj H4
           (summary_keys_of_printed_address 10 0 200 7 H1 H2 H3 H4))))).
Defined.

End PrintFacts.

(** ** Ports *)

Module PortFacts.
Import GoStrings Strconv IPRange.

Lemma digit_range c : is_digit c = true -> 0 <= digit c <= 9.
Proof. unfold is_digit, digit. lia. Qed.

Lemma atoiDigits_grows s :
  forall n v, 0 <= n -> atoiDigits s n = Some v -> n <= v.
Proof.
  induction s as [|c t IH]; intros n v Hn; cbn [atoiDigits].
  - intros [= <-]. lia.
  - destruct (is_digit c) eqn:Hd; [|discriminate].
    apply digit_range in Hd. intros H. apply IH in H; lia.
Qed.

(** The loop of [ParseUint] returns a number exactly when the loop of the
    fast path does and the number fits 64 bits. *)
Lemma parseUintLoop_atoiDigits s :
  forall n v, 0 <= n <= maxUint64 ->
    parseUintLoop s n = inl v <-> atoiDigits s n = Some v /\ v <= maxUint64.
Proof.
  unfold maxUint64.
  induction s as [|c t IH]; intros n v Hn; cbn [parseUintLoop atoiDigits].
  - split; [intros [= <-]; split; [reflexivity|lia]|intros [[= <-] _]; reflexivity].
  - destruct (is_digit c) eqn:Hd; cbn [negb];
      [|split; [discriminate|intros [? _]; discriminate]].
    pose proof (digit_range _ Hd) as Hr.
    change (maxUint64 / 10 + 1) with 1844674407370955162.
    change maxUint64 with 18446744073709551615.
    change (2 ^ 64 - 1) with 18446744073709551615 in *.
    destruct (Z.leb_spec 1844674407370955162 n) as [Hc|Hc].
    { split; [discriminate|]. intros [E Hv]. apply atoiDigits_grows in E; lia. }
    destruct (Z.ltb_spec 18446744073709551615 (n * 10 + digit c)) as [Hm|Hm].
    { split; [discriminate|]. intros [E Hv]. apply atoiDigits_grows in E; lia. }
    apply IH. lia.
Qed.

Lemma atoiDigits_sign c t n :
  (c = "-"%char \/ c = "+"%char) -> atoiDigits (String c t) n = None.
Proof. intros [-> | ->]; reflexivity. Qed.

(** The texts [Atoi] reads as a number from 1 to 65535: decimal digits,
    with a [+] in front or not. *)
Lemma Atoi_port s p :
  1 <= p <= 65535 ->
  Atoi s = inl p
  <-> exists d, d <> EmptyString /\ (s = d \/ s = String "+" d)
                /\ atoiDigits d 0 = Some p.
Proof.
  intros Hp. unfold Atoi. cbv zeta.
  destruct s as [|c t].
  { cbn. split; [discriminate|]. intros (d & Hd & [E|E] & _); congruence. }
  assert (Hneg : forall u, atoiDigits t 0 = Some u -> - u <> p).
  { intros u Hu. apply atoiDigits_grows in Hu; lia. }
  destruct ((0 <? String.length (String c t))%nat
            && (String.length (String c t) <? 19)%nat).
  - destruct (Ascii.eqb_spec c "-") as [->|Nm]; cbn [orb andb].
    + destruct (String.length t <? 1)%nat.
      * split; [discriminate|]. intros (d & Hd & [<-|[=]] & HD). discriminate.
      * destruct (atoiDigits t 0) as [n|] eqn:E.
        -- split; [intros [= H]; now apply Hneg in H|].
           intros (d & Hd & [<-|[=]] & HD). discriminate.
        -- split; [discriminate|]. intros (d & Hd & [<-|[=]] & HD). discriminate.
    + destruct (Ascii.eqb_spec c "+") as [->|Np]; cbn [orb andb].
      * destruct (Nat.ltb_spec (String.length t) 1) as [Hl|Hl].
        -- split; [discriminate|]. intros (d & Hd & [<-|[= <-]] & HD); [discriminate|].
           destruct t; [congruence|cbn in *; lia].
        -- destruct (atoiDigits t 0) as [n|] eqn:E.
           ++ split.
              ** intros [= ->]. exists t. split; [|split; [now right|assumption]].
                 intros ->. cbn in *. lia.
              ** intros (d & Hd & [<-|[= <-]] & HD); [discriminate|]. congruence.
           ++ split; [discriminate|].
              intros (d & Hd & [<-|[= <-]] & HD); [discriminate|congruence].
      * destruct (atoiDigits (String c t) 0) as [n|] eqn:E.
        -- split.
           ++ intros [= ->]. exists (String c t). split; [discriminate|].
              split; [now left|assumption].
           ++ intros (d & Hd & [<-|[= ? _]] & HD); congruence.
        -- split; [discriminate|].
           intros (d & Hd & [<-|[= ? _]] & HD); congruence.
  - unfold ParseInt. cbv zeta.
    destruct (Ascii.eqb_spec c "-") as [->|Nm]; cbn [orb andb negb].
    + change (Ascii.eqb "-" "+") with false. cbn [orb].
      split.
      * unfold ParseUint. destruct t as [|c2 t2]; [discriminate|].
        destruct (parseUintLoop (String c2 t2) 0) as [un|[]] eqn:E; try discriminate.
        apply parseUintLoop_atoiDigits in E; [|unfold maxUint64; lia].
        destruct E as [E _]. cbv zeta. destruct (_ <? _); [discriminate|].
        intros [= H]. now apply Hneg in H.
      * intros (d & Hd & [<-|[=]] & HD). discriminate.
    + assert (Hr : forall s', s' <> EmptyString ->
                (match ParseUint s' with
                 | inr ErrSyntax => inr ErrSyntax
                 | r => let un := match r with inl un => un | inr _ => maxUint64 end in
                        if 2 ^ 63 <=? un then inr ErrRange else inl un
                 end = inl p) <-> atoiDigits s' 0 = Some p).
      { intros s' Hs'. unfold ParseUint. destruct s' as [|c' t']; [congruence|].
        destruct (parseUintLoop (String c' t') 0) as [un|[]] eqn:E.
        - apply parseUintLoop_atoiDigits in E; [|unfold maxUint64; lia].
          destruct E as [E Hm]. cbv zeta. rewrite E.
          destruct (Z.leb_spec (2 ^ 63) un) as [Hu|Hu]; split; try discriminate.
          + intros [= ->]. lia.
          + intros [= ->]. reflexivity.
          + intros [= ->]. reflexivity.
        - split; [discriminate|]. intros H.
          assert (H' : parseUintLoop (String c' t') 0 = inl p).
          { apply parseUintLoop_atoiDigits; [unfold maxUint64; lia|].
            split; [assumption|unfold maxUint64; lia]. }
          congruence.
        - cbv zeta. change (2 ^ 63 <=? maxUint64) with true. cbn iota.
          split; [discriminate|]. intros H.
          assert (H' : parseUintLoop (String c' t') 0 = inl p).
          { apply parseUintLoop_atoiDigits; [unfold maxUint64; lia|].
            split; [assumption|unfold maxUint64; lia]. }
          congruence. }
      destruct (Ascii.eqb_spec c "+") as [->|Np]; cbn [orb andb negb].
      * destruct t as [|c2 t2].
        { cbn. split; [discriminate|].
          intros (d & Hd & [<-|[= <-]] & HD); [discriminate|congruence]. }
        rewrite Hr by discriminate. split.
        -- intros H. exists (String c2 t2). split; [discriminate|]. split; [now right|assumption].
        -- intros (d & Hd & [<-|[= <-]] & HD); [discriminate|assumption].
      * rewrite Hr by discriminate. split.
        -- intros H. exists (String c t). split; [discriminate|]. split; [now left|assumption].
        -- intros (d & Hd & [<-|[= ? _]] & HD); congruence.
Qed.

(** [ParsePort] accepts the empty text, for the port 4028, and the decimal
    numerals of the ports from 1 to 65535, with or without a [+] in front and
    with any number of zeros before the first digit; it accepts nothing
    else, and returns no port outside 1..65535. *)
Theorem ParsePort_accepts Quote s p :
  ParsePort Quote s = Ok p
  <-> (s = EmptyString /\ p = 4028)
      \/ (1 <= p <= 65535
          /\ exists d, d <> EmptyString /\ (s = d \/ s = String "+" d)
                       /\ atoiDigits d 0 = Some p).
Proof.
  unfold ParsePort. destruct (String.eqb_spec s EmptyString) as [->|Hs].
  - split.
    + intros [= <-]. now left.
    + intros [[_ ->]|(_ & d & Hd & [E|E] & _)]; [reflexivity|congruence|discriminate].
  - split.
    + destruct (Atoi s) as [port|err] eqn:E; [|discriminate].
      destruct (Z.ltb_spec port 1) as [H1|H1]; [discriminate|].
      destruct (Z.ltb_spec 65535 port) as [H2|H2]; [discriminate|].
      cbn [orb]. intros [= <-]. right. split; [lia|].
      apply Atoi_port; [lia|assumption].
    + intros [[-> _]|(Hp & Hd)]; [congruence|].
      apply Atoi_port in Hd; [|assumption]. rewrite Hd.
      destruct (Z.ltb_spec p 1) as [H1|H1]; [lia|].
      destruct (Z.ltb_spec 65535 p) as [H2|H2]; [lia|]. reflexivity.
Qed.

Lemma pretty_N_char_digit d :
  (d < 10)%N ->
  is_digit (pretty_N_char d) = true /\ digit (pretty_N_char d) = Z.of_N d.
Proof.
  intros Hd.
  assert (H : (d = 0 \/ d = 1 \/ d = 2 \/ d = 3 \/ d = 4 \/ d = 5 \/ d = 6
              \/ d = 7 \/ d = 8 \/ d = 9)%N) by lia.
  repeat (destruct H as [->|H]; [split; reflexivity|]). subst d. split; reflexivity.
Qed.

(** Reading the decimal digits [pretty_N_go] puts in front of a text adds
    the number they print. *)
Lemma atoiDigits_pretty_N_go x :
  exists m, forall s n,
    atoiDigits (pretty_N_go x s) n = atoiDigits s (n * m + Z.of_N x).
Proof.
  induction (N.lt_wf_0 x) as [x _ IH].
  destruct (N.eq_dec x 0%N) as [->|Hx].
  - exists 1. intros s n. rewrite pretty_N_go_0. f_equal. lia.
  - destruct (IH (x `div` 10)%N) as [m Hm]; [apply N.div_lt; lia|].
    exists (m * 10). intros s n. rewrite pretty_N_go_step by lia. rewrite Hm.
    cbn [atoiDigits].
    destruct (pretty_N_char_digit (x `mod` 10)%N) as [-> ->];
      [apply N.mod_lt; lia|].
    f_equal. rewrite (N.div_mod x 10) at 3 by lia.
    rewrite N2Z.inj_add, N2Z.inj_mul. change (Z.of_N 10) with 10. lia.
Qed.

Lemma atoiDigits_pretty p : 0 < p -> atoiDigits (pretty p) 0 = Some p.
Proof.
  destruct p as [|q|q]; try lia. intros _.
  change (pretty (Z.pos q)) with (pretty_N_go (N.pos q) EmptyString).
  destruct (atoiDigits_pretty_N_go (N.pos q)) as [m ->]. reflexivity.
Qed.

(** Every port from 1 to 65535, printed in decimal, is read back by
    [ParsePort] as itself. *)
Theorem ParsePort_decimal Quote p :
  1 <= p <= 65535 -> ParsePort Quote (pretty p) = Ok p.
Proof.
  intros Hp. pose proof (atoiDigits_pretty p ltac:(lia)) as Hd.
  assert (Hn : pretty p <> EmptyString) by (intros E; rewrite E in Hd; cbn in Hd; injection Hd; lia).
  unfold ParsePort. destruct (String.eqb_spec (pretty p) EmptyString) as [E|_]; [congruence|].
  assert (Ha : Atoi (pretty p) = inl p).
  { apply Atoi_port; [assumption|]. exists (pretty p). split; [assumption|].
    split; [now left|assumption]. }
  rewrite Ha.
  destruct (Z.ltb_spec p 1) as [H1|H1]; [lia|].
  destruct (Z.ltb_spec 65535 p) as [H2|H2]; [lia|]. reflexivity.
Qed.

Lemma ParsePort_decimal_witness :
  1 <= 4028 <= 65535 /\ ParsePort (fun s => s) (pretty 4028) = Ok 4028.
Proof.
  assert (H : 1 <= 4028 <= 65535) by lia.
  exact (conj H (ParsePort_decimal (fun s => s) 4028 H)).
Defined.

End PortFacts.

(** ** More on the dispatcher *)

Module ClientFacts.
Import Client JobFacts RunFacts.

(** *** The commands *)

(** The commands [GetAvailableCommands] lists are the ones
    [GetCommandDescription] describes: the description of a command is empty
    exactly when the command is not listed, and no command is listed
    twice. *)
Theorem described_commands_are_the_available_ones :
  (forall cmd, cmd ∈ GetAvailableCommands <-> GetCommandDescription cmd <> EmptyString)
  /\ NoDup GetAvailableCommands.
Proof.
  split.
  - intros cmd. split.
    + unfold GetAvailableCommands. rewrite !elem_of_cons.
      intros H; repeat (destruct H as [->|H]; [discriminate|]).
      now apply not_elem_of_nil in H.
    + unfold GetCommandDescription.
      destruct (descriptions !! cmd) as [d|] eqn:E; [|intros H; now contradiction H].
      intros _. apply elem_of_list_to_map_2 in E.
      rewrite !elem_of_cons in E.
      repeat (destruct E as [[= -> _]|E];
              [unfold GetAvailableCommands;
               repeat (first [apply list_elem_of_here | apply list_elem_of_further])|]).
      now apply not_elem_of_nil in E.
  - apply (bool_decide_unpack _). vm_compute. reflexivity.
Qed.

(** A command that is not listed is answered without asking the miner:
    whatever the miner, the parameters and the clock, [executeJob] returns
    the error of the [default] case and no response. *)
Theorem unlisted_command_is_refused c w j :
  command j ∉ GetAvailableCommands ->
  executeJob c w j
  = Returned {| IP := ip j; Port := port j; Command := command j;
                Response := ANil; Error := "unknown command: " +:+ command j;
                Duration := DurationString (elapsed w) |}.
Proof. intros Hn. unfold executeJob. now rewrite dispatch_unknown. Qed.

Lemma unlisted_command_is_refused_witness :
  let c := NewClient 1000000000 1 in
  let j := {| ip := "192.168.1.1"; port := 4028; command := "reboot"; params := ∅ |} in
  (command j ∉ GetAvailableCommands)
  /\ executeJob c offline j
     = Returned {| IP := "192.168.1.1"; Port := 4028; Command := "reboot";
                   Response := ANil; Error := "unknown command: reboot";
                   Duration := "0s" |}.
Proof.
  intros c j.
  assert (H : command j ∉ GetAvailableCommands).
  { unfold GetAvailableCommands. cbn [command j]. rewrite !elem_of_cons.
    intros H; repeat (destruct H as [H|H]; [discriminate|]).
    now apply not_elem_of_nil in H. }
  exact (conj H (unlisted_command_is_refused c offline j H)).
Defined.

(** *** When a job panics *)

Definition poolCommands : list string :=
  ["switchpool"; "enablepool"; "disablepool"; "removepool"]%string.

Lemma acted_returns e done : exists v, acted e done = Returned v.
Proof. destruct e; cbn; eauto. Qed.

Lemma poolCommand_panics miner j act done name msg :
  poolCommand miner j act done name = Panicked msg
  <-> exists poolID pools,
        params j !! "pool"%string = Some (AInt poolID) /\ poolID < 0
        /\ Pools miner = Ok pools
        /\ msg = ("runtime error: index out of range [" +:+ pretty poolID +:+ "]")%string.
Proof.
  split.
  - unfold poolCommand.
    destruct (params j !! "pool"%string) as [[| poolID | |]|] eqn:Hp; try discriminate.
    destruct (Pools miner) as [pools|e] eqn:HP; [|discriminate].
    destruct (Z.ltb_spec poolID (Z.of_nat (length pools))) as [Hl|Hl]; [|discriminate].
    destruct (Z.ltb_spec poolID 0) as [Hn|Hn].
    + intros [= <-]. exists poolID, pools. auto.
    + destruct (pools !! Z.to_nat poolID) eqn:El.
      * destruct (acted_returns (act p) done) as [v ->]. discriminate.
      * apply lookup_ge_None in El. lia.
  - intros (poolID & pools & Hp & Hn & HP & ->).
    now apply poolCommand_negative with (pools := pools).
Qed.

Lemma dispatch_panics w miner j msg :
  dispatch w miner j = Panicked msg
  <-> command j ∈ poolCommands
      /\ exists poolID pools,
           params j !! "pool"%string = Some (AInt poolID) /\ poolID < 0
           /\ Pools miner = Ok pools
           /\ msg = ("runtime error: index out of range ["
                     +:+ pretty poolID +:+ "]")%string.
Proof.
  split.
  - unfold dispatch, called.
    repeat match goal with
           | |- context [String.eqb (command j) ?s] =>
               destruct (String.eqb_spec (command j) s) as [E|_]
           end;
      try (intros H; apply poolCommand_panics in H; split; [|exact H];
           rewrite E; unfold poolCommands;
           repeat (first [apply list_elem_of_here | apply list_elem_of_further]));
      repeat match goal with
             | |- context [acted ?e ?d] =>
                 destruct (acted_returns e d) as [? ->]
             | |- context [match ?x with _ => _ end] => destruct x
             end; discriminate.
  - intros (Hc & H).
    unfold poolCommands in Hc. rewrite !elem_of_cons in Hc. unfold dispatch.
    destruct Hc as [E|[E|[E|[E|E]]]]; [..|now apply not_elem_of_nil in E];
      rewrite E; cbn [String.eqb Ascii.eqb Bool.eqb]; apply poolCommand_panics;
      exact H.
Qed.


(** *** The channels and the length of a run *)

Section Run.

Variable c : Client.
Variable run_port : Z.
Variable run_command : string.
Variable run_params : gmap string any.

Local Abbreviation step := (step c run_port run_command run_params).
Local Abbreviation steps := (steps c run_port run_command run_params).
Local Abbreviation init := (init c).

(** Neither channel ever holds more than it has room for: in every state
    of a run the jobs in [jobs] and the results in [results] are together at
    most as many as the addresses, the capacity of either channel, so that
    no worker and no send of the main goroutine waits for room. *)
Theorem channels_never_overflow ips cancelled s :
  steps (init ips cancelled) s ->
  (length (jobs s) + length (results s) + length (pending s) <= length ips)%nat.
Proof.
  intros Hrun.
  assert (Hc : covers run_port run_command run_params
                 (fun _ : Result => tt) (fun _ : job => tt) ips s).
  { revert s Hrun. apply run_invariant; [apply covers_init|].
    intros s1 s2 Hst Hc.
    apply (covers_step c run_port run_command run_params
             (fun _ : Result => tt) (fun _ : job => tt)) with (s := s1);
      auto. }
  unfold covers in Hc. apply Permutation_length in Hc.
  rewrite !length_app, !length_map in Hc. lia.
Qed.

Lemma nsteps_measure n s s' :
  nsteps step n s s' -> (n + measure s' <= measure s)%nat.
Proof.
  induction 1 as [|n x y z Hxy _ IH]; [lia|].
  apply step_measure in Hxy. lia.
Qed.

Lemma poolWeight_waiting n : poolWeight (replicate n WWait) = n.
Proof. induction n as [|n IH]; cbn; [reflexivity|now rewrite IH]. Qed.

(** A run is short: from the start of [ExecuteCommand] no sequence of
    transitions is longer than four per address plus one per worker plus
    three, whatever the miners answer and whenever the context is
    cancelled. *)
Theorem run_length_bounded ips cancelled n s :
  nsteps step n (init ips cancelled) s ->
  (n <= 4 * length ips + Z.to_nat (workers c) + 3)%nat.
Proof.
  intros H. apply nsteps_measure in H.
  assert (Hm : (measure (init ips cancelled)
                <= 4 * length ips + Z.to_nat (workers c) + 3)%nat).
  { unfold measure, Client.init.
    cbn [pending jobs jobsClosed pool results done attempted crashed].
    rewrite poolWeight_waiting. cbn [length]. destruct cancelled; lia. }
  lia.
Qed.

End Run.

(** The run of [summary] on one address by one worker, the miner being
    unreachable: the address is sent, [jobs] is closed, the worker takes the
    job, executes it and leaves. *)
Definition oneRefused : state :=
  {| pending := []; jobs := []; jobsClosed := true; pool := [WExited];
     results := [{| IP := "192.168.1.1"; Port := 4028; Command := "summary";
                    Response := ANil; Error := "connection refused";
                    Duration := "0s" |}];
     done := false;
     attempted := [mkJob 4028 "summary" ∅ "192.168.1.1"]; crashed := false |}.

Lemma oneRefused_reached :
  let c := NewClient 1000000000 1 in
  nsteps (step c 4028 "summary" ∅) 5 (init c ["192.168.1.1"%string] false) oneRefused.
Proof.
  intros c. vm_compute.
  eapply nsteps_l; [eapply step_send; reflexivity|vm_compute].
  eapply nsteps_l; [eapply step_close; reflexivity|vm_compute].
  eapply nsteps_l; [eapply step_receive with (i := 0%nat); reflexivity|vm_compute].
  eapply nsteps_l;
    [eapply step_execute with (i := 0%nat) (w := offline); vm_compute; reflexivity
    |vm_compute].
  eapply nsteps_l; [eapply step_exit with (i := 0%nat); reflexivity|vm_compute].
  apply nsteps_O.
Qed.

Lemma oneRefused_run :
  let c := NewClient 1000000000 1 in
  steps c 4028 "summary" ∅ (init c ["192.168.1.1"%string] false) oneRefused.
Proof. intros c. eapply rtc_nsteps_2. apply oneRefused_reached. Qed.

Lemma channels_never_overflow_witness :
  let c := NewClient 1000000000 1 in
  steps c 4028 "summary" ∅ (init c ["192.168.1.1"%string] false) oneRefused
  /\ (length (jobs oneRefused) + length (results oneRefused)
      + length (pending oneRefused) <= length ["192.168.1.1"%string])%nat.
Proof.
  intros c.
  exact (conj oneRefused_run
           (channels_never_overflow c 4028 "summary" ∅ _ false oneRefused
              oneRefused_run)).
Defined.

Lemma run_length_bounded_witness :
  let c := NewClient 1000000000 1 in
  nsteps (step c 4028 "summary" ∅) 5 (init c ["192.168.1.1"%string] false) oneRefused
  /\ (5 <= 4 * length ["192.168.1.1"%string] + Z.to_nat (workers c) + 3)%nat.
Proof.
  intros c.
  exact (conj oneRefused_reached
           (run_length_bounded c 4028 "summary" ∅ _ false 5 oneRefused
              oneRefused_reached)).
Defined.

(** *** Runs with a valid pool number *)



End ClientFacts.

(** ** The command line *)

Module CmdFacts.
Import GoStrings Net IPRange Client JobFacts RunFacts Dispatcher ClientFacts.

Lemma wrap64_small z : - 2 ^ 63 <= z < 2 ^ 63 -> Cmd.wrap64 z = z.
Proof.
  intros Hz. unfold Cmd.wrap64. rewrite Z.mod_small; lia.
Qed.

Lemma executeCommand_parsed fuel fl command r :
  Cmd.ipRanges fl <> [] ->
  ParseMultipleRanges fuel (Cmd.ipRanges fl) = Some (Ok r) ->
  IPs r <> [] ->
  Cmd.executeCommand fuel fl command
  = match Cmd.runTimeout fl (Z.of_nat (length (IPs r))) with
    | Panicked msg => Some (Panicked msg)
    | Returned d =>
        Some (Returned (Ok
          {| Cmd.ctxTimeout := d;
             Cmd.cgClient := NewClient (Cmd.wrap64 (Cmd.timeout fl * Cmd.Second))
                               (Cmd.workers fl);
             Cmd.ips := GetIPs r; Cmd.call_port := Cmd.port fl;
             Cmd.call_command := command;
             Cmd.call_params := Cmd.commandParams fl command |}))
    end.
Proof.
  intros Hn HP Hr. unfold Cmd.executeCommand.
  destruct (Cmd.ipRanges fl) as [|x l] eqn:E; [congruence|].
  cbn [length Nat.eqb]. rewrite HP. unfold GetIPs at 1. rewrite length_map.
  destruct (IPs r) as [|y l'] eqn:E'; [congruence|].
  cbn [length Nat.eqb]. unfold GetIPs. rewrite E', length_map. reflexivity.
Qed.

(** With [--workers 0] the command line never reaches the dispatcher:
    whenever the ranges expand to at least one address, [executeCommand]
    panics on the division [len(ips)/workers], before [NewClient] could
    replace the zero by ten workers. *)
Theorem zero_workers_panics fuel fl command r :
  Cmd.workers fl = 0 ->
  Cmd.ipRanges fl <> [] ->
  ParseMultipleRanges fuel (Cmd.ipRanges fl) = Some (Ok r) ->
  IPs r <> [] ->
  Cmd.executeCommand fuel fl command
  = Some (Panicked "runtime error: integer divide by zero").
Proof.
  intros Hw Hn HP Hr. rewrite (executeCommand_parsed _ _ _ r) by assumption.
  unfold Cmd.runTimeout. rewrite Hw. reflexivity.
Qed.

Definition someFlags (w pool : Z) : Cmd.flags :=
  {| Cmd.ipRanges := ["192.168.1.1-192.168.1.3"%string]; Cmd.port := 4028;
     Cmd.timeout := 2; Cmd.workers := w; Cmd.poolID := pool;
     Cmd.poolURL := EmptyString; Cmd.poolUser := EmptyString;
     Cmd.poolPass := EmptyString; Cmd.customCmd := EmptyString |}.

Definition threeAddresses : IPRange :=
  {| IPs := [IPv4 192 168 1 1; IPv4 192 168 1 2; IPv4 192 168 1 3] |}.

Lemma someFlags_parsed w pool :
  ParseMultipleRanges 10 (Cmd.ipRanges (someFlags w pool)) = Some (Ok threeAddresses).
Proof. vm_compute. reflexivity. Qed.

Lemma zero_workers_panics_witness :
  let fl := someFlags 0 0 in
  Cmd.workers fl = 0
  /\ Cmd.ipRanges fl <> []
  /\ ParseMultipleRanges 10 (Cmd.ipRanges fl) = Some (Ok threeAddresses)
  /\ IPs threeAddresses <> []
  /\ Cmd.executeCommand 10 fl "summary"
     = Some (Panicked "runtime error: integer divide by zero").
Proof.
  intros fl.
  assert (H1 : Cmd.workers fl = 0) by reflexivity.
  assert (H2 : Cmd.ipRanges fl <> []) by discriminate.
  assert (H3 : IPs threeAddresses <> []) by discriminate.
  exact (conj H1 (conj H2 (conj (someFlags_parsed 0 0) (conj H3
           (zero_workers_panics 10 fl "summary" threeAddresses H1 H2
              (someFlags_parsed 0 0) H3))))).
Defined.

(** With a positive number of workers and a positive timeout (small enough
    for the product not to overflow), the context of the run gets the
    per-connection timeout once for every round of [workers] jobs and once
    more: the rounds the allowance pays for are enough for all the
    addresses, the context is not done when the run starts, and the client
    has the workers and the timeout of the flags. *)
Theorem positive_workers_allowance fuel fl command r :
  0 < Cmd.workers fl -> 0 < Cmd.timeout fl ->
  Cmd.ipRanges fl <> [] ->
  ParseMultipleRanges fuel (Cmd.ipRanges fl) = Some (Ok r) ->
  IPs r <> [] ->
  Cmd.timeout fl * Cmd.Second * (Z.of_nat (length (IPs r)) + 1) < 2 ^ 63 ->
  exists c, Cmd.executeCommand fuel fl command = Some (Returned (Ok c))
    /\ Cmd.ctxTimeout c
       = Cmd.timeout fl * Cmd.Second
         * (Z.of_nat (length (IPs r)) / Cmd.workers fl + 1)
    /\ Z.of_nat (length (IPs r))
       < Cmd.workers fl * (Z.of_nat (length (IPs r)) / Cmd.workers fl + 1)
    /\ Cmd.start c = init (Cmd.cgClient c) (GetIPs r) false
    /\ workers (Cmd.cgClient c) = Cmd.workers fl
    /\ timeout (Cmd.cgClient c) = Cmd.timeout fl * Cmd.Second.
Proof.
  intros Hw Ht Hn HP Hr Hb. rewrite (executeCommand_parsed _ _ _ r) by assumption.
  unfold Cmd.runTimeout. destruct (Z.eqb_spec (Cmd.workers fl) 0) as [E|_]; [lia|].
  set (n := Z.of_nat (length (IPs r))) in *.
  assert (Hn0 : 0 <= n) by (subst n; lia).
  assert (Hs : 0 < Cmd.Second) by reflexivity.
  rewrite Z.quot_div_nonneg by lia.
  assert (Hq : 0 <= n / Cmd.workers fl <= n).
  { split; [apply Z.div_pos; lia|]. apply Z.div_le_upper_bound; nia. }
  assert (Hts : 0 < Cmd.timeout fl * Cmd.Second) by nia.
  assert (Hm : Cmd.timeout fl * Cmd.Second * (n / Cmd.workers fl + 1)
               <= Cmd.timeout fl * Cmd.Second * (n + 1)) by nia.
  assert (H63 : 0 < 2 ^ 63) by reflexivity.
  rewrite (wrap64_small (Cmd.timeout fl * Cmd.Second)) by nia.
  rewrite (wrap64_small (n / Cmd.workers fl + 1)) by nia.
  rewrite wrap64_small by nia.
  eexists. split; [reflexivity|]. cbn [Cmd.ctxTimeout Cmd.cgClient].
  split; [reflexivity|]. split.
  { pose proof (Z.mul_succ_div_gt n (Cmd.workers fl) Hw). lia. }
  split.
  { unfold Cmd.start. cbn [Cmd.ctxTimeout Cmd.cgClient Cmd.ips].
    destruct (Z.leb_spec (Cmd.timeout fl * Cmd.Second * (n / Cmd.workers fl + 1)) 0);
      [nia|reflexivity]. }
  unfold NewClient. cbn [workers timeout].
  destruct (Z.leb_spec (Cmd.workers fl) 0); [lia|]. split; reflexivity.
Qed.

Lemma positive_workers_allowance_witness :
  let fl := someFlags 2 0 in
  0 < Cmd.workers fl /\ 0 < Cmd.timeout fl
  /\ Cmd.ipRanges fl <> []
  /\ ParseMultipleRanges 10 (Cmd.ipRanges fl) = Some (Ok threeAddresses)
  /\ IPs threeAddresses <> []
  /\ Cmd.timeout fl * Cmd.Second * (Z.of_nat (length (IPs threeAddresses)) + 1) < 2 ^ 63
  /\ exists c, Cmd.executeCommand 10 fl "summary" = Some (Returned (Ok c))
       /\ Cmd.ctxTimeout c
          = Cmd.timeout fl * Cmd.Second
            * (Z.of_nat (length (IPs threeAddresses)) / Cmd.workers fl + 1)
       /\ Z.of_nat (length (IPs threeAddresses))
          < Cmd.workers fl
            * (Z.of_nat (length (IPs threeAddresses)) / Cmd.workers fl + 1)
       /\ Cmd.start c = init (Cmd.cgClient c) (GetIPs threeAddresses) false
       /\ workers (Cmd.cgClient c) = Cmd.workers fl
       /\ timeout (Cmd.cgClient c) = Cmd.timeout fl * Cmd.Second.
Proof.
  intros fl.
  assert (H1 : 0 < Cmd.workers fl) by reflexivity.
  assert (H2 : 0 < Cmd.timeout fl) by reflexivity.
  assert (H3 : Cmd.ipRanges fl <> []) by discriminate.
  assert (H4 : IPs threeAddresses <> []) by discriminate.
  assert (H5 : Cmd.timeout fl * Cmd.Second
               * (Z.of_nat (length (IPs threeAddresses)) + 1) < 2 ^ 63)
    by (vm_compute; reflexivity).
  exact (conj H1 (conj H2 (conj H3 (conj (someFlags_parsed 2 0) (conj H4 (conj H5
           (positive_workers_allowance 10 fl "summary" threeAddresses H1 H2 H3
              (someFlags_parsed 2 0) H4 H5))))))).
Defined.



Lemma commandParams_pool fl command :
  command ∈ poolCommands ->
  Cmd.commandParams fl command = <["pool"%string := AInt (Cmd.poolID fl)]> ∅.
Proof.
  unfold poolCommands. rewrite !elem_of_cons.
  intros [->|[->|[->|[->|H]]]]; [reflexivity..|now apply not_elem_of_nil in H].
Qed.

(** A job of the command line panics exactly when the command is one of
    the four pool commands, [--pool] is negative and the miner has answered
    the [pools] request: one answering miner then ends the whole run. *)
Theorem cli_job_panics_iff fl command c w a msg :
  executeJob c w (mkJob (Cmd.port fl) command (Cmd.commandParams fl command) a)
  = Panicked msg
  <-> command ∈ poolCommands /\ Cmd.poolID fl < 0
      /\ exists pools,
           Pools (NewCGMiner w a (Cmd.port fl) (timeout c)) = Ok pools
           /\ msg = ("runtime error: index out of range ["
                     +:+ pretty (Cmd.poolID fl) +:+ "]")%string.
Proof.
  set (j := mkJob (Cmd.port fl) command (Cmd.commandParams fl command) a).
  assert (D : executeJob c w j = Panicked msg
              <-> dispatch w (NewCGMiner w a (Cmd.port fl) (timeout c)) j
                  = Panicked msg).
  { unfold executeJob. cbn [Client.ip Client.port j mkJob].
    destruct (dispatch w _ j) as [[response err]|m].
    - split; discriminate.
    - split; intros [= ->]; reflexivity. }
  rewrite D, dispatch_panics.
  cbn [Client.command Client.params j mkJob]. split.
  - intros (Hc & poolID & pools & Hp & Hneg & HP & ->).
    rewrite (commandParams_pool fl command Hc), lookup_insert_eq in Hp.
    injection Hp as <-. split; [assumption|]. split; [assumption|]. eauto.
  - intros (Hc & Hneg & pools & HP & ->). split; [assumption|].
    exists (Cmd.poolID fl), pools.
    rewrite (commandParams_pool fl command Hc), lookup_insert_eq. auto.
Qed.

End CmdFacts.

(** ** The formatters *)

Module OutputFacts.
Import GoStrings Net Client Output.

(** *** The table *)

Definition succeeded (r : Result) : Prop := Error r = EmptyString.

Lemma foldl_count results :
  forall s e,
    foldl count (s, e) results
    = (s + Z.of_nat (length (filter succeeded results)),
       e + Z.of_nat (length results) - Z.of_nat (length (filter succeeded results))).
Proof.
  induction results as [|r l IH]; intros s e.
  - cbn [foldl]. rewrite filter_nil. cbn [length]. f_equal; lia.
  - cbn [foldl count].
    destruct (String.eqb_spec (Error r) EmptyString) as [E|N].
    + rewrite IH, filter_cons_True by exact E. cbn [length]. f_equal; lia.
    + rewrite IH, filter_cons_False by exact N. cbn [length]. f_equal; lia.
Qed.

Lemma length_omap_formatLine jm f results :
  length (omap (formatLine jm f) results)
  = if Verbose f then length results else length (filter succeeded results).
Proof.
  induction results as [|r l IH]; [now destruct (Verbose f)|].
  cbn [omap list_omap]. unfold formatLine at 1.
  fold (@omap list _ _ _ (formatLine jm f) l).
  destruct (String.eqb_spec (Error r) EmptyString) as [E|N]; cbn [negb andb].
  - rewrite filter_cons_True by exact E.
    cbn [length]. rewrite IH. now destruct (Verbose f).
  - rewrite filter_cons_False by exact N.
    destruct (Verbose f); cbn [negb length]; now rewrite IH.
Qed.

(** The numbers of the summary line of the table: the results without an
    error and the results with one add up to the total, and the table has a
    line for every result when [Verbose] is set and for the results without
    an error only when it is not, although the total counts them all. *)
Theorem table_counts jm f results :
  let out := TableFormat jm f results in
  total out = Z.of_nat (length results)
  /\ successCount out = Z.of_nat (length (filter succeeded results))
  /\ successCount out + errorCount out = total out
  /\ Z.of_nat (length (lines out))
     = if Verbose f then total out else successCount out.
Proof.
  unfold TableFormat. rewrite foldl_count.
  cbn [lines total successCount errorCount].
  rewrite length_omap_formatLine.
  split; [reflexivity|]. split; [f_equal; lia|]. split; [lia|].
  destruct (Verbose f); f_equal; lia.
Qed.

Lemma length_append (a b : string) :
  String.length (a +:+ b) = (String.length a + String.length b)%nat.
Proof.
  induction a as [|c a IH]; [reflexivity|].
  change (S (String.length (a +:+ b)) = S (String.length a + String.length b)).
  now rewrite IH.
Qed.

Lemma length_substring m s :
  (m <= String.length s)%nat -> String.length (substring 0 m s) = m.
Proof.
  revert s. induction m as [|m IH]; intros s Hm.
  - destruct s; reflexivity.
  - destruct s as [|c s]; cbn in *; [lia|]. rewrite IH; lia.
Qed.

(** Every line of the table is made from one of the results and shows its
    address, port, command and duration.  A line of a failed result is
    printed only when [Verbose] is set and carries the whole error; a
    line of a result without an error carries at most 50 bytes of detail,
    and none when [Verbose] is not set. *)
Theorem table_lines jm f results l :
  l ∈ lines (TableFormat jm f results) ->
  exists r, r ∈ results
    /\ line_IP l = IP r /\ line_Port l = Port r /\ line_Command l = Command r
    /\ line_Duration l = Duration r
    /\ ((Error r <> EmptyString /\ Verbose f = true
         /\ line_Status l = "Failed"%string /\ line_Details l = Error r)
        \/ (Error r = EmptyString /\ line_Status l = "Success"%string
            /\ (String.length (line_Details l) <= 50)%nat
            /\ (Verbose f = false -> line_Details l = EmptyString))).
Proof.
  unfold TableFormat. destruct (foldl count (0, 0) results) as [s e].
  cbn [lines]. rewrite list_elem_of_omap. intros (r & Hr & Hl).
  exists r. split; [assumption|]. unfold formatLine in Hl.
  destruct (String.eqb_spec (Error r) EmptyString) as [E|N]; cbn [negb andb] in Hl.
  - injection Hl as <-.
    cbn [line_IP line_Port line_Command line_Status line_Duration line_Details].
    repeat split. right. split; [assumption|].
    split; [reflexivity|]. destruct (Verbose f); [|split; [cbn; lia|reflexivity]].
    split; [|discriminate].
    destruct (jm (Response r)) as [jsonData|]; [|cbn; lia].
    destruct (Nat.ltb_spec 50 (String.length jsonData)) as [H|H]; [|exact H].
    rewrite length_append, length_substring by lia. cbn. lia.
  - destruct (Verbose f); cbn [negb] in Hl; [|discriminate].
    injection Hl as <-.
    cbn [line_IP line_Port line_Command line_Status line_Duration line_Details].
    repeat split. left. auto.
Qed.

(** Two results, one of them failed, and a response of 60 bytes. *)
Definition twoResults : list Result :=
  [{| IP := "192.168.1.1"; Port := 4028; Command := "version";
      Response := AOther "v"; Error := EmptyString; Duration := "12ms" |};
   {| IP := "192.168.1.2"; Port := 4028; Command := "version";
      Response := ANil; Error := "connection refused"; Duration := "2s" |}]%string.

Definition sixtyBytes (_ : any) : res string :=
  Ok "012345678901234567890123456789012345678901234567890123456789".

Definition firstLine : tableLine :=
  {| line_IP := "192.168.1.1"; line_Port := 4028; line_Command := "version";
     line_Status := "Success"; line_Duration := "12ms";
     line_Details := "01234567890123456789012345678901234567890123456..." |}.

Lemma table_lines_witness :
  let f := {| Verbose := true |} in
  firstLine ∈ lines (TableFormat sixtyBytes f twoResults)
  /\ exists r, r ∈ twoResults
       /\ line_IP firstLine = IP r /\ line_Port firstLine = Port r
       /\ line_Command firstLine = Command r
       /\ line_Duration firstLine = Duration r
       /\ ((Error r <> EmptyString /\ Verbose f = true
            /\ line_Status firstLine = "Failed"%string
            /\ line_Details firstLine = Error r)
           \/ (Error r = EmptyString /\ line_Status firstLine = "Success"%string
               /\ (String.length (line_Details firstLine) <= 50)%nat
               /\ (Verbose f = false -> line_Details firstLine = EmptyString))).
Proof.
  intros f.
  assert (H : firstLine ∈ lines (TableFormat sixtyBytes f twoResults))
    by (vm_compute; left).
  exact (conj H (table_lines sixtyBytes f twoResults firstLine H)).
Defined.

(** *** The groups of the summary table *)

(** The results [SummaryTableFormatter] shows, and those of one subnet. *)
Definition responding (r : Result) : Prop :=
  Error r = EmptyString /\ ParseIP (IP r) <> None.


Lemma group_responding m r :
  responding r ->
  group m r = <[getSubnet24 (IP r) := default [] (m !! getSubnet24 (IP r)) ++ [r]]> m.
Proof.
  intros [E N]. unfold group. rewrite E. cbn [String.eqb negb].
  destruct (ParseIP (IP r)); [reflexivity|contradiction].
Qed.

Lemma group_other m r : ~ responding r -> group m r = m.
Proof.
  intros N. unfold group.
  destruct (String.eqb_spec (Error r) EmptyString) as [E|_]; [|reflexivity].
  cbn [negb]. destruct (ParseIP (IP r)) eqn:P; [|reflexivity].
  exfalso. apply N. split; [assumption|]. rewrite P. discriminate.
Qed.

Definition nonempty (l : list Result) : option (list Result) :=
  match l with
  | [] => None
  | _ => Some l
  end.

Lemma nonempty_snoc l r : nonempty (l ++ [r]) = Some (l ++ [r]).
Proof. destruct l; reflexivity. Qed.



(** No group is ever empty. *)
Lemma subnetMap_nonempty results k :
  subnetMap results !! k = nonempty (default [] (subnetMap results !! k)).
Proof.
  unfold subnetMap. induction results as [|r l IH] using rev_ind;
    [cbn [foldl]; now rewrite lookup_empty|].
  rewrite foldl_app. cbn [foldl].
  destruct (decide (responding r)) as [Hr|Hr]; [|now rewrite (group_other _ _ Hr)].
  rewrite (group_responding _ _ Hr).
  destruct (decide (getSubnet24 (IP r) = k)) as [<-|Hk].
  - rewrite lookup_insert_eq. exact (eq_sym (nonempty_snoc _ _)).
  - rewrite lookup_insert_ne by assumption. exact IH.
Qed.

Lemma totalSuccess_insert m k l l' :
  m !! k = nonempty l ->
  totalSuccess (<[k := l']> m)
  = totalSuccess m - Z.of_nat (length l) + Z.of_nat (length l').
Proof.
  intros Hk. unfold totalSuccess.
  assert (C : forall (m' : gmap string (list Result)) j1 j2 z1 z2 (y : Z),
             j1 <> j2 -> m' !! j1 = Some z1 -> m' !! j2 = Some z2 ->
             y + Z.of_nat (length z2) + Z.of_nat (length z1)
             = y + Z.of_nat (length z1) + Z.of_nat (length z2)) by (intros; lia).
  destruct l as [|x l]; cbn [nonempty] in Hk.
  - rewrite map_fold_insert_L by (apply C || assumption). cbn [length]. lia.
  - rewrite <- (insert_delete_eq m k l').
    rewrite map_fold_insert_L by (apply C || apply lookup_delete_eq).
    rewrite (map_fold_delete_L _ _ k (x :: l) m) by (apply C || assumption). lia.
Qed.

(** The number of hosts the summary reports as responding is the number
    of results without an error whose address parses. *)
Theorem summary_total results :
  totalSuccess (subnetMap results)
  = Z.of_nat (length (filter responding results)).
Proof.
  induction results as [|r l IH] using rev_ind; [reflexivity|].
  unfold subnetMap in *. rewrite foldl_app, filter_app, length_app. cbn [foldl].
  destruct (decide (responding r)) as [Hr|Hr].
  - rewrite (group_responding _ _ Hr).
    pose proof (subnetMap_nonempty l (getSubnet24 (IP r))) as Hk. unfold subnetMap in Hk.
    rewrite (totalSuccess_insert _ _ _ _ Hk), IH.
    rewrite (filter_cons_True _ r) by assumption. rewrite filter_nil, length_app.
    cbn [length]. lia.
  - rewrite (group_other _ _ Hr), IH.
    rewrite (filter_cons_False _ r) by assumption. rewrite filter_nil.
    cbn [length]. lia.
Qed.

End OutputFacts.
